(** * Locale tree synchronisation and verification

    A shallow embedding of [sync_en_from_fr_with_old.py] (the merge engine and
    its placeholder guard) and of [verify_i18n_sync.py] (the key-path
    enumeration, the structural comparison and the untranslated-leaf check),
    followed by the properties of these functions.

    Conventions of the embedding:
    - a Python [str] is the list of its code points ([char] is [N]);
    - a value read by [json.load] is a [json]; a Python [dict] is an
      association list in insertion order, and [json_wf] says that no key
      occurs twice in a dict, which holds of every Python dict;
    - Python's [None] and JSON's [null] are the same value, [JNull];
    - the translator is a state machine [translate : P -> str -> P * option
      str]: a call returns a string or raises an [Exception], which is the
      result [None];
    - the mutable [stats] dict, the provider and the observable effects
      (provider calls, sleeps, printed lines) are threaded as a [world]. *)

From Stdlib Require Import NArith ZArith Ascii String List Bool Lia.
From stdpp Require Import base decidable countable list gmap sets pretty.
Import ListNotations.

Local Open Scope list_scope.
Local Open Scope nat_scope.

(** ** Python strings *)

Abbreviation char := N (only parsing).
Abbreviation str := (list N) (only parsing).

(** [lit "abc"] is the Python literal ['abc'] (ASCII literals only). *)
Definition lit (s : string) : str := map N_of_ascii (list_ascii_of_string s).

(** [str(i)] for a non-negative integer. *)
Definition str_of_nat (i : nat) : str := lit (pretty i).

(** [bool(s)] for a string: non-empty. *)
Definition truthy (s : str) : bool :=
  match s with [] => false | _ :: _ => true end.

(** [a == b] on strings. *)
Definition str_eqb (a b : str) : bool := bool_decide (a = b).

(** [str.isspace] on one code point (the Unicode White_Space set together
    with the four ASCII separators, as CPython's [Py_UNICODE_ISSPACE]). *)
Definition is_space (c : char) : bool :=
  ((9 <=? c) && (c <=? 13) || (28 <=? c) && (c <=? 32) || (c =? 133)
   || (c =? 160) || (c =? 5760) || (8192 <=? c) && (c <=? 8202)
   || (c =? 8232) || (c =? 8233) || (c =? 8239) || (c =? 8287)
   || (c =? 12288))%N.

Fixpoint lstrip (s : str) : str :=
  match s with
  | [] => []
  | c :: s' => if is_space c then lstrip s' else s
  end.

Definition rstrip (s : str) : str := rev (lstrip (rev s)).

(** [s.strip()]. *)
Definition strip (s : str) : str := rstrip (lstrip s).

(** ** JSON values

    The code never inspects a number, so the integers stand for all JSON
    numbers. *)

Unset Elimination Schemes.
Inductive json : Type :=
| JNull
| JBool (b : bool)
| JNum (n : Z)
| JStr (s : str)
| JList (items : list json)
| JDict (items : list (str * json)).
Set Elimination Schemes.

Section json_induction.
Variable P : json -> Prop.
Hypothesis Hnull : P JNull.
Hypothesis Hbool : forall b, P (JBool b).
Hypothesis Hnum : forall n, P (JNum n).
Hypothesis Hstr : forall s, P (JStr s).
Hypothesis Hlist : forall l, Forall P l -> P (JList l).
Hypothesis Hdict : forall d, Forall (fun kv => P (snd kv)) d -> P (JDict d).

Fixpoint json_ind (j : json) : P j :=
  match j with
  | JNull => Hnull
  | JBool b => Hbool b
  | JNum n => Hnum n
  | JStr s => Hstr s
  | JList l =>
      Hlist l ((fix go (l : list json) : Forall P l :=
                  match l with
                  | [] => List.Forall_nil _
                  | x :: l' => @List.Forall_cons _ P x l' (json_ind x) (go l')
                  end) l)
  | JDict d =>
      Hdict d ((fix go (d : list (str * json)) : Forall (fun kv => P (snd kv)) d :=
                  match d with
                  | [] => List.Forall_nil _
                  | kv :: d' =>
                      @List.Forall_cons _ (fun kv => P (snd kv)) kv d'
                        (json_ind (snd kv)) (go d')
                  end) d)
  end.
End json_induction.

(** The three node kinds of the tree model. *)
Inductive kind := Leaf | Sequence | Mapping.

Definition kind_of (j : json) : kind :=
  match j with
  | JList _ => Sequence
  | JDict _ => Mapping
  | _ => Leaf
  end.

(** [isinstance(v, (dict, list))]. *)
Definition is_container (j : json) : bool :=
  match j with
  | JList _ | JDict _ => true
  | _ => false
  end.

(** ** Python dicts as association lists *)

Module Dict.
Section ops.
Context {V : Type}.

(** [d.get(k)], [None] when [k not in d]. *)
Fixpoint get (d : list (str * V)) (k : str) : option V :=
  match d with
  | [] => None
  | (k', v) :: d' => if str_eqb k' k then Some v else get d' k
  end.

(** [k in d]. *)
Definition mem (k : str) (d : list (str * V)) : bool :=
  match get d k with Some _ => true | None => false end.

(** [d[k] = v]: overwrite in place, or append a new entry. *)
Fixpoint set (d : list (str * V)) (k : str) (v : V) : list (str * V) :=
  match d with
  | [] => [(k, v)]
  | (k', v') :: d' =>
      if str_eqb k' k then (k', v) :: d' else (k', v') :: set d' k v
  end.

Definition keys (d : list (str * V)) : list str := map fst d.
End ops.
End Dict.

(** No key occurs twice in any dict of the value. *)
Fixpoint json_wf (j : json) : bool :=
  match j with
  | JList l => forallb json_wf l
  | JDict d =>
      bool_decide (NoDup (Dict.keys d)) && forallb (fun kv => json_wf (snd kv)) d
  | _ => true
  end.

(** ** Library functions on strings *)

(** [s.startswith(p)]. *)
Fixpoint is_prefix (p s : str) : bool :=
  match p, s with
  | [], _ => true
  | _ :: _, [] => false
  | a :: p', b :: s' => (a =? b)%N && is_prefix p' s'
  end.

(** [x in s] for two strings: [x] is a substring of [s]. *)
Fixpoint contains (x s : str) : bool :=
  is_prefix x s
  || match s with
     | [] => false
     | _ :: s' => contains x s'
     end.

(** The scan of [s.replace(old, new)] for a non-empty [old]: [skip] counts
    the characters of a match that are still to be dropped. *)
Fixpoint replace_go (old new s : str) (skip : nat) : str :=
  match s with
  | [] => []
  | c :: s' =>
      match skip with
      | S k => replace_go old new s' k
      | O =>
          if is_prefix old s
          then new ++ replace_go old new s' (length old - 1)
          else c :: replace_go old new s' 0
      end
  end.

(** [s.replace(old, new)]: every non-overlapping occurrence, left to right. *)
Definition replace (s old new : str) : str :=
  match old with
  | [] => new ++ flat_map (fun c => c :: new) s
  | _ :: _ => replace_go old new s 0
  end.

(** ** Placeholder guard ([sync_en_from_fr_with_old.py], lines 12-33) *)

Module Guard.

Definition open_brace : char := 123%N.
Definition close_brace : char := 125%N.

(** The match of [[^\}]+\}] has the characters before the next closing
    brace as its body; [until_close s] is that body with the brace, when
    there is a closing brace in [s]. *)
Fixpoint until_close (s : str) : option str :=
  match s with
  | [] => None
  | c :: s' =>
      if (c =? close_brace)%N then Some [c]
      else match until_close s' with
           | Some b => Some (c :: b)
           | None => None
           end
  end.

(** The match of [\{[^\}]+\}] at the beginning of [s], if any. *)
Definition match_placeholder (s : str) : option str :=
  match s with
  | c :: s1 =>
      if (c =? open_brace)%N then
        match until_close s1 with
        | Some (b1 :: b2 :: body) => Some (c :: b1 :: b2 :: body)
        | _ => None
        end
      else None
  | [] => None
  end.

(** [re.findall(r'\{[^\}]+\}', s)]: [skip] counts the characters of the
    last match that are still to be passed over. *)
Fixpoint findall_go (s : str) (skip : nat) : list str :=
  match s with
  | [] => []
  | _ :: s' =>
      match skip with
      | S k => findall_go s' k
      | O =>
          match match_placeholder s with
          | Some ph => ph :: findall_go s' (length ph - 1)
          | None => findall_go s' 0
          end
      end
  end.

Definition findall (s : str) : list str := findall_go s 0.

Definition marker_word : str := lit "PLACEHOLDER".

(** [f"PLACEHOLDER{i}"]. *)
Definition marker (i : nat) : str := marker_word ++ str_of_nat i.

(** The loop of lines 21-24 over [enumerate(placeholders)] from index [i]. *)
Fixpoint protect_loop (placeholders : list str) (i : nat)
    (protected : str) (placeholder_map : list (str * str))
    : str * list (str * str) :=
  match placeholders with
  | [] => (protected, placeholder_map)
  | ph :: rest =>
      protect_loop rest (S i)
        (replace protected ph (marker i))
        (Dict.set placeholder_map (marker i) ph)
  end.

(** [protect_placeholders(text)] for a string [text]. *)
Definition protect_placeholders (text : str) : str * list (str * str) :=
  protect_loop (findall text) 0 text [].

(** [restore_placeholders(text, placeholder_map)]. *)
Definition restore_placeholders (text : str)
    (placeholder_map : list (str * str)) : str :=
  fold_left (fun restored '(marker, ph) => replace restored marker ph)
    placeholder_map text.

End Guard.

(** ** Merge engine ([sync_en_from_fr_with_old.py], lines 35-113) *)

Record stats := mkStats { translated : nat; reused : nat; total : nat }.

(** What one run of the translate branch does to the outside world. *)
Inductive event :=
| EvProgress (done_ of_ : nat)          (* the progress line of line 104 *)
| EvCall (arg : str) (res : option str) (* [translator.translate(arg)] *)
| EvSleep (ms : nat)                    (* [time.sleep], in milliseconds *)
| EvFail (shown : str).                 (* the failure line of line 51 *)

(** The effects of the translate branch for the leaf at [lr_path]. *)
Record leaf_run := mkRun { lr_path : list str; lr_events : list event }.

(** [get_nested_value(data, keys)]. *)
Fixpoint get_nested_value (data : json) (keys : list str) : json :=
  match keys with
  | [] => data
  | key :: keys' =>
      match data with
      | JDict d =>
          match Dict.get d key with
          | Some v => get_nested_value v keys'
          | None => JNull
          end
      | _ => JNull
      end
  end.

(** [isinstance(en_old_data, str) and en_old_data.strip()]. *)
Definition reusable (en_old_data : json) : bool :=
  match en_old_data with
  | JStr e => truthy (strip e)
  | _ => false
  end.

(** [get_nested_value(en_old_data, [key]) if isinstance(en_old_data, dict)
    else None] (line 80). *)
Definition legacy_child (en_old_data : json) (key : str) : json :=
  match en_old_data with
  | JDict _ => get_nested_value en_old_data [key]
  | _ => JNull
  end.

(** [en_old_data[i] if isinstance(en_old_data, list) and i <
    len(en_old_data) else None] (line 89). *)
Definition legacy_item (en_old_data : json) (i : nat) : json :=
  match en_old_data with
  | JList en_l => if i <? length en_l then nth i en_l JNull else JNull
  | _ => JNull
  end.

Section merge.
(** The translation provider: a state and its [translate] method. *)
Variable P : Type.
Variable translate : P -> str -> P * option str.

Record world := mkWorld { w_stats : stats; w_prov : P; w_log : list leaf_run }.

(** The [for attempt in range(retry)] loop of [translate_text], with
    [remaining = retry - attempt] iterations to go. *)
Fixpoint translate_loop (text protected : str) (ph_map : list (str * str))
    (remaining : nat) (p : P) : str * P * list event :=
  match remaining with
  | O => (text, p, [])
  | S r =>
      match translate p protected with
      | (p', Some out) =>
          (Guard.restore_placeholders out ph_map, p',
           [EvCall protected (Some out)])
      | (p', None) =>
          match r with
          | O => (text, p', [EvCall protected None; EvFail (take 40 text)])
          | S _ =>
              let '(res, p'', evs) :=
                translate_loop text protected ph_map r p' in
              (res, p'', EvCall protected None :: EvSleep 500 :: evs)
          end
      end
  end.

(** [translate_text(text, translator, retry)] for a string [text]. *)
Definition translate_text (text : str) (p : P) (retry : nat)
    : str * P * list event :=
  if negb (truthy (strip text)) then (text, p, [])
  else
    let '(protected, ph_map) := Guard.protect_placeholders text in
    translate_loop text protected ph_map retry p.

(** Lines 101-109: the translate branch for the string leaf [fr_data],
    entered after [total] has been incremented. *)
Definition translate_leaf (fr_data : str) (path_keys : list str) (w : world)
    : json * world :=
  let st := w_stats w in
  let progress :=
    if (translated st mod 10 =? 0) && (0 <? translated st)
    then [EvProgress (translated st) (total st)] else [] in
  let '(out, p', evs) := translate_text fr_data (w_prov w) 3 in
  (JStr out,
   mkWorld (mkStats (translated st + 1) (reused st) (total st)) p'
     (w_log w ++ [mkRun path_keys (progress ++ evs ++ [EvSleep 300])])).

(** The loop of lines 78-83 over [fr_data.items()]. *)
Section loops.
Variable rec : json -> json -> list str -> world -> json * world.
Variable en_old_data : json.
Variable path_keys : list str.

Fixpoint sync_dict_loop (items : list (str * json))
    (result : list (str * json)) (w : world)
    : list (str * json) * world :=
  match items with
  | [] => (result, w)
  | (key, fr_value) :: rest =>
      let en_old_value := legacy_child en_old_data key in
      let '(v, w1) := rec fr_value en_old_value (path_keys ++ [key]) w in
      sync_dict_loop rest (Dict.set result key v) w1
  end.

(** The loop of lines 88-90 over [enumerate(fr_data)], from index [i]. *)
Fixpoint sync_list_loop (l : list json) (i : nat) (result : list json)
    (w : world) : list json * world :=
  match l with
  | [] => (result, w)
  | fr_item :: rest =>
      let en_old_item := legacy_item en_old_data i in
      let '(v, w1) :=
        rec fr_item en_old_item
          (path_keys ++ [lit "[" ++ str_of_nat i ++ lit "]"]) w in
      sync_list_loop rest (S i) (result ++ [v]) w1
  end.
End loops.

(** Lines 93-99: the string leaf [fr_data]. *)
Definition sync_leaf (fr_data : str) (en_old_data : json)
    (path_keys : list str) (w : world) : json * world :=
  let st := w_stats w in
  let w1 :=
    mkWorld (mkStats (translated st) (reused st) (total st + 1))
      (w_prov w) (w_log w) in
  if reusable en_old_data
  then (en_old_data,
        mkWorld (mkStats (translated st) (reused st + 1) (total st + 1))
          (w_prov w) (w_log w))
  else translate_leaf fr_data path_keys w1.

(** [sync_structure(fr_data, en_old_data, translator, path_keys, stats)]. *)
Fixpoint sync_structure (fr_data en_old_data : json) (path_keys : list str)
    (w : world) : json * world :=
  match fr_data with
  | JDict items =>
      let '(result, w') :=
        sync_dict_loop sync_structure en_old_data path_keys items [] w in
      (JDict result, w')
  | JList l =>
      let '(result, w') :=
        sync_list_loop sync_structure en_old_data path_keys l 0 [] w in
      (JList result, w')
  | JStr s => sync_leaf s en_old_data path_keys w
  | _ => (fr_data, w)
  end.

(** The call of [main]: fresh counters, empty path. *)
Definition merge (fr_data en_old_data : json) (p : P) : json * world :=
  sync_structure fr_data en_old_data [] (mkWorld (mkStats 0 0 0) p []).

End merge.

Arguments mkWorld {P}.
Arguments w_stats {P}.
Arguments w_prov {P}.
Arguments w_log {P}.
Arguments translate_loop {P}.
Arguments translate_text {P}.
Arguments translate_leaf {P}.
Arguments sync_dict_loop {P}.
Arguments sync_list_loop {P}.
Arguments sync_leaf {P}.
Arguments sync_structure {P}.
Arguments merge {P}.

(** ** Validator ([verify_i18n_sync.py]) *)

(** [f"{parent_path}.{key}" if parent_path else key]. *)
Definition child_path (parent_path key : str) : str :=
  if truthy parent_path then parent_path ++ lit "." ++ key else key.

(** [f"{parent_path}[{i}]"]. *)
Definition index_path (parent_path : str) (i : nat) : str :=
  parent_path ++ lit "[" ++ str_of_nat i ++ lit "]".

Section path_loops.
Variable rec : json -> str -> gset str.
Variable parent_path : str.

(** The loop of lines 14-18 over [data.items()]. *)
Fixpoint dict_paths_loop (items : list (str * json)) : gset str :=
  match items with
  | [] => ∅
  | (key, value) :: rest =>
      let current_path := child_path parent_path key in
      {[ current_path ]}
      ∪ (if is_container value then rec value current_path else ∅)
      ∪ dict_paths_loop rest
  end.

(** The loop of lines 20-23 over [enumerate(data)], from index [i]. *)
Fixpoint list_paths_loop (l : list json) (i : nat) : gset str :=
  match l with
  | [] => ∅
  | item :: rest =>
      let current_path := index_path parent_path i in
      (if is_container item then rec item current_path else ∅)
      ∪ list_paths_loop rest (S i)
  end.
End path_loops.

(** [get_all_key_paths(data, parent_path)]. *)
Fixpoint get_all_key_paths (data : json) (parent_path : str) : gset str :=
  match data with
  | JDict items => dict_paths_loop get_all_key_paths parent_path items
  | JList l => list_paths_loop get_all_key_paths parent_path l 0
  | _ => ∅
  end.

Record comparison := mkComparison {
  common : gset str;
  missing_in_en : gset str;
  extra_in_en : gset str
}.

(** [compare_structures(fr_data, en_data)]. *)
Definition compare_structures (fr_data en_data : json) : comparison :=
  let fr_keys := get_all_key_paths fr_data [] in
  let en_keys := get_all_key_paths en_data [] in
  mkComparison (fr_keys ∩ en_keys) (fr_keys ∖ en_keys) (en_keys ∖ fr_keys).

(** The literals of line 52. *)
Definition invariant_literals : list str :=
  [lit "Call a Star"; lit "Dashboard"; lit "Email"; lit "EUR"; lit "USD"].

(** [any(x in fr_data for x in [...])]. *)
Definition has_invariant_literal (fr_data : str) : bool :=
  existsb (fun x => contains x fr_data) invariant_literals.

(** [f"{path}: '{fr_data}' non traduit"]. *)
Definition issue_line (path fr_data : str) : str :=
  path ++ lit ": '" ++ fr_data ++ lit "' non traduit".

Section verify_loop.
Variable rec : json -> json -> str -> list str.
Variable en_items : list (str * json).
Variable path : str.

(** The loop of lines 43-46 over [fr_data.keys()]. *)
Fixpoint verify_dict_loop (items : list (str * json)) : list str :=
  match items with
  | [] => []
  | (key, fr_value) :: rest =>
      match Dict.get en_items key with
      | Some en_value => rec fr_value en_value (child_path path key)
      | None => []
      end ++ verify_dict_loop rest
  end.
End verify_loop.

(** [verify_values(fr_data, en_data, path)]. *)
Fixpoint verify_values (fr_data en_data : json) (path : str) : list str :=
  match fr_data, en_data with
  | JDict items, JDict en_items =>
      verify_dict_loop verify_values en_items path items
  | JStr fr_s, JStr en_s =>
      if str_eqb fr_s en_s && (3 <? length fr_s)
      then if negb (has_invariant_literal fr_s)
           then [issue_line path fr_s] else []
      else []
  | _, _ => []
  end.

Inductive sync_status := synchronized | issues_detected.

(** The report of [main], lines 124-132. *)
Record report := mkReport {
  status : sync_status;
  fr_keys_count : nat;
  en_keys_count : nat;
  common_keys : nat;
  report_missing : list str;
  report_extra : list str;
  translation_issues : list str
}.

(** [not s] for a set. *)
Definition set_falsy (s : gset str) : bool := bool_decide (s = ∅).

(** ["synchronized" if not missing and not extra else "issues_detected"]. *)
Definition status_of (missing extra : gset str) : sync_status :=
  if set_falsy missing && set_falsy extra then synchronized
  else issues_detected.

Definition make_report (fr_data en_data : json) : report :=
  let c := compare_structures fr_data en_data in
  let issues := verify_values fr_data en_data [] in
  mkReport (status_of (missing_in_en c) (extra_in_en c))
    (size (get_all_key_paths fr_data []))
    (size (get_all_key_paths en_data []))
    (size (common c))
    (elements (missing_in_en c))
    (elements (extra_in_en c))
    issues.

(** ** Paths of the tree model *)

Inductive seg := Key (k : str) | Idx (i : nat).

(** The node addressed by a path, when the path is present in the tree. *)
Fixpoint node_at (ps : list seg) (j : json) : option json :=
  match ps with
  | [] => Some j
  | Key k :: ps' =>
      match j with
      | JDict d =>
          match Dict.get d k with
          | Some v => node_at ps' v
          | None => None
          end
      | _ => None
      end
  | Idx i :: ps' =>
      match j with
      | JList l =>
          match l !! i with
          | Some v => node_at ps' v
          | None => None
          end
      | _ => None
      end
  end.

(** The entry of [path_keys] a segment stands for in [sync_structure]. *)
Definition seg_key (s : seg) : str :=
  match s with
  | Key k => k
  | Idx i => lit "[" ++ str_of_nat i ++ lit "]"
  end.

(** The dotted and bracketed rendering of a path below [parent_path], as
    [get_all_key_paths] and [verify_values] build it. *)
Fixpoint render (parent_path : str) (ps : list seg) : str :=
  match ps with
  | [] => parent_path
  | Key k :: ps' => render (child_path parent_path k) ps'
  | Idx i :: ps' => render (index_path parent_path i) ps'
  end.

(** The legacy counterpart that the co-traversal of [sync_structure] pairs
    with the reference node at a path ([JNull] is Python's [None]). *)
Fixpoint legacy_at (ps : list seg) (en_old_data : json) : json :=
  match ps with
  | [] => en_old_data
  | Key k :: ps' => legacy_at ps' (legacy_child en_old_data k)
  | Idx i :: ps' => legacy_at ps' (legacy_item en_old_data i)
  end.

(** ** Sample catalogs *)

(** [{"a": ["x"]}] *)
Definition tree_with_sequence : json :=
  JDict [(lit "a", JList [JStr (lit "x")])].

(** [{"a": "1", "b": "2", "c": "3"}] and [{"a": "1", "b": "2"}] *)
Definition tree_abc : json :=
  JDict [(lit "a", JStr (lit "1")); (lit "b", JStr (lit "2"));
         (lit "c", JStr (lit "3"))].
Definition tree_ab : json :=
  JDict [(lit "a", JStr (lit "1")); (lit "b", JStr (lit "2"))].

(** [{"m": "My Dashboard"}] *)
Definition tree_dashboard : json :=
  JDict [(lit "m", JStr (lit "My Dashboard"))].

(** [{"msg": "Bonjour"}] *)
Definition tree_bonjour : json :=
  JDict [(lit "msg", JStr (lit "Bonjour"))].

(** ** Runs of the merge *)

Definition stats_le (a b : stats) : Prop :=
  translated a <= translated b /\ reused a <= reused b /\ total a <= total b.

(** [w'] is a later state of the run than [w]: the counters have not
    decreased and the log has only been appended to. *)
Definition world_le {P} (w w' : world P) : Prop :=
  stats_le (w_stats w) (w_stats w') /\ w_log w `prefix_of` w_log w'.

Section runs.
Context {P : Type} (translate : P -> str -> P * option str).

(** The loop over the items of a dict as a chain of recursive calls. *)
Inductive dict_chain (en : json) (pk : list str)
  : list (str * json) -> world P -> list (str * json) -> world P -> Prop :=
| dict_chain_nil w : dict_chain en pk [] w [] w
| dict_chain_cons k v rest w o w1 outs w' :
    sync_structure translate v (legacy_child en k) (pk ++ [k]) w = (o, w1) ->
    dict_chain en pk rest w1 outs w' ->
    dict_chain en pk ((k, v) :: rest) w ((k, o) :: outs) w'.

(** The loop over the items of a list, from index [i]. *)
Inductive list_chain (en : json) (pk : list str)
  : nat -> list json -> world P -> list json -> world P -> Prop :=
| list_chain_nil i w : list_chain en pk i [] w [] w
| list_chain_cons i v rest w o w1 outs w' :
    sync_structure translate v (legacy_item en i)
      (pk ++ [lit "[" ++ str_of_nat i ++ lit "]"]) w = (o, w1) ->
    list_chain en pk (S i) rest w1 outs w' ->
    list_chain en pk i (v :: rest) w (o :: outs) w'.
End runs.

(** Number of provider calls among the events of a leaf. *)
Definition is_call (e : event) : bool :=
  match e with EvCall _ _ => true | _ => false end.

Definition is_success (e : event) : bool :=
  match e with EvCall _ (Some _) => true | _ => false end.

Definition calls (evs : list event) : nat :=
  length (List.filter is_call evs).

(** Number of string leaves of a tree. *)
Fixpoint count_strings (j : json) : nat :=
  match j with
  | JStr _ => 1
  | JList l => list_sum (map count_strings l)
  | JDict d => list_sum (map (fun kv => count_strings (snd kv)) d)
  | _ => 0
  end.

(** A string that is empty or consists of white space only. *)
Definition blank (s : str) : bool := negb (truthy (strip s)).

(** Number of blank string leaves of a tree. *)
Fixpoint count_blank (j : json) : nat :=
  match j with
  | JStr s => if blank s then 1 else 0
  | JList l => list_sum (map count_blank l)
  | JDict d => list_sum (map (fun kv => count_blank (snd kv)) d)
  | _ => 0
  end.

Section shape_loops.
Variable rec : json -> json -> bool.

Fixpoint same_shape_items (da db : list (str * json)) : bool :=
  match da, db with
  | [], [] => true
  | (ka, va) :: da', (kb, vb) :: db' =>
      str_eqb ka kb && rec va vb && same_shape_items da' db'
  | _, _ => false
  end.

Fixpoint same_shape_elems (la lb : list json) : bool :=
  match la, lb with
  | [], [] => true
  | va :: la', vb :: lb' => rec va vb && same_shape_elems la' lb'
  | _, _ => false
  end.
End shape_loops.

(** Same node kind at the root, same keys in the same order in every
    mapping, same length of every sequence, all the way down. *)
Fixpoint same_shape (a b : json) : bool :=
  match a, b with
  | JDict da, JDict db => same_shape_items same_shape da db
  | JList la, JList lb => same_shape_elems same_shape la lb
  | JDict _, _ | JList _, _ | _, JDict _ | _, JList _ => false
  | _, _ => true
  end.

(** ** Sample providers and catalogs for the merge *)

(** A provider that fails on every call, and counts the calls. *)
Definition failing_provider (n : nat) (text : str) : nat * option str :=
  (S n, None).

(** A provider that answers every call, prefixing the text with ["EN:"]. *)
Definition prefixing_provider (n : nat) (text : str) : nat * option str :=
  (S n, Some (lit "EN:" ++ text)).

(** [{"title": "Bonjour", "nav": {"home": "Accueil"}, "tags": ["x", 3]}] *)
Definition reference_tree : json :=
  JDict [(lit "title", JStr (lit "Bonjour"));
         (lit "nav", JDict [(lit "home", JStr (lit "Accueil"))]);
         (lit "tags", JList [JStr (lit "x"); JNum 3])].

(** [{"title": "Hello"}] *)
Definition legacy_tree : json :=
  JDict [(lit "title", JStr (lit "Hello"))].

(** [{"a": ""}] *)
Definition tree_empty_leaf : json := JDict [(lit "a", JStr [])].

(** ** Notions used to state the properties of the merge *)

(** Number of non-blank string leaves of a tree. *)
Fixpoint count_filled (j : json) : nat :=
  match j with
  | JStr s => if blank s then 0 else 1
  | JList l => list_sum (map count_filled l)
  | JDict d => list_sum (map (fun kv => count_filled (snd kv)) d)
  | _ => 0
  end.

(** The world [w] after [t] more translated leaves, [r] more reused ones and
    the log entries [log], the provider being left alone. *)
Definition advance {P} (w : world P) (t r : nat) (log : list leaf_run)
    : world P :=
  mkWorld (mkStats (translated (w_stats w) + t) (reused (w_stats w) + r)
             (total (w_stats w) + (t + r)))
    (w_prov w) (w_log w ++ log).

Section origins.
Context {P : Type} (translate : P -> str -> P * option str).

(** The log entry [e] is what the translate branch wrote for a string leaf
    of [R] without a reusable legacy value, whose result is the leaf of
    [O] at the same path. *)
Definition leaf_origin (R L O : json) (pk : list str) (e : leaf_run) : Prop :=
  exists ps s (w1 : world P) o w2,
    node_at ps R = Some (JStr s)
    /\ reusable (legacy_at ps L) = false
    /\ translate_leaf translate s (pk ++ map seg_key ps) w1 = (o, w2)
    /\ w_log w2 = w_log w1 ++ [e]
    /\ node_at ps O = Some o.
End origins.

(** [{"note": "  ", "title": "Bonjour"}] *)
Definition tree_blank_leaf : json :=
  JDict [(lit "note", JStr (lit "  ")); (lit "title", JStr (lit "Bonjour"))].

(** ** Notions used to state the properties of the placeholder guard *)

(** The placeholder map that [protect_placeholders] builds for the tokens
    [phs], numbered from [i]. *)
Fixpoint marker_map_from (i : nat) (phs : list str) : list (str * str) :=
  match phs with
  | [] => []
  | ph :: rest => (Guard.marker i, ph) :: marker_map_from (S i) rest
  end.

(** A guarded text seen as a sequence of plain characters and markers. *)
Inductive item := Ch (c : N) | Mk (i : nat).

(** The text an item sequence stands for, markers written out. *)
Definition flat (items : list item) : str :=
  flat_map (fun it => match it with Ch c => [c] | Mk i => Guard.marker i end)
    items.

(** The text an item sequence stands for, every marker replaced by its
    token. *)
Definition expand (phs : list str) (items : list item) : str :=
  flat_map (fun it => match it with Ch c => [c] | Mk i => nth i phs [] end)
    items.

(** The item sequence with the marker [i] replaced by its token [ph]. *)
Definition open_mark (i : nat) (ph : str) (items : list item) : list item :=
  flat_map (fun it => match it with
                      | Ch c => [Ch c]
                      | Mk j => if j =? i then map Ch ph else [Mk j]
                      end) items.

(** All the markers of the sequence have an index in [[lo, hi)]. *)
Definition marks_in (lo hi : nat) (items : list item) : Prop :=
  Forall (fun it => match it with Ch _ => True | Mk j => lo <= j < hi end)
    items.


(** ["Welcome {name} to {place}"] *)
Definition text_welcome : str := lit "Welcome {name} to {place}".

(** ["{a}{b}{c}{d}{e}{f}{g}{h}{i}{j}{k}"], a text with 11 tokens *)
Definition text_eleven_tokens : str := lit "{a}{b}{c}{d}{e}{f}{g}{h}{i}{j}{k}".

(** ** The final check of [main] ([sync_en_from_fr_with_old.py], lines 155-169) *)

Section count_loops.
Variable rec : json -> nat.

(** [sum(1 if not isinstance(v, (dict, list)) else count_keys(v)
        for v in data.values())]. *)
Fixpoint count_dict_values (d : list (str * json)) : nat :=
  match d with
  | [] => 0
  | (_, v) :: rest =>
      (if negb (is_container v) then 1 else rec v) + count_dict_values rest
  end.

(** [sum(count_keys(item) for item in data)]. *)
Fixpoint count_list_items (l : list json) : nat :=
  match l with
  | [] => 0
  | item :: rest => rec item + count_list_items rest
  end.
End count_loops.

(** [count_keys(data)], the local function of [main]. *)
Fixpoint count_keys (data : json) : nat :=
  match data with
  | JDict d => count_dict_values count_keys d
  | JList l => count_list_items count_keys l
  | _ => 1
  end.

(** The two outcomes of the last line of the report of [main]. *)
Inductive sync_verdict := Parfaite | Ecart.

(** ['✓ Parfaite' if fr_count == en_count else '✗ Écart'] (line 169). *)
Definition final_check (fr_data en_new_data : json) : sync_verdict :=
  if count_keys fr_data =? count_keys en_new_data then Parfaite else Ecart.

(** ** Further notions used to state properties *)

(** Time spent in [time.sleep] by a sequence of events, in milliseconds. *)
Fixpoint slept (evs : list event) : nat :=
  match evs with
  | [] => 0
  | EvSleep ms :: rest => ms + slept rest
  | _ :: rest => slept rest
  end.

(** [k] failed attempts on the guarded text, each followed by its pause. *)
Fixpoint failed_attempts (k : nat) (protected : str) : list event :=
  match k with
  | O => []
  | S k' => EvCall protected None :: EvSleep 500 :: failed_attempts k' protected
  end.

(** A provider that returns the text it is given. *)
Definition echo_provider (n : nat) (text : str) : nat * option str :=
  (S n, Some text).

(** [{"a": {"b": "x"}}] *)
Definition tree_nested : json :=
  JDict [(lit "a", JDict [(lit "b", JStr (lit "x"))])].

(** [{"title": "Salut", "nav": {"home": "Maison"}, "tags": ["y", 4]}], of the
    shape of [reference_tree] *)
Definition reference_tree_twin : json :=
  JDict [(lit "title", JStr (lit "Salut"));
         (lit "nav", JDict [(lit "home", JStr (lit "Maison"))]);
         (lit "tags", JList [JStr (lit "y"); JNum 4])].

(** [{"title": "Hello", "nav": {"home": "Home"}, "tags": ["x", 3]}], a
    legacy tree with a value for every string leaf of [reference_tree] *)
Definition full_legacy_tree : json :=
  JDict [(lit "title", JStr (lit "Hello"));
         (lit "nav", JDict [(lit "home", JStr (lit "Home"))]);
         (lit "tags", JList [JStr (lit "x"); JNum 3])].

(** Between [w] and [w'] the log grew by as many entries as [translated]
    grew, and the provider was left alone if the log did not grow. *)
Definition log_counts {P} (w w' : world P) : Prop :=
  exists new,
    w_log w' = w_log w ++ new
    /\ translated (w_stats w') = translated (w_stats w) + length new
    /\ (new = [] -> w_prov w' = w_prov w).

(** Two legacy values that the string branch of [sync_structure] cannot
    tell apart: the same reusable string, or two values that are both not
    reusable. *)
Definition legacy_agree (l l' : json) : Prop :=
  if reusable l then l = l' else reusable l' = false.

(** [{"title": "  ", "nav": 7, "extra": "unused"}], a legacy tree without a
    reusable value for any leaf of [reference_tree] *)
Definition useless_legacy_tree : json :=
  JDict [(lit "title", JStr (lit "  ")); (lit "nav", JNum 7);
         (lit "extra", JStr (lit "unused"))].

(** ** The string leaves of a tree, by path *)

Section string_path_loops.
Variable rec : json -> list (list seg).

Fixpoint string_paths_dict (d : list (str * json)) : list (list seg) :=
  match d with
  | [] => []
  | (k, v) :: rest => map (cons (Key k)) (rec v) ++ string_paths_dict rest
  end.

Fixpoint string_paths_list (l : list json) (i : nat) : list (list seg) :=
  match l with
  | [] => []
  | v :: rest => map (cons (Idx i)) (rec v) ++ string_paths_list rest (S i)
  end.
End string_path_loops.

(** The paths of the string leaves of a tree, in the order of a traversal. *)
Fixpoint string_paths (j : json) : list (list seg) :=
  match j with
  | JStr _ => [[]]
  | JList l => string_paths_list string_paths l 0
  | JDict d => string_paths_dict string_paths d
  | _ => []
  end.

(** The legacy tree has a reusable value at the path. *)
Definition reusable_at (L : json) (ps : list seg) : bool :=
  reusable (legacy_at ps L).

#[global] Instance seg_eq_dec : EqDecision seg.
Proof. solve_decision. Defined.

(** The paths of a list other than [ps]. *)
Definition other_paths (ps : list seg) (l : list (list seg))
    : list (list seg) :=
  List.filter (fun q => negb (bool_decide (q = ps))) l.

(** [{"a": "Un", "b": "Deux"}] and the legacy tree [{"a": "One", "b": "Two"}] *)
Definition tree_two_leaves : json :=
  JDict [(lit "a", JStr (lit "Un")); (lit "b", JStr (lit "Deux"))].
Definition legacy_two_leaves : json :=
  JDict [(lit "a", JStr (lit "One")); (lit "b", JStr (lit "Two"))].

(** [{"a": "", "b": "  "}] *)
Definition tree_two_blank_leaves : json :=
  JDict [(lit "a", JStr []); (lit "b", JStr (lit "  "))].


(** The events of a call of [translate_text] with [retry = 3] on a text
    that is not blank when every attempt fails: three calls of the
    provider on the guarded text, a pause of 0.5 s after the first two,
    and the failure line. *)
Definition exhausted_run (text : str) : list event :=
  failed_attempts 2 (Guard.protect_placeholders text).1
  ++ [EvCall (Guard.protect_placeholders text).1 None; EvFail (take 40 text)].

(** The events [evs] and the result [out] of [translate_text] with
    [retry = 3] on [text]: nothing happens for a blank text; otherwise
    either an attempt (the first, second or third) succeeds and the result
    is the restored answer, or all three fail and the result is [text]. *)
Definition text_run (text out : str) (evs : list event) : Prop :=
  if blank text then out = text /\ evs = []
  else
    (exists k res,
        k < 3
        /\ evs = failed_attempts k (Guard.protect_placeholders text).1
                 ++ [EvCall (Guard.protect_placeholders text).1 (Some res)]
        /\ out = Guard.restore_placeholders res
                   (Guard.protect_placeholders text).2)
    \/ (evs = exhausted_run text /\ out = text).

(** The progress line of lines 103-104, printed or not. *)
Definition progress_line (evs : list event) : Prop :=
  evs = [] \/ exists a b, evs = [EvProgress a b].

(** ** Notions used to state what the placeholder guard extracts and
    replaces *)















(** * Properties *)

(** ** Strings and dicts *)

Lemma str_eqb_true (a b : str) : str_eqb a b = true <-> a = b.
Proof. unfold str_eqb. apply bool_decide_eq_true. Qed.

Lemma str_eqb_false (a b : str) : str_eqb a b = false <-> a <> b.
Proof. unfold str_eqb. apply bool_decide_eq_false. Qed.

Lemma str_eqb_refl (a : str) : str_eqb a a = true.
Proof. by apply str_eqb_true. Qed.

Section dict_facts.
Context {V : Type}.
Implicit Types (d : list (str * V)) (k : str) (v : V).

Lemma get_not_in d k : k ∉ Dict.keys d -> Dict.get d k = None.
Proof.
  induction d as [|[k' v'] d IH]; simpl; [done|].
  intros Hk. apply not_elem_of_cons in Hk as [Hne Hk].
  destruct (str_eqb k' k) eqn:E.
  - apply str_eqb_true in E. congruence.
  - auto.
Qed.

Lemma get_some_in d k v : Dict.get d k = Some v -> (k, v) ∈ d.
Proof.
  induction d as [|[k' v'] d IH]; simpl; [done|].
  destruct (str_eqb k' k) eqn:E.
  - apply str_eqb_true in E. intros [= ->]. subst. left.
  - intros H. right. auto.
Qed.

Lemma get_in_nodup d k v :
  NoDup (Dict.keys d) -> (k, v) ∈ d -> Dict.get d k = Some v.
Proof.
  induction d as [|[k' v'] d IH]; simpl; intros Hnd Hin.
  - by apply elem_of_nil in Hin.
  - apply NoDup_cons in Hnd as [Hk' Hnd].
    apply elem_of_cons in Hin as [[= -> ->]|Hin].
    + by rewrite str_eqb_refl.
    + destruct (str_eqb k' k) eqn:E.
      * apply str_eqb_true in E. subst k'. exfalso. apply Hk'.
        apply list_elem_of_fmap. by exists (k, v).
      * auto.
Qed.

Lemma set_fresh d k v : k ∉ Dict.keys d -> Dict.set d k v = d ++ [(k, v)].
Proof.
  induction d as [|[k' v'] d IH]; simpl; [done|].
  intros Hk. apply not_elem_of_cons in Hk as [Hne Hk].
  destruct (str_eqb k' k) eqn:E.
  - apply str_eqb_true in E. congruence.
  - by rewrite IH.
Qed.

Lemma keys_app d1 d2 : Dict.keys (d1 ++ d2) = Dict.keys d1 ++ Dict.keys d2.
Proof. unfold Dict.keys. apply map_app. Qed.
End dict_facts.

Lemma json_wf_dict d :
  json_wf (JDict d) = true ->
  NoDup (Dict.keys d) /\ Forall (fun kv => json_wf (snd kv) = true) d.
Proof.
  simpl. intros H. apply andb_true_iff in H as [H1 H2].
  apply bool_decide_eq_true in H1. split; [done|].
  apply Forall_forall. intros kv Hkv.
  rewrite forallb_forall in H2. apply H2. by apply list_elem_of_In.
Qed.

Lemma json_wf_list l :
  json_wf (JList l) = true -> Forall (fun v => json_wf v = true) l.
Proof.
  simpl. intros H. apply Forall_forall. intros v Hv.
  rewrite forallb_forall in H. apply H. by apply list_elem_of_In.
Qed.

(** ** The validator *)

Lemma key_paths_leaf v parent :
  is_container v = false -> get_all_key_paths v parent = ∅.
Proof. by destruct v. Qed.

Lemma elem_of_guarded_paths v parent (p : str) :
  p ∈ (if is_container v then get_all_key_paths v parent else ∅)
  <-> p ∈ get_all_key_paths v parent.
Proof.
  destruct (is_container v) eqn:E; [done|]. by rewrite key_paths_leaf.
Qed.

Lemma elem_of_dict_paths_loop items parent (p : str) :
  p ∈ dict_paths_loop get_all_key_paths parent items
  <-> exists k v, (k, v) ∈ items
        /\ (p = child_path parent k
            \/ p ∈ get_all_key_paths v (child_path parent k)).
Proof.
  induction items as [|[k v] items IH]; simpl.
  - split; [set_solver|]. intros (k & v & H & _). by apply elem_of_nil in H.
  - rewrite !elem_of_union, elem_of_singleton, elem_of_guarded_paths, IH.
    split.
    + intros [[->| H]|(k' & v' & Hin & H)].
      * exists k, v. split; [left|by left].
      * exists k, v. split; [left|by right].
      * exists k', v'. split; [by right|done].
    + intros (k' & v' & Hin & H).
      apply elem_of_cons in Hin as [[= -> ->]|Hin].
      * left. destruct H; [by left|by right].
      * right. by exists k', v'.
Qed.

Lemma elem_of_list_paths_loop l parent i0 (p : str) :
  p ∈ list_paths_loop get_all_key_paths parent l i0
  <-> exists j v, l !! j = Some v
        /\ p ∈ get_all_key_paths v (index_path parent (i0 + j)).
Proof.
  revert i0. induction l as [|x l IH]; intros i0; simpl.
  - split; [set_solver|]. by intros (j & v & H & _).
  - rewrite elem_of_union, elem_of_guarded_paths, IH. split.
    + intros [H|(j & v & Hj & H)].
      * exists 0, x. by rewrite Nat.add_0_r.
      * exists (S j), v. split; [done|]. by rewrite Nat.add_succ_r.
    + intros ([|j] & v & Hj & H); simpl in Hj.
      * injection Hj as ->. left. by rewrite Nat.add_0_r in H.
      * right. exists j, v. split; [done|]. by rewrite Nat.add_succ_r in H.
Qed.

Lemma node_at_leaf ps v :
  is_container v = false -> ps <> [] -> node_at ps v = None.
Proof. destruct ps as [|[k|i] ps]; [done| |]; by destruct v. Qed.

(** The paths of [get_all_key_paths] are the renderings of the paths that
    end in a mapping key. *)
Lemma key_paths_spec t :
  forall parent (p : str), json_wf t = true ->
    p ∈ get_all_key_paths t parent
    <-> exists ps k, is_Some (node_at (ps ++ [Key k]) t)
          /\ p = render parent (ps ++ [Key k]).
Proof.
  induction t as [| | | |l IH|d IH] using json_ind; intros parent p Hwf;
    try (simpl; split; [set_solver|];
         intros (ps & k & [x Hx] & _); rewrite node_at_leaf in Hx;
         [done|done|by destruct ps]).
  - (* list *)
    apply json_wf_list in Hwf. simpl get_all_key_paths.
    rewrite elem_of_list_paths_loop. split.
    + intros (j & v & Hj & H).
      rewrite Forall_forall in IH, Hwf.
      apply list_elem_of_lookup_2 in Hj as Hin.
      apply (IH v Hin) in H as (ps & k & Hn & ->); [|by apply Hwf].
      exists (Idx j :: ps), k. simpl. by rewrite Hj.
    + intros (ps & k & [n Hn] & ->).
      destruct ps as [|[k0|j] ps]; simpl in Hn; [done|done|].
      destruct (l !! j) as [v|] eqn:Hj; [|done].
      exists j, v. split; [done|].
      rewrite Forall_forall in IH, Hwf.
      apply list_elem_of_lookup_2 in Hj as Hin.
      apply (IH v Hin); [by apply Hwf|]. exists ps, k. by split; [exists n|].
  - (* dict *)
    apply json_wf_dict in Hwf as [Hnd Hwf]. simpl get_all_key_paths.
    rewrite elem_of_dict_paths_loop.
    rewrite Forall_forall in IH, Hwf. split.
    + intros (k & v & Hin & [->|H]).
      * exists [], k. simpl. by rewrite (get_in_nodup d k v).
      * apply (IH _ Hin) in H as (ps & k' & Hn & ->); [|by apply (Hwf _ Hin)].
        exists (Key k :: ps), k'. simpl. by rewrite (get_in_nodup d k v).
    + intros (ps & k & [n Hn] & ->).
      destruct ps as [|[k0|j] ps]; simpl in Hn.
      * destruct (Dict.get d k) as [v|] eqn:Hg; [|done].
        exists k, v. split; [by apply get_some_in|by left].
      * destruct (Dict.get d k0) as [v|] eqn:Hg; [|done].
        apply get_some_in in Hg as Hin.
        exists k0, v. split; [done|]. right.
        apply (IH _ Hin); [by apply (Hwf _ Hin)|].
        exists ps, k. by split; [exists n|].
      * done.
Qed.

(** C6. Symmetry of the comparison: the paths reported missing in [B] by
    [compare_structures A B] are the paths reported extra by
    [compare_structures B A], namely the key paths of [A] that are not key
    paths of [B]. *)
Theorem compare_structures_symmetry (A B : json) :
  missing_in_en (compare_structures A B) = extra_in_en (compare_structures B A)
  /\ forall p : str,
       p ∈ missing_in_en (compare_structures A B)
       <-> p ∈ get_all_key_paths A [] /\ p ∉ get_all_key_paths B [].
Proof.
  split; [reflexivity|].
  intros p. unfold compare_structures. simpl. apply elem_of_difference.
Qed.

(** C7, as the code has it. For a tree whose dicts have unique keys, the
    set returned by [get_all_key_paths] holds exactly the dotted and
    bracketed renderings of the paths that end in a mapping key, containers
    and leaves alike; an element of a sequence has no path of its own and
    its index only shows inside the paths of the keys below it. *)
Theorem all_key_paths_are_mapping_keys (t : json) (p : str) :
  json_wf t = true ->
  p ∈ get_all_key_paths t []
  <-> exists ps k, is_Some (node_at (ps ++ [Key k]) t)
        /\ p = render [] (ps ++ [Key k]).
Proof. apply key_paths_spec. Qed.

Lemma all_key_paths_are_mapping_keys_witness :
  json_wf tree_with_sequence = true
  /\ (lit "a" ∈ get_all_key_paths tree_with_sequence []
      <-> exists ps k, is_Some (node_at (ps ++ [Key k]) tree_with_sequence)
            /\ lit "a" = render [] (ps ++ [Key k])).
Proof.
  split; [reflexivity|].
  apply (all_key_paths_are_mapping_keys tree_with_sequence (lit "a")).
  reflexivity.
Defined.

(** C7, as stated, fails: the first element of the sequence under ["a"] is a
    node of the tree, and its path ["a[0]"] is not returned. *)
Lemma sequence_element_has_no_key_path :
  node_at [Key (lit "a"); Idx 0] tree_with_sequence = Some (JStr (lit "x"))
  /\ render [] [Key (lit "a"); Idx 0] ∉ get_all_key_paths tree_with_sequence [].
Proof.
  split; [reflexivity|].
  apply (bool_decide_eq_false_1 _). vm_compute. reflexivity.
Qed.

(** C9. The status of the report is [synchronized] exactly when both the
    set of missing paths and the set of extra paths are empty, and
    [issues_detected] otherwise. *)
Theorem report_status_iff (fr_data en_data : json) :
  let c := compare_structures fr_data en_data in
  let r := make_report fr_data en_data in
  (status r = synchronized <-> missing_in_en c = ∅ /\ extra_in_en c = ∅)
  /\ (status r = issues_detected <-> ~ (missing_in_en c = ∅ /\ extra_in_en c = ∅))
  /\ (report_missing r = [] <-> missing_in_en c = ∅)
  /\ (report_extra r = [] <-> extra_in_en c = ∅).
Proof.
  intros c r. subst r. unfold make_report. fold c. simpl.
  unfold status_of, set_falsy.
  split; [|split; [|split]].
  - repeat case_bool_decide; simpl; split; try done; tauto.
  - repeat case_bool_decide; simpl; split; try done; tauto.
  - split.
    + intros H. by apply elements_empty_inv, leibniz_equiv in H.
    + intros ->. apply elements_empty.
  - split.
    + intros H. by apply elements_empty_inv, leibniz_equiv in H.
    + intros ->. apply elements_empty.
Qed.

(** *** Substrings *)

Lemma is_prefix_spec (p s : str) :
  is_prefix p s = true <-> exists r, s = p ++ r.
Proof.
  revert s. induction p as [|a p IH]; intros s; simpl.
  - split; [by exists s|done].
  - destruct s as [|b s].
    + split; [done|]. by intros [r Hr].
    + rewrite andb_true_iff, N.eqb_eq, IH. split.
      * intros [-> [r ->]]. by exists r.
      * intros [r [= -> ->]]. split; [done|by exists r].
Qed.

Lemma contains_spec (x s : str) :
  contains x s = true <-> exists l1 l2, s = l1 ++ x ++ l2.
Proof.
  induction s as [|c s IH].
  - simpl. rewrite orb_false_r, is_prefix_spec. split.
    + intros [r ->]. by exists [], r.
    + intros (l1 & l2 & H). destruct l1; [by exists l2|done].
  - cbn [contains]. rewrite orb_true_iff, IH, is_prefix_spec. split.
    + intros [[r ->]|(l1 & l2 & ->)].
      * by exists [], r.
      * by exists (c :: l1), l2.
    + intros ([|c' l1] & l2 & H).
      * left. by exists l2.
      * simplify_eq/=. right. by exists l1, l2.
Qed.

Lemma has_invariant_literal_spec (s : str) :
  has_invariant_literal s = true
  <-> exists x l1 l2, x ∈ invariant_literals /\ s = l1 ++ x ++ l2.
Proof.
  unfold has_invariant_literal. rewrite existsb_exists. split.
  - intros (x & Hx & H). apply contains_spec in H as (l1 & l2 & ->).
    exists x, l1, l2. split; [by apply list_elem_of_In|done].
  - intros (x & l1 & l2 & Hx & ->). exists x.
    split; [by apply list_elem_of_In|]. apply contains_spec. by exists l1, l2.
Qed.

(** *** The untranslated-leaf check *)

Lemma elem_of_verify_dict_loop rec en_items path items (m : str) :
  m ∈ verify_dict_loop rec en_items path items
  <-> exists k v v', (k, v) ∈ items /\ Dict.get en_items k = Some v'
        /\ m ∈ rec v v' (child_path path k).
Proof.
  induction items as [|[k v] items IH]; simpl.
  - split; [by intros ?%elem_of_nil|].
    intros (k & v & v' & H & _). by apply elem_of_nil in H.
  - rewrite elem_of_app, IH. split.
    + intros [H|(k' & v0 & v' & Hin & Hg & H)].
      * destruct (Dict.get en_items k) as [v'|] eqn:Hg;
          [|by apply elem_of_nil in H].
        exists k, v, v'. split; [left|done].
      * exists k', v0, v'. split; [by right|done].
    + intros (k' & v0 & v' & Hin & Hg & H).
      apply elem_of_cons in Hin as [[= -> ->]|Hin].
      * left. by rewrite Hg.
      * right. by exists k', v0, v'.
Qed.

Lemma verify_values_complete ks :
  forall A B path s,
    node_at (map Key ks) A = Some (JStr s) ->
    node_at (map Key ks) B = Some (JStr s) ->
    3 < length s -> has_invariant_literal s = false ->
    issue_line (render path (map Key ks)) s ∈ verify_values A B path.
Proof.
  induction ks as [|k ks IH]; intros A B path s HA HB Hlen Hlit; simpl in *.
  - simplify_eq. simpl. rewrite str_eqb_refl, Hlit.
    apply Nat.ltb_lt in Hlen. rewrite Hlen. simpl. left.
  - destruct A as [| | | | |d]; try done. destruct B as [| | | | |e]; try done.
    destruct (Dict.get d k) as [v|] eqn:Hd; [|done].
    destruct (Dict.get e k) as [v'|] eqn:He; [|done].
    simpl. apply elem_of_verify_dict_loop.
    exists k, v, v'. split; [by apply get_some_in|]. split; [done|]. by apply IH.
Qed.

Lemma verify_values_sound A :
  forall B path (m : str), json_wf A = true ->
    m ∈ verify_values A B path ->
    exists ks s,
      node_at (map Key ks) A = Some (JStr s)
      /\ node_at (map Key ks) B = Some (JStr s)
      /\ 3 < length s /\ has_invariant_literal s = false
      /\ m = issue_line (render path (map Key ks)) s.
Proof.
  induction A as [| | |s|l IH|d IH] using json_ind; intros B path m Hwf Hm;
    try (by destruct B; apply elem_of_nil in Hm).
  - destruct B as [| | |e| |]; try by apply elem_of_nil in Hm.
    simpl in Hm.
    destruct (str_eqb s e) eqn:Heq; [|by apply elem_of_nil in Hm].
    destruct (3 <? length s) eqn:Hlen; [|by apply elem_of_nil in Hm].
    destruct (has_invariant_literal s) eqn:Hlit; [by apply elem_of_nil in Hm|].
    simpl in Hm. apply list_elem_of_singleton in Hm as ->.
    apply str_eqb_true in Heq as <-. apply Nat.ltb_lt in Hlen.
    by exists [], s.
  - destruct B as [| | | | |e]; try by apply elem_of_nil in Hm.
    simpl in Hm. apply elem_of_verify_dict_loop in Hm
      as (k & v & v' & Hin & He & Hm).
    apply json_wf_dict in Hwf as [Hnd Hwf].
    rewrite Forall_forall in IH, Hwf.
    apply (IH _ Hin) in Hm as (ks & s & HA & HB & Hlen & Hlit & ->);
      [|by apply (Hwf _ Hin)].
    exists (k :: ks), s. simpl.
    by rewrite (get_in_nodup d k v), He.
Qed.

(** C8, as the code has it. In a walk through the mapping keys present in
    both trees, every pair of equal string leaves of more than 3 characters
    gets a warning unless the value contains one of the built-in literals as
    a substring; every warning is about such a pair, so a leaf that is not a
    string is never flagged. *)
Theorem verify_values_flags_untranslated (A B : json) :
  json_wf A = true ->
  (forall ks s,
      node_at (map Key ks) A = Some (JStr s) ->
      node_at (map Key ks) B = Some (JStr s) ->
      3 < length s ->
      (forall x l1 l2, x ∈ invariant_literals -> s <> l1 ++ x ++ l2) ->
      issue_line (render [] (map Key ks)) s ∈ verify_values A B [])
  /\ (forall m : str, m ∈ verify_values A B [] ->
      exists ps s,
        node_at ps A = Some (JStr s) /\ node_at ps B = Some (JStr s)
        /\ 3 < length s
        /\ (forall x l1 l2, x ∈ invariant_literals -> s <> l1 ++ x ++ l2)
        /\ m = issue_line (render [] ps) s).
Proof.
  intros Hwf. split.
  - intros ks s HA HB Hlen Hlit. apply verify_values_complete; try done.
    apply not_true_is_false. intros (x & l1 & l2 & Hx & ->)%has_invariant_literal_spec.
    by eapply Hlit.
  - intros m Hm.
    apply verify_values_sound in Hm as (ks & s & HA & HB & Hlen & Hlit & ->);
      [|done].
    exists (map Key ks), s. repeat (split; [done|]). split; [|done].
    intros x l1 l2 Hx ->.
    assert (has_invariant_literal (l1 ++ x ++ l2) = true) as Ht
      by (apply has_invariant_literal_spec; eauto).
    congruence.
Qed.

Lemma verify_values_flags_untranslated_witness :
  json_wf tree_bonjour = true
  /\ verify_values tree_bonjour tree_bonjour []
     = [issue_line (lit "msg") (lit "Bonjour")]
  /\ (forall m : str, m ∈ verify_values tree_bonjour tree_bonjour [] ->
      exists ps s,
        node_at ps tree_bonjour = Some (JStr s)
        /\ node_at ps tree_bonjour = Some (JStr s)
        /\ 3 < length s
        /\ (forall x l1 l2, x ∈ invariant_literals -> s <> l1 ++ x ++ l2)
        /\ m = issue_line (render [] ps) s).
Proof.
  split; [reflexivity|]. split; [reflexivity|].
  apply (verify_values_flags_untranslated tree_bonjour tree_bonjour).
  reflexivity.
Defined.

(** C8, as stated, fails: the leaf ["My Dashboard"] is equal in both trees,
    longer than 3 characters and not a member of the list of literals, and
    no warning is emitted for it. *)
Lemma substring_of_literal_suppresses_warning :
  node_at [Key (lit "m")] tree_dashboard = Some (JStr (lit "My Dashboard"))
  /\ 3 < length (lit "My Dashboard")
  /\ (lit "My Dashboard" ∉ invariant_literals)
  /\ verify_values tree_dashboard tree_dashboard [] = [].
Proof.
  split; [reflexivity|]. split; [vm_compute; lia|]. split; [|reflexivity].
  apply (bool_decide_eq_false_1 _). vm_compute. reflexivity.
Qed.

(** ** The merge engine *)

Lemma stats_le_refl a : stats_le a a.
Proof. unfold stats_le. lia. Qed.

Lemma stats_le_trans a b c : stats_le a b -> stats_le b c -> stats_le a c.
Proof. unfold stats_le. lia. Qed.

Lemma world_le_refl {P} (w : world P) : world_le w w.
Proof. split; [apply stats_le_refl|done]. Qed.

Lemma world_le_trans {P} (a b c : world P) :
  world_le a b -> world_le b c -> world_le a c.
Proof.
  intros [H1 H2] [H3 H4]. split; [by eapply stats_le_trans|by etrans].
Qed.

Section merge_facts.
Context {P : Type} (translate : P -> str -> P * option str).

Local Abbreviation sync := (sync_structure translate).
Local Abbreviation world := (world P).

(** *** Monotonicity *)


Lemma sync_leaf_mono s en pk (w : world) :
  world_le w (sync_leaf translate s en pk w).2.
Proof.
  unfold sync_leaf. destruct (reusable en).
  - split; simpl; [unfold stats_le; simpl; lia|done].
  - unfold translate_leaf. simpl.
    destruct (translate_text translate s (w_prov w) 3) as [[out p'] evs].
    split; simpl; [unfold stats_le; simpl; lia|by apply prefix_app_r].
Qed.

Lemma dict_loop_mono rec en pk items :
  Forall (fun kv => forall L pk (w : world), world_le w (rec kv.2 L pk w).2)
    items ->
  forall result w,
    world_le w (sync_dict_loop rec en pk items result w).2.
Proof.
  induction 1 as [|[k v] items Hv _ IH]; intros result w; simpl.
  - apply world_le_refl.
  - specialize (Hv (legacy_child en k) (pk ++ [k]) w). simpl in Hv.
    destruct (rec v _ _ w) as [o w1]. simpl in Hv.
    eapply world_le_trans; [exact Hv|apply IH].
Qed.

Lemma list_loop_mono rec en pk l :
  Forall (fun v => forall L pk (w : world), world_le w (rec v L pk w).2) l ->
  forall i result w,
    world_le w (sync_list_loop rec en pk l i result w).2.
Proof.
  induction 1 as [|v l Hv _ IH]; intros i result w; simpl.
  - apply world_le_refl.
  - specialize (Hv (legacy_item en i)
                  (pk ++ [lit "[" ++ str_of_nat i ++ lit "]"]) w).
    simpl in Hv. destruct (rec v _ _ w) as [o w1]. simpl in Hv.
    eapply world_le_trans; [exact Hv|apply IH].
Qed.

(** The counters never decrease and the log only grows. *)
Lemma sync_mono R : forall L pk (w : world), world_le w (sync R L pk w).2.
Proof.
  induction R as [| | |s|l IH|d IH] using json_ind; intros L pk w;
    try apply world_le_refl.
  - apply sync_leaf_mono.
  - simpl. pose proof (list_loop_mono sync L pk l IH 0 [] w) as H.
    by destruct (sync_list_loop _ _ _ _ _ _ _).
  - simpl. pose proof (dict_loop_mono sync L pk d IH [] w) as H.
    by destruct (sync_dict_loop _ _ _ _ _ _).
Qed.

Lemma sync_mono' R L pk (w : world) o w' :
  sync R L pk w = (o, w') -> world_le w w'.
Proof. intros H. pose proof (sync_mono R L pk w) as H'. by rewrite H in H'. Qed.

(** *** The loops as chains *)

Lemma dict_loop_chain en pk items :
  forall result (w : world),
    NoDup (Dict.keys items) ->
    (forall k, k ∈ Dict.keys items -> k ∉ Dict.keys result) ->
    exists outs w',
      sync_dict_loop sync en pk items result w = (result ++ outs, w')
      /\ dict_chain translate en pk items w outs w'.
Proof.
  induction items as [|[k v] items IH]; intros result w Hnd Hfresh; simpl.
  - exists [], w. rewrite app_nil_r. split; [done|constructor].
  - apply NoDup_cons in Hnd as [Hk Hnd].
    destruct (sync v (legacy_child en k) (pk ++ [k]) w) as [o w1] eqn:Hv.
    rewrite set_fresh by (apply Hfresh; left).
    destruct (IH (result ++ [(k, o)]) w1 Hnd) as (outs & w' & Hl & Hc).
    { intros k' Hk'. rewrite keys_app. simpl.
      rewrite elem_of_app, list_elem_of_singleton.
      intros [H| ->]; [|done]. revert H. apply Hfresh. by right. }
    exists ((k, o) :: outs), w'. rewrite Hl, <- app_assoc. split; [done|].
    by econstructor.
Qed.

Lemma list_loop_chain en pk l :
  forall i result (w : world),
    exists outs w',
      sync_list_loop sync en pk l i result w = (result ++ outs, w')
      /\ list_chain translate en pk i l w outs w'.
Proof.
  induction l as [|v l IH]; intros i result w; simpl.
  - exists [], w. rewrite app_nil_r. split; [done|constructor].
  - destruct (sync v (legacy_item en i) _ w) as [o w1] eqn:Hv.
    destruct (IH (S i) (result ++ [o]) w1) as (outs & w' & Hl & Hc).
    exists (o :: outs), w'. rewrite Hl, <- app_assoc. split; [done|].
    by econstructor.
Qed.

Lemma dict_chain_keys en pk items (w : world) outs w' :
  dict_chain translate en pk items w outs w' ->
  Dict.keys outs = Dict.keys items.
Proof. induction 1; simpl; congruence. Qed.

Lemma dict_chain_mono en pk items (w : world) outs w' :
  dict_chain translate en pk items w outs w' -> world_le w w'.
Proof.
  induction 1 as [|k v rest w o w1 outs w' Hv _ IH]; [apply world_le_refl|].
  eapply world_le_trans; [by eapply sync_mono'|done].
Qed.

Lemma list_chain_mono en pk i l (w : world) outs w' :
  list_chain translate en pk i l w outs w' -> world_le w w'.
Proof.
  induction 1 as [|i v rest w o w1 outs w' Hv _ IH]; [apply world_le_refl|].
  eapply world_le_trans; [by eapply sync_mono'|done].
Qed.

Lemma list_chain_length en pk i l (w : world) outs w' :
  list_chain translate en pk i l w outs w' -> length outs = length l.
Proof. induction 1; simpl; congruence. Qed.

(** What [sync_structure] returns for a dict and for a list. *)
Lemma sync_dict en pk d (w : world) :
  NoDup (Dict.keys d) ->
  exists outs w',
    sync (JDict d) en pk w = (JDict outs, w')
    /\ dict_chain translate en pk d w outs w'.
Proof.
  intros Hnd.
  destruct (dict_loop_chain en pk d [] w Hnd) as (outs & w' & Hl & Hc).
  { intros k _. apply not_elem_of_nil. }
  exists outs, w'. simpl. by rewrite Hl.
Qed.

Lemma sync_list en pk l (w : world) :
  exists outs w',
    sync (JList l) en pk w = (JList outs, w')
    /\ list_chain translate en pk 0 l w outs w'.
Proof.
  destruct (list_loop_chain en pk l 0 [] w) as (outs & w' & Hl & Hc).
  exists outs, w'. simpl. by rewrite Hl.
Qed.

End merge_facts.

(** *** Shapes *)

Lemma same_shape_kind a b : same_shape a b = true -> kind_of a = kind_of b.
Proof. destruct a, b; simpl; done. Qed.

Lemma same_shape_container a b :
  same_shape a b = true -> is_container a = is_container b.
Proof. destruct a, b; simpl; done. Qed.

Lemma same_shape_items_get da db k :
  same_shape_items same_shape da db = true ->
  match Dict.get da k, Dict.get db k with
  | Some va, Some vb => same_shape va vb = true
  | None, None => True
  | _, _ => False
  end.
Proof.
  revert db. induction da as [|[ka va] da IH]; intros [|[kb vb] db]; simpl;
    try done.
  rewrite !andb_true_iff. intros [[Hk Hv] Hr].
  apply str_eqb_true in Hk as <-.
  destruct (str_eqb ka k); [done|by apply IH].
Qed.

Lemma same_shape_elems_lookup la lb i :
  same_shape_elems same_shape la lb = true ->
  match la !! i, lb !! i with
  | Some va, Some vb => same_shape va vb = true
  | None, None => True
  | _, _ => False
  end.
Proof.
  revert lb i. induction la as [|va la IH]; intros [|vb lb] i; simpl;
    try done.
  rewrite andb_true_iff. intros [Hv Hr].
  destruct i as [|i]; simpl; [done|by apply IH].
Qed.

Lemma same_shape_items_keys da db :
  same_shape_items same_shape da db = true -> Dict.keys db = Dict.keys da.
Proof.
  revert db. induction da as [|[ka va] da IH]; intros [|[kb vb] db]; simpl;
    try done.
  rewrite !andb_true_iff. intros [[Hk Hv] Hr].
  apply str_eqb_true in Hk as <-. f_equal. by apply IH.
Qed.

Lemma same_shape_elems_length la lb :
  same_shape_elems same_shape la lb = true -> length lb = length la.
Proof.
  revert lb. induction la as [|va la IH]; intros [|vb lb]; simpl; try done.
  rewrite andb_true_iff. intros [Hv Hr]. f_equal. by apply IH.
Qed.

(** Same-shaped trees have the same paths, with nodes of the same kind. *)
Lemma same_shape_node_at ps :
  forall a b, same_shape a b = true ->
    kind_of <$> node_at ps b = kind_of <$> node_at ps a.
Proof.
  induction ps as [|[k|i] ps IH]; intros a b Hs.
  - simpl. f_equal. symmetry. by apply same_shape_kind.
  - destruct a as [| | | | |da], b as [| | | | |db]; try done.
    simpl in Hs. apply (same_shape_items_get _ _ k) in Hs. simpl.
    destruct (Dict.get da k), (Dict.get db k); try done. by apply IH.
  - destruct a as [| | | |la|], b as [| | | |lb|]; try done.
    simpl in Hs. apply (same_shape_elems_lookup _ _ i) in Hs. simpl.
    destruct (la !! i), (lb !! i); try done. by apply IH.
Qed.

(** Same-shaped trees have the same key paths. *)
Lemma same_shape_key_paths a :
  forall b parent, same_shape a b = true ->
    get_all_key_paths b parent = get_all_key_paths a parent.
Proof.
  induction a as [| | | |la IH|da IH] using json_ind; intros t parent Hs;
    try (by destruct t).
  - destruct t as [| | | |lb|]; try done. simpl in *.
    generalize 0. revert lb Hs.
    induction IH as [|va la Hva _ IHl]; intros [|vb lb] Hs i; simpl in *;
      try done.
    apply andb_true_iff in Hs as [Hv Hr].
    rewrite (same_shape_container _ _ Hv), (Hva _ _ Hv).
    f_equal. by apply IHl.
  - destruct t as [| | | | |db]; try done. simpl in *.
    revert db Hs.
    induction IH as [|[ka va] da Hva _ IHd]; intros [|[kb vb] db] Hs;
      simpl in *; try done.
    rewrite !andb_true_iff in Hs. destruct Hs as [[Hk Hv] Hr].
    apply str_eqb_true in Hk as <-.
    rewrite (same_shape_container _ _ Hv), (Hva _ _ Hv).
    f_equal. by apply IHd.
Qed.

Section merge_shape.
Context {P : Type} (translate : P -> str -> P * option str).

Local Abbreviation sync := (sync_structure translate).

Lemma sync_leaf_kind s en pk (w : world P) :
  kind_of (sync_leaf translate s en pk w).1 = Leaf.
Proof.
  unfold sync_leaf. destruct (reusable en) eqn:E.
  - by destruct en.
  - unfold translate_leaf.
    by destruct (translate_text translate s (w_prov _) 3) as [[out p'] evs].
Qed.

(** The output of the merge has the shape of the reference. *)
Lemma sync_shape R :
  forall L pk (w : world P), json_wf R = true ->
    same_shape R (sync R L pk w).1 = true.
Proof.
  induction R as [| | |s|l IH|d IH] using json_ind; intros L pk w Hwf;
    try done.
  - change (sync (JStr s) L pk w) with (sync_leaf translate s L pk w).
    pose proof (sync_leaf_kind s L pk w) as H.
    by destruct (sync_leaf translate s L pk w).1.
  - destruct (sync_list translate L pk l w) as (outs & w' & -> & Hc).
    apply json_wf_list in Hwf. simpl. revert IH Hwf.
    induction Hc as [|i v rest w o w1 outs w' Hv _ IHc]; intros IH Hwf;
      [done|].
    apply Forall_cons in IH as [IHv IH].
    apply Forall_cons in Hwf as [Hwv Hwf]. simpl.
    specialize (IHv (legacy_item L i)
                  (pk ++ [lit "[" ++ str_of_nat i ++ lit "]"]) w Hwv).
    rewrite Hv in IHv. simpl in IHv. rewrite IHv. by apply IHc.
  - apply json_wf_dict in Hwf as [Hnd Hwf].
    destruct (sync_dict translate L pk d w Hnd) as (outs & w' & -> & Hc).
    simpl. clear Hnd. revert IH Hwf.
    induction Hc as [|k v rest w o w1 outs w' Hv _ IHc]; intros IH Hwf;
      [done|].
    apply Forall_cons in IH as [IHv IH].
    apply Forall_cons in Hwf as [Hwv Hwf]. simpl in *.
    specialize (IHv (legacy_child L k) (pk ++ [k]) w Hwv).
    rewrite Hv in IHv. simpl in IHv. rewrite IHv, str_eqb_refl. by apply IHc.
Qed.
End merge_shape.

Lemma same_shape_at ps :
  forall a b, same_shape a b = true ->
    match node_at ps a, node_at ps b with
    | Some x, Some y => same_shape x y = true
    | None, None => True
    | _, _ => False
    end.
Proof.
  induction ps as [|[k|i] ps IH]; intros a b Hs.
  - done.
  - destruct a as [| | | | |da], b as [| | | | |db]; try done.
    simpl in Hs. apply (same_shape_items_get _ _ k) in Hs. simpl.
    destruct (Dict.get da k), (Dict.get db k); try done. by apply IH.
  - destruct a as [| | | |la|], b as [| | | |lb|]; try done.
    simpl in Hs. apply (same_shape_elems_lookup _ _ i) in Hs. simpl.
    destruct (la !! i), (lb !! i); try done. by apply IH.
Qed.

(** C1. Structure preservation. For a reference tree [R] (whose dicts have
    unique keys), any legacy tree [L] and any provider, the output [O] of the
    merge has the shape of [R]: every path of [R] is a path of [O] with a
    node of the same kind and [O] has no other path, every mapping of [O]
    has the keys of the mapping of [R] at the same path in the same order,
    every sequence of [O] has the length of the one of [R], and the two
    trees have the same set of key paths. *)
Theorem merge_preserves_structure {P : Type}
    (translate : P -> str -> P * option str) (R L : json) (p : P) :
  json_wf R = true ->
  let O := (merge translate R L p).1 in
  (forall ps, kind_of <$> node_at ps O = kind_of <$> node_at ps R)
  /\ (forall ps d, node_at ps R = Some (JDict d) ->
        exists d', node_at ps O = Some (JDict d') /\ Dict.keys d' = Dict.keys d)
  /\ (forall ps l, node_at ps R = Some (JList l) ->
        exists l', node_at ps O = Some (JList l') /\ length l' = length l)
  /\ get_all_key_paths O [] = get_all_key_paths R []
  /\ same_shape R O = true.
Proof.
  intros Hwf O.
  assert (Hs : same_shape R O = true) by (by apply sync_shape).
  split; [|split; [|split; [|split]]]; try done.
  - intros ps. by apply same_shape_node_at.
  - intros ps d Hd. pose proof (same_shape_at ps _ _ Hs) as H.
    rewrite Hd in H. destruct (node_at ps O) as [[| | | | |d']|]; try done.
    exists d'. split; [done|]. by apply same_shape_items_keys.
  - intros ps l Hl. pose proof (same_shape_at ps _ _ Hs) as H.
    rewrite Hl in H. destruct (node_at ps O) as [[| | | |l'|]|]; try done.
    exists l'. split; [done|]. by apply same_shape_elems_length.
  - by apply same_shape_key_paths.
Qed.

Lemma merge_preserves_structure_witness :
  json_wf reference_tree = true
  /\ let O := (merge failing_provider reference_tree legacy_tree 0).1 in
     (forall ps, kind_of <$> node_at ps O = kind_of <$> node_at ps reference_tree)
     /\ (forall ps d, node_at ps reference_tree = Some (JDict d) ->
           exists d', node_at ps O = Some (JDict d')
                      /\ Dict.keys d' = Dict.keys d)
     /\ (forall ps l, node_at ps reference_tree = Some (JList l) ->
           exists l', node_at ps O = Some (JList l') /\ length l' = length l)
     /\ get_all_key_paths O [] = get_all_key_paths reference_tree []
     /\ same_shape reference_tree O = true.
Proof.
  split; [reflexivity|].
  apply (merge_preserves_structure failing_provider reference_tree legacy_tree 0).
  reflexivity.
Defined.

(** *** Paths and their keys *)

Lemma lit_inj a b : lit a = lit b -> a = b.
Proof.
  unfold lit. intros H.
  assert (Hm : forall x y : list ascii,
             map N_of_ascii x = map N_of_ascii y -> x = y).
  { induction x as [|c x IH]; intros [|c' y] Hxy; simplify_eq/=; try done.
    f_equal; [|by apply IH].
    rewrite <- (ascii_N_embedding c), <- (ascii_N_embedding c'). congruence. }
  apply Hm in H.
  rewrite <- (string_of_list_ascii_of_string a),
    <- (string_of_list_ascii_of_string b). congruence.
Qed.

Lemma str_of_nat_inj i j : str_of_nat i = str_of_nat j -> i = j.
Proof. unfold str_of_nat. intros H%lit_inj. by apply (inj pretty). Qed.


(** Two paths of one tree with the same keys are the same path. *)
Lemma seg_keys_inj ps :
  forall R ps', is_Some (node_at ps R) -> is_Some (node_at ps' R) ->
    map seg_key ps = map seg_key ps' -> ps = ps'.
Proof.
  induction ps as [|[k|i] ps IH]; intros R [|[k'|i'] ps'] H1 H2 Hk;
    try done; cbn [map seg_key] in Hk; injection Hk as Hh Ht;
    destruct R as [| | | |l|d]; simpl in H1, H2;
    try (by destruct H1); try (by destruct H2).
  - subst k'. destruct (Dict.get d k) as [v|]; [|by destruct H1].
    f_equal. by eapply IH.
  - apply app_inv_tail, str_of_nat_inj in Hh as <-.
    destruct (l !! i) as [v|]; [|by destruct H1].
    f_equal. by eapply IH.
Qed.

Lemma legacy_at_null ps : legacy_at ps JNull = JNull.
Proof. induction ps as [|[k|i] ps IH]; simpl; done. Qed.

(** The legacy counterpart of a path present in the legacy tree is the
    node at that path. *)
Lemma node_at_legacy ps :
  forall L v, node_at ps L = Some v -> legacy_at ps L = v.
Proof.
  induction ps as [|[k|i] ps IH]; intros L v H; simpl in *.
  - congruence.
  - destruct L as [| | | | |d]; try done. simpl.
    destruct (Dict.get d k) as [x|]; [|done]. by apply IH.
  - destruct L as [| | | |l|]; try done. simpl.
    destruct (l !! i) as [x|] eqn:Hi; [|done].
    apply lookup_lt_Some in Hi as Hlt. apply Nat.ltb_lt in Hlt as ->.
    apply IH. rewrite <- H. f_equal.
    by apply nth_lookup_Some with (d := JNull) in Hi as ->.
Qed.

Section merge_paths.
Context {P : Type} (translate : P -> str -> P * option str).

Local Abbreviation sync := (sync_structure translate).
Local Abbreviation world := (world P).

(** *** One leaf *)

Lemma calls_app evs1 evs2 : calls (evs1 ++ evs2) = calls evs1 + calls evs2.
Proof. unfold calls. by rewrite List.filter_app, length_app. Qed.

(** The retry loop calls the provider at most [remaining] times; when no
    call succeeds it calls it that many times, returns the text it was
    given and, unless [remaining] is zero, reports the failure. *)
Lemma translate_loop_spec text protected ph_map remaining :
  forall p res p' evs,
    translate_loop translate text protected ph_map remaining p
    = (res, p', evs) ->
    calls evs <= remaining
    /\ (Forall (fun e => is_success e = false) evs ->
        res = text /\ calls evs = remaining
        /\ (0 < remaining -> EvFail (take 40 text) ∈ evs)).
Proof.
  induction remaining as [|r IH]; intros p res p' evs H; simpl in H.
  - simplify_eq. split; [done|]. intros _. split; [done|]. split; [done|lia].
  - destruct (translate p protected) as [p1 [out|]].
    + simplify_eq. split; [unfold calls; simpl; lia|].
      intros Hf. apply Forall_cons in Hf as [Hf _]. done.
    + destruct r as [|r'].
      * simplify_eq. split; [done|]. intros _.
        split; [done|]. split; [done|]. intros _. right. left.
      * destruct (translate_loop translate text protected ph_map (S r') p1)
          as [[res1 p2] evs1] eqn:E.
        simplify_eq. apply IH in E as [Hc Hf].
        split; [unfold calls in *; simpl; lia|].
        intros Hall. apply Forall_cons in Hall as [_ Hall].
        apply Forall_cons in Hall as [_ Hall].
        destruct (Hf Hall) as (-> & Hn & Hfail).
        split; [done|]. split; [unfold calls in *; simpl; lia|].
        intros _. right. right. apply Hfail. lia.
Qed.

Lemma translate_text_blank s p retry :
  blank s = true -> translate_text translate s p retry = (s, p, []).
Proof. unfold translate_text, blank. by intros ->. Qed.

Lemma translate_text_spec s p retry res p' evs :
  translate_text translate s p retry = (res, p', evs) ->
  calls evs <= retry
  /\ (Forall (fun e => is_success e = false) evs ->
      res = s /\ (0 < calls evs -> calls evs = retry
                                 /\ EvFail (take 40 s) ∈ evs)).
Proof.
  unfold translate_text. destruct (negb (truthy (strip s))).
  - intros [= <- <- <-]. split; [unfold calls; simpl; lia|].
    intros _. split; [done|]. unfold calls. simpl. lia.
  - destruct (Guard.protect_placeholders s) as [protected ph_map].
    intros H. apply translate_loop_spec in H as [Hc Hf].
    split; [done|]. intros Hall. destruct (Hf Hall) as (-> & Hn & Hfail).
    split; [done|]. intros Hpos. split; [done|]. apply Hfail. lia.
Qed.

(** What the translate branch does for one leaf. *)
Lemma translate_leaf_spec s pk (w : world) o w2 :
  translate_leaf translate s pk w = (o, w2) ->
  exists out e,
    o = JStr out
    /\ w_log w2 = w_log w ++ [e] /\ lr_path e = pk
    /\ translated (w_stats w2) = translated (w_stats w) + 1
    /\ reused (w_stats w2) = reused (w_stats w)
    /\ total (w_stats w2) = total (w_stats w)
    /\ calls (lr_events e) <= 3
    /\ (Forall (fun ev => is_success ev = false) (lr_events e) ->
        out = s
        /\ (0 < calls (lr_events e) ->
            calls (lr_events e) = 3 /\ EvFail (take 40 s) ∈ lr_events e))
    /\ (blank s = true ->
        out = s /\ calls (lr_events e) = 0 /\ w_prov w2 = w_prov w).
Proof.
  unfold translate_leaf.
  destruct (translate_text translate s (w_prov w) 3) as [[out p'] evs] eqn:E.
  intros [= <- <-]. eexists out, _. simpl.
  split; [done|]. split; [done|]. split; [done|].
  split; [done|]. split; [done|]. split; [done|].
  cbn [lr_events lr_path].
  set (progress := if _ : bool then _ else _).
  assert (Hp : calls progress = 0
               /\ Forall (fun ev => is_success ev = false) progress)
    by (subst progress; destruct (_ && _); split; by repeat constructor).
  destruct Hp as [Hp0 Hps].
  rewrite !calls_app, Hp0. change (calls [EvSleep 300]) with 0.
  rewrite Nat.add_0_r, Nat.add_0_l.
  pose proof (translate_text_spec _ _ _ _ _ _ E) as [Hc Hf].
  split; [done|]. split.
  - intros Hall. apply Forall_app in Hall as [_ Hall].
    apply Forall_app in Hall as [Hall _].
    destruct (Hf Hall) as [-> Hfail]. split; [done|].
    intros Hpos. destruct (Hfail Hpos) as [Hn Hin]. split; [done|].
    apply elem_of_app. right. apply elem_of_app. by left.
  - intros Hb. rewrite translate_text_blank in E by done. by simplify_eq.
Qed.

(** The reuse branch. *)
Lemma sync_leaf_reuse s en pk (w : world) :
  reusable en = true ->
  sync_leaf translate s en pk w
  = (en, mkWorld (mkStats (translated (w_stats w)) (reused (w_stats w) + 1)
                    (total (w_stats w) + 1)) (w_prov w) (w_log w)).
Proof. unfold sync_leaf. by intros ->. Qed.

Lemma sync_leaf_translate s en pk (w : world) :
  reusable en = false ->
  sync_leaf translate s en pk w
  = translate_leaf translate s pk
      (mkWorld (mkStats (translated (w_stats w)) (reused (w_stats w))
                  (total (w_stats w) + 1)) (w_prov w) (w_log w)).
Proof. unfold sync_leaf. by intros ->. Qed.

(** *** The run at a path *)

Lemma dict_chain_get en pk items (w : world) outs w' k v :
  dict_chain translate en pk items w outs w' ->
  Dict.get items k = Some v ->
  exists wa o wb,
    sync v (legacy_child en k) (pk ++ [k]) wa = (o, wb)
    /\ Dict.get outs k = Some o /\ world_le w wa /\ world_le wb w'.
Proof.
  induction 1 as [|k0 v0 rest w o w1 outs w' Hv Hc IH]; simpl; [done|].
  destruct (str_eqb k0 k) eqn:E.
  - apply str_eqb_true in E as ->. intros [= ->].
    exists w, o, w1. split; [done|]. split; [done|].
    split; [apply world_le_refl|by eapply dict_chain_mono].
  - intros Hg. destruct (IH Hg) as (wa & o' & wb & H1 & H2 & H3 & H4).
    exists wa, o', wb. split; [done|]. split; [done|]. split; [|done].
    eapply world_le_trans; [by eapply sync_mono'|done].
Qed.

Lemma list_chain_lookup en pk i l (w : world) outs w' j v :
  list_chain translate en pk i l w outs w' ->
  l !! j = Some v ->
  exists wa o wb,
    sync v (legacy_item en (i + j))
      (pk ++ [lit "[" ++ str_of_nat (i + j) ++ lit "]"]) wa = (o, wb)
    /\ outs !! j = Some o /\ world_le w wa /\ world_le wb w'.
Proof.
  intros Hc. revert j.
  induction Hc as [|i v0 rest w o w1 outs w' Hv Hc IH]; intros j; [done|].
  destruct j as [|j]; simpl.
  - intros [= ->]. rewrite Nat.add_0_r.
    exists w, o, w1. split; [done|]. split; [done|].
    split; [apply world_le_refl|by eapply list_chain_mono].
  - intros Hl. destruct (IH _ Hl) as (wa & o' & wb & H1 & H2 & H3 & H4).
    rewrite Nat.add_succ_r. simpl in H1.
    exists wa, o', wb. split; [done|]. split; [done|]. split; [|done].
    eapply world_le_trans; [by eapply sync_mono'|done].
Qed.

(** The visit of the node at a path of the reference is a run of
    [sync_structure] on that node and its legacy counterpart, between the
    start and the end of the whole run, and its result is the node of
    the output at that path. *)
Lemma sync_at ps :
  forall R L pk (w : world) O w' r,
    json_wf R = true ->
    sync R L pk w = (O, w') ->
    node_at ps R = Some r ->
    exists w1 o w2,
      sync r (legacy_at ps L) (pk ++ map seg_key ps) w1 = (o, w2)
      /\ node_at ps O = Some o /\ world_le w w1 /\ world_le w2 w'.
Proof.
  induction ps as [|[k|i] ps IH]; intros R L pk w O w' r Hwf Hs Hr.
  - simpl in *. simplify_eq. rewrite app_nil_r.
    exists w, O, w'. split; [done|]. split; [done|].
    split; apply world_le_refl.
  - destruct R as [| | | | |d]; try done. simpl in Hr.
    destruct (Dict.get d k) as [v|] eqn:Hg; [|done].
    apply json_wf_dict in Hwf as [Hnd Hwf].
    destruct (sync_dict translate L pk d w Hnd) as (outs & w'' & Hs' & Hc).
    rewrite Hs in Hs'. simplify_eq.
    destruct (dict_chain_get _ _ _ _ _ _ _ _ Hc Hg)
      as (wa & o & wb & Hv & Ho & Hle1 & Hle2).
    rewrite Forall_forall in Hwf.
    destruct (IH v (legacy_child L k) (pk ++ [k]) wa o wb r)
      as (w1 & o' & w2 & H1 & H2 & H3 & H4); try done.
    { apply (Hwf (k, v)). by apply get_some_in. }
    exists w1, o', w2. cbn [map seg_key legacy_at node_at].
    rewrite Ho. rewrite <- app_assoc in H1. split; [done|]. split; [done|].
    split; by eapply world_le_trans.
  - destruct R as [| | | |l|]; try done. simpl in Hr.
    destruct (l !! i) as [v|] eqn:Hg; [|done].
    apply json_wf_list in Hwf.
    destruct (sync_list translate L pk l w) as (outs & w'' & Hs' & Hc).
    rewrite Hs in Hs'. simplify_eq.
    destruct (list_chain_lookup _ _ _ _ _ _ _ _ _ Hc Hg)
      as (wa & o & wb & Hv & Ho & Hle1 & Hle2).
    rewrite Forall_forall in Hwf. simpl in Hv.
    destruct (IH v (legacy_item L i)
                (pk ++ [lit "[" ++ str_of_nat i ++ lit "]"]) wa o wb r)
      as (w1 & o' & w2 & H1 & H2 & H3 & H4); try done.
    { apply Hwf. by eapply list_elem_of_lookup_2. }
    exists w1, o', w2. cbn [map seg_key legacy_at node_at].
    rewrite Ho. rewrite <- app_assoc in H1. split; [done|]. split; [done|].
    split; by eapply world_le_trans.
Qed.

End merge_paths.

Section merge_log.
Context {P : Type} (translate : P -> str -> P * option str).

Local Abbreviation sync := (sync_structure translate).
Local Abbreviation world := (world P).
Local Abbreviation origin := (leaf_origin translate).

Lemma origin_in_dict d outs L pk k v o e :
  Dict.get d k = Some v -> Dict.get outs k = Some o ->
  origin v (legacy_child L k) o (pk ++ [k]) e ->
  origin (JDict d) L (JDict outs) pk e.
Proof.
  intros Hd Ho (ps & s & w1 & o' & w2 & H1 & H2 & H3 & H4 & H5).
  exists (Key k :: ps), s, w1, o', w2. cbn [node_at legacy_at map seg_key].
  rewrite Hd, Ho. rewrite <- app_assoc in H3. done.
Qed.

Lemma origin_in_list l outs L pk j v o e :
  l !! j = Some v -> outs !! j = Some o ->
  origin v (legacy_item L j)
    o (pk ++ [lit "[" ++ str_of_nat j ++ lit "]"]) e ->
  origin (JList l) L (JList outs) pk e.
Proof.
  intros Hd Ho (ps & s & w1 & o' & w2 & H1 & H2 & H3 & H4 & H5).
  exists (Idx j :: ps), s, w1, o', w2. cbn [node_at legacy_at map seg_key].
  rewrite Hd, Ho. rewrite <- app_assoc in H3. done.
Qed.

Lemma dict_chain_origin en pk items (w : world) outs w' e :
  dict_chain translate en pk items w outs w' ->
  NoDup (Dict.keys items) ->
  Forall (fun kv => json_wf kv.2 = true) items ->
  Forall (fun kv => forall L pk (w : world) O w' e,
              json_wf kv.2 = true -> sync kv.2 L pk w = (O, w') ->
              e ∈ w_log w' -> e ∈ w_log w \/ origin kv.2 L O pk e) items ->
  e ∈ w_log w' ->
  e ∈ w_log w
  \/ exists k v o, Dict.get items k = Some v /\ Dict.get outs k = Some o
       /\ origin v (legacy_child en k) o (pk ++ [k]) e.
Proof.
  induction 1 as [|k v rest w o w1 outs w' Hv Hc IH];
    intros Hnd Hwf HQ He; [by left|].
  apply NoDup_cons in Hnd as [Hk Hnd].
  apply Forall_cons in Hwf as [Hwv Hwf].
  apply Forall_cons in HQ as [HQv HQ].
  destruct (IH Hnd Hwf HQ He) as [He1|(k' & v' & o' & Hg & Hg' & Ho)].
  - destruct (HQv _ _ _ _ _ _ Hwv Hv He1) as [?|Ho]; [by left|].
    right. exists k, v, o. simpl. by rewrite str_eqb_refl.
  - right. exists k', v', o'. simpl.
    destruct (str_eqb k k') eqn:E; [|done].
    apply str_eqb_true in E as <-. exfalso. apply Hk.
    apply get_some_in in Hg. apply list_elem_of_fmap. by exists (k, v').
Qed.

Lemma list_chain_origin en pk i l (w : world) outs w' e :
  list_chain translate en pk i l w outs w' ->
  Forall (fun v => json_wf v = true) l ->
  Forall (fun v => forall L pk (w : world) O w' e,
              json_wf v = true -> sync v L pk w = (O, w') ->
              e ∈ w_log w' -> e ∈ w_log w \/ origin v L O pk e) l ->
  e ∈ w_log w' ->
  e ∈ w_log w
  \/ exists j v o, l !! j = Some v /\ outs !! j = Some o
       /\ origin v (legacy_item en (i + j)) o
            (pk ++ [lit "[" ++ str_of_nat (i + j) ++ lit "]"]) e.
Proof.
  induction 1 as [|i v rest w o w1 outs w' Hv Hc IH];
    intros Hwf HQ He; [by left|].
  apply Forall_cons in Hwf as [Hwv Hwf].
  apply Forall_cons in HQ as [HQv HQ].
  destruct (IH Hwf HQ He) as [He1|(j & v' & o' & Hg & Hg' & Ho)].
  - destruct (HQv _ _ _ _ _ _ Hwv Hv He1) as [?|Ho]; [by left|].
    right. exists 0, v, o. by rewrite Nat.add_0_r.
  - right. exists (S j), v', o'. by rewrite Nat.add_succ_r.
Qed.

(** Every log entry written during a run comes from the translate branch
    of a string leaf of the reference. *)
Lemma log_origin R :
  forall L pk (w : world) O w' e,
    json_wf R = true -> sync R L pk w = (O, w') ->
    e ∈ w_log w' -> e ∈ w_log w \/ origin R L O pk e.
Proof.
  induction R as [| | |s|l IH|d IH] using json_ind;
    intros L pk w O w' e Hwf Hs He;
    try (simpl in Hs; simplify_eq; by left).
  - change (sync (JStr s) L pk w) with (sync_leaf translate s L pk w) in Hs.
    destruct (reusable L) eqn:Hr.
    + rewrite sync_leaf_reuse in Hs by done. simplify_eq. by left.
    + rewrite sync_leaf_translate in Hs by done.
      destruct (translate_leaf_spec translate _ _ _ _ _ Hs)
        as (out & e0 & -> & Hlog & _).
      rewrite Hlog in He. simpl in He.
      apply elem_of_app in He as [He|He]; [by left|].
      apply list_elem_of_singleton in He as ->. right.
      eexists [], s, _, (JStr out), w'. rewrite app_nil_r.
      split; [done|]. split; [done|]. split; [exact Hs|]. by split.
  - apply json_wf_list in Hwf.
    destruct (sync_list translate L pk l w) as (outs & w'' & Hs' & Hc).
    rewrite Hs in Hs'. simplify_eq.
    destruct (list_chain_origin _ _ _ _ _ _ _ e Hc Hwf IH He)
      as [?|(j & v & o & Hl & Ho & Hor)]; [by left|].
    right. by eapply origin_in_list.
  - apply json_wf_dict in Hwf as [Hnd Hwf].
    destruct (sync_dict translate L pk d w Hnd) as (outs & w'' & Hs' & Hc).
    rewrite Hs in Hs'. simplify_eq.
    destruct (dict_chain_origin _ _ _ _ _ _ e Hc Hnd Hwf IH He)
      as [?|(k & v & o & Hl & Ho & Hor)]; [by left|].
    right. by eapply origin_in_dict.
Qed.

(** *** Counters *)

Lemma dict_loop_stats rec en pk items :
  Forall (fun kv => forall L pk (w : world),
              let w' := (rec kv.2 L pk w).2 in
              total (w_stats w') = total (w_stats w) + count_strings kv.2
              /\ translated (w_stats w') + reused (w_stats w')
                 = translated (w_stats w) + reused (w_stats w)
                   + count_strings kv.2) items ->
  forall result (w : world),
    let w' := (sync_dict_loop rec en pk items result w).2 in
    total (w_stats w')
    = total (w_stats w) + list_sum (map (fun kv => count_strings kv.2) items)
    /\ translated (w_stats w') + reused (w_stats w')
       = translated (w_stats w) + reused (w_stats w)
         + list_sum (map (fun kv => count_strings kv.2) items).
Proof.
  induction 1 as [|[k v] items Hv _ IH]; intros result w; simpl.
  - lia.
  - specialize (Hv (legacy_child en k) (pk ++ [k]) w). simpl in Hv.
    destruct (rec v _ _ w) as [o w1]. simpl in Hv.
    specialize (IH (Dict.set result k o) w1). simpl in IH. lia.
Qed.

Lemma list_loop_stats rec en pk l :
  Forall (fun v => forall L pk (w : world),
              let w' := (rec v L pk w).2 in
              total (w_stats w') = total (w_stats w) + count_strings v
              /\ translated (w_stats w') + reused (w_stats w')
                 = translated (w_stats w) + reused (w_stats w)
                   + count_strings v) l ->
  forall i result (w : world),
    let w' := (sync_list_loop rec en pk l i result w).2 in
    total (w_stats w')
    = total (w_stats w) + list_sum (map count_strings l)
    /\ translated (w_stats w') + reused (w_stats w')
       = translated (w_stats w) + reused (w_stats w)
         + list_sum (map count_strings l).
Proof.
  induction 1 as [|v l Hv _ IH]; intros i result w; simpl.
  - lia.
  - specialize (Hv (legacy_item en i)
                  (pk ++ [lit "[" ++ str_of_nat i ++ lit "]"]) w).
    simpl in Hv. destruct (rec v _ _ w) as [o w1]. simpl in Hv.
    specialize (IH (S i) (result ++ [o]) w1). simpl in IH. lia.
Qed.

(** Every string leaf of the reference is counted once in [total], and
    once in either [reused] or [translated]. *)
Lemma sync_stats R :
  forall L pk (w : world),
    let w' := (sync R L pk w).2 in
    total (w_stats w') = total (w_stats w) + count_strings R
    /\ translated (w_stats w') + reused (w_stats w')
       = translated (w_stats w) + reused (w_stats w) + count_strings R.
Proof.
  induction R as [| | |s|l IH|d IH] using json_ind; intros L pk w;
    try (simpl; lia).
  - change (sync (JStr s) L pk w) with (sync_leaf translate s L pk w).
    destruct (reusable L) eqn:Hr.
    + rewrite sync_leaf_reuse by done. simpl. lia.
    + rewrite sync_leaf_translate by done.
      destruct (translate_leaf translate s pk _) as [o w2] eqn:E.
      apply translate_leaf_spec in E
        as (out & e0 & _ & _ & _ & H1 & H2 & H3 & _).
      simpl in *. lia.
  - pose proof (list_loop_stats sync L pk l IH 0 [] w) as H. simpl in *.
    by destruct (sync_list_loop _ _ _ _ _ _ _).
  - pose proof (dict_loop_stats sync L pk d IH [] w) as H. simpl in *.
    by destruct (sync_dict_loop _ _ _ _ _ _).
Qed.

End merge_log.

Section merge_claims.
Context {P : Type} (translate : P -> str -> P * option str).

Local Abbreviation sync := (sync_structure translate).
Local Abbreviation world := (world P).

Lemma truthy_nonempty (s : str) : s <> [] -> truthy s = true.
Proof. by destruct s. Qed.

(** What is known of a log entry that comes from the translate branch. *)
Lemma origin_facts R L O pk e :
  leaf_origin translate R L O pk e ->
  exists ps s out,
    node_at ps R = Some (JStr s)
    /\ reusable (legacy_at ps L) = false
    /\ lr_path e = pk ++ map seg_key ps
    /\ node_at ps O = Some (JStr out)
    /\ calls (lr_events e) <= 3
    /\ (Forall (fun ev => is_success ev = false) (lr_events e) ->
        out = s
        /\ (0 < calls (lr_events e) ->
            calls (lr_events e) = 3 /\ EvFail (take 40 s) ∈ lr_events e))
    /\ (blank s = true -> out = s /\ calls (lr_events e) = 0).
Proof.
  intros (ps & s & w1 & o & w2 & HR & Hr & Ht & Hlog & HO).
  apply translate_leaf_spec in Ht
    as (out & e0 & -> & Hlog0 & Hp & _ & _ & _ & Hc & Hf & Hb).
  rewrite Hlog in Hlog0. apply app_inj_tail in Hlog0 as [_ ->].
  exists ps, s, out. repeat (split; [done|]). intros Hbl.
  by destruct (Hb Hbl) as (? & ? & _).
Qed.

Lemma merge_log_origin R L p e :
  json_wf R = true ->
  e ∈ w_log (merge translate R L p).2 ->
  leaf_origin translate R L (merge translate R L p).1 [] e.
Proof.
  intros Hwf He. unfold merge in *.
  destruct (sync R L [] _) as [O w'] eqn:Hs.
  destruct (log_origin translate R L [] _ O w' e Hwf Hs He) as [H|H];
    [by apply elem_of_nil in H|done].
Qed.

Lemma merge_at R L p ps r :
  json_wf R = true -> node_at ps R = Some r ->
  exists w1 o w2,
    sync r (legacy_at ps L) (map seg_key ps) w1 = (o, w2)
    /\ node_at ps (merge translate R L p).1 = Some o
    /\ world_le (mkWorld (mkStats 0 0 0) p []) w1
    /\ world_le w2 (merge translate R L p).2.
Proof.
  intros Hwf Hr. unfold merge.
  destruct (sync R L [] _) as [O w'] eqn:Hs.
  destruct (sync_at translate ps R L [] _ O w' r Hwf Hs Hr)
    as (w1 & o & w2 & H). simpl in H.
  by exists w1, o, w2.
Qed.

End merge_claims.

(** *** Self-merge *)

Lemma advance_zero {P} (w : world P) : advance w 0 0 [] = w.
Proof.
  destruct w as [[t r n] p log]. unfold advance. simpl.
  by rewrite !Nat.add_0_r, app_nil_r.
Qed.

Lemma advance_advance {P} (w : world P) a b l1 c d l2 :
  advance (advance w a b l1) c d l2 = advance w (a + c) (b + d) (l1 ++ l2).
Proof.
  unfold advance. simpl. rewrite app_assoc. do 2 f_equal; lia.
Qed.

Lemma count_strings_split R :
  count_strings R = count_blank R + count_filled R.
Proof.
  induction R as [| | |s|l IH|d IH] using json_ind; simpl; try done.
  - by destruct (blank s).
  - induction IH as [|v l Hv _ IHl]; simpl; lia.
  - induction IH as [|[k v] d Hv _ IHd]; simpl in *; lia.
Qed.

Section self_merge.
Context {P : Type} (translate : P -> str -> P * option str).

Local Abbreviation sync := (sync_structure translate).
Local Abbreviation world := (world P).

Lemma list_chain_self en pk i l (w : world) outs w' :
  list_chain translate en pk i l w outs w' ->
  (forall j v, l !! j = Some v -> legacy_item en (i + j) = v) ->
  Forall (fun v => json_wf v = true) l ->
  Forall (fun v => forall pk (w : world), json_wf v = true ->
            exists log,
              sync v v pk w
              = (v, advance w (count_blank v) (count_filled v) log)
              /\ Forall (fun e => calls (lr_events e) = 0) log) l ->
  exists log,
    outs = l
    /\ w' = advance w (list_sum (map count_blank l))
              (list_sum (map count_filled l)) log
    /\ Forall (fun e => calls (lr_events e) = 0) log.
Proof.
  induction 1 as [i w|i v rest w o w1 outs w' Hv Hc IH];
    intros Hleg Hwf HQ.
  - exists []. by rewrite advance_zero.
  - apply Forall_cons in Hwf as [Hwv Hwf].
    apply Forall_cons in HQ as [HQv HQ].
    pose proof (Hleg 0 v eq_refl) as H0. rewrite Nat.add_0_r in H0.
    rewrite H0 in Hv.
    destruct (HQv (pk ++ [lit "[" ++ str_of_nat i ++ lit "]"]) w Hwv)
      as (log1 & Hv' & Hn1).
    rewrite Hv' in Hv. injection Hv as <- <-.
    destruct IH as (log2 & -> & -> & Hn2); try done.
    { intros j x Hj. rewrite <- (Hleg (S j) x) by done. f_equal. lia. }
    exists (log1 ++ log2). split; [done|].
    split; [by rewrite advance_advance|by apply Forall_app].
Qed.

Lemma dict_chain_self en pk items (w : world) outs w' :
  dict_chain translate en pk items w outs w' ->
  (forall k v, (k, v) ∈ items -> legacy_child en k = v) ->
  Forall (fun kv => json_wf kv.2 = true) items ->
  Forall (fun kv => forall pk (w : world), json_wf kv.2 = true ->
            exists log,
              sync kv.2 kv.2 pk w
              = (kv.2, advance w (count_blank kv.2) (count_filled kv.2) log)
              /\ Forall (fun e => calls (lr_events e) = 0) log) items ->
  exists log,
    outs = items
    /\ w' = advance w (list_sum (map (fun kv => count_blank kv.2) items))
              (list_sum (map (fun kv => count_filled kv.2) items)) log
    /\ Forall (fun e => calls (lr_events e) = 0) log.
Proof.
  induction 1 as [w|k v rest w o w1 outs w' Hv Hc IH];
    intros Hleg Hwf HQ.
  - exists []. by rewrite advance_zero.
  - apply Forall_cons in Hwf as [Hwv Hwf].
    apply Forall_cons in HQ as [HQv HQ].
    rewrite (Hleg k v) in Hv by left.
    destruct (HQv (pk ++ [k]) w Hwv) as (log1 & Hv' & Hn1). simpl in Hv'.
    rewrite Hv' in Hv. injection Hv as <- <-.
    destruct IH as (log2 & -> & -> & Hn2); try done.
    { intros k' x Hin. apply Hleg. by right. }
    exists (log1 ++ log2). split; [done|].
    split; [by rewrite advance_advance|by apply Forall_app].
Qed.

(** Merging a tree with itself returns the tree, reuses its non-blank
    string leaves, counts its blank ones as translated and never calls
    the provider. *)
Lemma sync_self R :
  forall pk (w : world), json_wf R = true ->
    exists log,
      sync R R pk w = (R, advance w (count_blank R) (count_filled R) log)
      /\ Forall (fun e => calls (lr_events e) = 0) log.
Proof.
  induction R as [| | |s|l IH|d IH] using json_ind; intros pk w Hwf;
    try (exists []; by rewrite advance_zero).
  - change (sync (JStr s) (JStr s) pk w)
      with (sync_leaf translate s (JStr s) pk w).
    simpl count_blank. simpl count_filled.
    destruct (blank s) eqn:Hb.
    + rewrite sync_leaf_translate
        by (unfold blank in Hb; simpl; by destruct (truthy (strip s))).
      unfold translate_leaf. rewrite translate_text_blank by done.
      eexists [_]. split.
      { unfold advance. simpl. rewrite Nat.add_0_r. reflexivity. }
      constructor; [|done]. simpl.
      by destruct (_ && _).
    + rewrite sync_leaf_reuse
        by (unfold blank in Hb; simpl; by destruct (truthy (strip s))).
      exists []. split; [|done]. unfold advance. simpl.
      by rewrite app_nil_r, !Nat.add_0_r.
  - apply json_wf_list in Hwf.
    destruct (sync_list translate (JList l) pk l w)
      as (outs & w' & -> & Hc).
    destruct (list_chain_self _ _ _ _ _ _ _ Hc) as (log & -> & -> & Hn);
      try done; [|by exists log].
    intros j v Hj. simpl.
    apply lookup_lt_Some in Hj as Hlt. apply Nat.ltb_lt in Hlt as ->.
    by apply nth_lookup_Some with (d := JNull) in Hj.
  - apply json_wf_dict in Hwf as [Hnd Hwf].
    destruct (sync_dict translate (JDict d) pk d w Hnd)
      as (outs & w' & -> & Hc).
    destruct (dict_chain_self _ _ _ _ _ _ Hc) as (log & -> & -> & Hn);
      try done; [|by exists log].
    intros k v Hin. simpl. by rewrite (get_in_nodup d k v).
Qed.

(** C4, as the code has it. Merging a reference tree with itself returns
    the tree itself, so every leaf of the output is the leaf of the
    reference at the same path, and the provider is never called; the
    non-blank string leaves are counted as reused and the blank ones
    (empty or white space only) as translated, so that [reused] equals
    [total] when the tree has no blank string leaf. *)
Theorem self_merge_reuses_everything (R : json) (p : P) :
  json_wf R = true ->
  let O := (merge translate R R p).1 in
  let w' := (merge translate R R p).2 in
  O = R
  /\ (forall e, e ∈ w_log w' -> calls (lr_events e) = 0)
  /\ w_prov w' = p
  /\ total (w_stats w') = count_strings R
  /\ reused (w_stats w') = count_strings R - count_blank R
  /\ translated (w_stats w') = count_blank R
  /\ (count_blank R = 0 -> reused (w_stats w') = total (w_stats w')).
Proof.
  intros Hwf O w'. subst O w'. unfold merge.
  destruct (sync_self R [] (mkWorld (mkStats 0 0 0) p []) Hwf)
    as (log & -> & Hn).
  simpl. rewrite count_strings_split.
  split; [done|]. split; [by apply Forall_forall|].
  repeat split; lia.
Qed.

End self_merge.

Lemma self_merge_reuses_everything_witness :
  json_wf reference_tree = true
  /\ (merge failing_provider reference_tree reference_tree 0).1 = reference_tree.
Proof.
  split; [reflexivity|].
  apply (self_merge_reuses_everything failing_provider reference_tree 0).
  reflexivity.
Defined.

(** C4, as stated, fails: merging [{"a": ""}] with itself counts its one
    leaf in [total] and in [translated], and leaves [reused] at zero. *)
Lemma self_merge_blank_leaf_not_reused :
  json_wf tree_empty_leaf = true
  /\ w_stats (merge failing_provider tree_empty_leaf tree_empty_leaf 0).2
     = mkStats 1 0 1
  /\ reused (w_stats (merge failing_provider tree_empty_leaf tree_empty_leaf 0).2)
     <> total (w_stats (merge failing_provider tree_empty_leaf tree_empty_leaf 0).2).
Proof.
  split; [reflexivity|]. split; [reflexivity|]. vm_compute. discriminate.
Qed.

(** ** The placeholder guard *)

(** *** Prefixes and replacement *)

Lemma is_prefix_app (p s : str) : is_prefix p (p ++ s) = true.
Proof. apply is_prefix_spec. by exists s. Qed.

Lemma is_prefix_app_cases (q a b : str) :
  is_prefix q (a ++ b) = true ->
  (exists r, a = q ++ r) \/ (exists q', q = a ++ q' /\ is_prefix q' b = true).
Proof.
  revert a. induction q as [|c q IH]; intros a H.
  - left. by exists a.
  - destruct a as [|c' a].
    + right. by exists (c :: q).
    + simpl in H. apply andb_true_iff in H as [Hc H].
      apply N.eqb_eq in Hc as <-.
      destruct (IH _ H) as [[r ->]|(q' & -> & Hq')].
      * left. by exists r.
      * right. by exists q'.
Qed.

Lemma is_prefix_head_ne (h : N) (old' : str) (c : N) (s : str) :
  c <> h -> is_prefix (h :: old') (c :: s) = false.
Proof.
  intros Hne. simpl. apply andb_false_iff. left. apply N.eqb_neq. congruence.
Qed.

Lemma contains_app_r (x l s : str) :
  contains x s = true -> contains x (l ++ s) = true.
Proof.
  rewrite !contains_spec. intros (l1 & l2 & ->).
  exists (l ++ l1), l2. by rewrite <- app_assoc.
Qed.

Lemma contains_app_l (x s l : str) :
  contains x s = true -> contains x (s ++ l) = true.
Proof.
  rewrite !contains_spec. intros (l1 & l2 & ->).
  exists l1, (l2 ++ l). by rewrite <- !app_assoc.
Qed.

Lemma contains_prefix (x s : str) :
  is_prefix x s = true -> contains x s = true.
Proof.
  intros [r ->]%is_prefix_spec. apply contains_spec. by exists [], r.
Qed.

Lemma replace_go_skip (old new pre s : str) :
  replace_go old new (pre ++ s) (length pre) = replace_go old new s 0.
Proof. induction pre as [|c pre IH]; simpl; [by destruct s|done]. Qed.

Lemma replace_nil (old new : str) : old <> [] -> replace [] old new = [].
Proof. by destruct old. Qed.

Lemma replace_match (s old new : str) :
  old <> [] -> replace (old ++ s) old new = new ++ replace s old new.
Proof.
  destruct old as [|c old']; [done|]. intros _. unfold replace.
  change ((c :: old') ++ s) with (c :: (old' ++ s)).
  cbn [replace_go].
  change (c :: (old' ++ s)) with ((c :: old') ++ s).
  rewrite is_prefix_app. f_equal.
  replace (length (c :: old') - 1) with (length old') by (simpl; lia).
  apply replace_go_skip.
Qed.

Lemma replace_cons_nomatch (c : N) (s old new : str) :
  old <> [] -> is_prefix old (c :: s) = false ->
  replace (c :: s) old new = c :: replace s old new.
Proof.
  destruct old as [|h old']; [done|]. intros _ H. unfold replace.
  cbn [replace_go]. by rewrite H.
Qed.

Lemma replace_skip (pre s : str) (h : N) (old' new : str) :
  Forall (fun c => c <> h) pre ->
  replace (pre ++ s) (h :: old') new = pre ++ replace s (h :: old') new.
Proof.
  induction 1 as [|c pre Hc _ IH]; [done|]. simpl app.
  rewrite replace_cons_nomatch; [by rewrite IH|done|].
  by apply is_prefix_head_ne.
Qed.

(** *** Markers *)

Lemma marker_digit j :
  j < 10 -> Guard.marker j = Guard.marker_word ++ [N.of_nat (48 + j)].
Proof.
  intros Hj. do 10 (destruct j as [|j]; [reflexivity|]). lia.
Qed.

Lemma marker_inj i j : Guard.marker i = Guard.marker j -> i = j.
Proof. unfold Guard.marker. intros H%app_inv_head. by apply str_of_nat_inj. Qed.

Lemma marker_word_cons :
  Guard.marker_word = 80%N :: lit "LACEHOLDER".
Proof. reflexivity. Qed.

Lemma marker_word_tail_no_P : Forall (fun c => c <> 80%N) (lit "LACEHOLDER").
Proof. vm_compute. repeat constructor; discriminate. Qed.

Lemma marker_no_brace j (b : N) :
  j < 10 -> b = Guard.open_brace \/ b = Guard.close_brace ->
  Forall (fun c => c <> b) (Guard.marker j).
Proof.
  intros Hj Hb. rewrite marker_digit by done. apply Forall_app. split.
  - destruct Hb as [-> | ->]; vm_compute; repeat constructor; discriminate.
  - constructor; [|done].
    destruct Hb as [-> | ->]; unfold Guard.open_brace, Guard.close_brace; lia.
Qed.

Lemma marker_nonempty j : Guard.marker j <> [].
Proof. unfold Guard.marker. by rewrite marker_word_cons. Qed.

(** *** Item sequences *)

Lemma flat_app a b : flat (a ++ b) = flat a ++ flat b.
Proof. unfold flat. apply flat_map_app. Qed.

Lemma expand_app phs a b : expand phs (a ++ b) = expand phs a ++ expand phs b.
Proof. unfold expand. apply flat_map_app. Qed.

Lemma flat_chars (s : str) : flat (map Ch s) = s.
Proof. induction s as [|c s IH]; simpl; [done|by f_equal]. Qed.

Lemma expand_chars phs (s : str) : expand phs (map Ch s) = s.
Proof. induction s as [|c s IH]; simpl; [done|by f_equal]. Qed.

Lemma open_mark_app i ph a b :
  open_mark i ph (a ++ b) = open_mark i ph a ++ open_mark i ph b.
Proof. unfold open_mark. apply flat_map_app. Qed.

Lemma expand_open_mark phs i items :
  expand phs (open_mark i (nth i phs []) items) = expand phs items.
Proof.
  induction items as [|[c|j] items IH]; [done| |].
  - change (open_mark i (nth i phs []) (Ch c :: items))
      with (Ch c :: open_mark i (nth i phs []) items).
    change (expand phs (Ch c :: ?l)) with (c :: expand phs l). by f_equal.
  - change (open_mark i (nth i phs []) (Mk j :: items))
      with ((if j =? i then map Ch (nth i phs []) else [Mk j])
            ++ open_mark i (nth i phs []) items).
    rewrite expand_app, IH.
    change (expand phs (Mk j :: items)) with (nth j phs [] ++ expand phs items).
    f_equal. destruct (Nat.eqb_spec j i) as [->|Hne].
    + apply expand_chars.
    + simpl. apply app_nil_r.
Qed.

Lemma marks_in_chars lo hi (s : str) : marks_in lo hi (map Ch s).
Proof. unfold marks_in. apply Forall_forall. by intros it (c & -> & _)%list_elem_of_fmap. Qed.

Lemma marks_in_weaken lo hi lo' hi' items :
  lo' <= lo -> hi <= hi' -> marks_in lo hi items -> marks_in lo' hi' items.
Proof.
  intros H1 H2 H. eapply Forall_impl; [exact H|].
  intros [c|j]; simpl; [done|lia].
Qed.

Lemma marks_in_open_mark lo hi ph items :
  marks_in lo hi items -> marks_in (S lo) hi (open_mark lo ph items).
Proof.
  induction 1 as [|[c|j] items Hj _ IH]; [constructor| |].
  - by constructor.
  - change (open_mark lo ph (Mk j :: items))
      with ((if j =? lo then map Ch ph else [Mk j]) ++ open_mark lo ph items).
    apply Forall_app. split; [|done].
    destruct (Nat.eqb_spec j lo) as [->|Hne].
    + apply marks_in_chars.
    + constructor; [lia|constructor].
Qed.

Lemma marks_in_empty lo phs items :
  marks_in lo lo items -> flat items = expand phs items.
Proof.
  induction 1 as [|[c|j] items Hj _ IH]; [done| |].
  - simpl. by f_equal.
  - lia.
Qed.

(** A token found at the head of a guarded text lies in plain characters:
    it cannot start in, run into or span a marker. *)
Lemma token_prefix_chars (q : str) :
  forall items,
    q <> [] -> last q = Some Guard.close_brace ->
    contains Guard.marker_word q = false ->
    marks_in 0 10 items ->
    is_prefix q (flat items) = true ->
    exists rest, items = map Ch q ++ rest.
Proof.
  induction q as [|c q IH]; intros items Hne Hlast Hw Hm Hp; [done|].
  destruct items as [|[c'|j] rest].
  - done.
  - simpl in Hp. apply andb_true_iff in Hp as [Hc Hp].
    apply N.eqb_eq in Hc as <-. apply Forall_cons in Hm as [_ Hm].
    destruct q as [|c2 q]; [by exists rest|].
    destruct (IH rest) as [rest' ->]; try done.
    + destruct (contains Guard.marker_word (c2 :: q)) eqn:E; [|done].
      pose proof (contains_app_r _ [c] _ E) as E'. simpl app in E'.
      congruence.
    + by exists rest'.
  - exfalso. apply Forall_cons in Hm as [Hj _].
    change (flat (Mk j :: rest)) with (Guard.marker j ++ flat rest) in Hp.
    apply is_prefix_app_cases in Hp as [[r Hr]|(q' & Hq & _)].
    + apply last_Some in Hlast as [q0 Hq0]. rewrite Hq0 in Hr.
      pose proof (marker_no_brace j Guard.close_brace) as Hb.
      rewrite Hr in Hb. rewrite <- app_assoc in Hb.
      assert (Forall (fun c => c <> Guard.close_brace)
                (q0 ++ [Guard.close_brace] ++ r)) as Hf
        by (apply Hb; [lia|by right]).
      apply Forall_app in Hf as [_ Hf]. by apply Forall_cons in Hf as [? _].
    + rewrite Hq in Hw. unfold Guard.marker in Hw.
      rewrite <- app_assoc in Hw.
      by rewrite contains_prefix in Hw by apply is_prefix_app.
Qed.

(** One step of the loop of [protect_placeholders], on item sequences. *)
Lemma protect_step phs i (p' : str) :
  nth i phs [] = Guard.open_brace :: p' ->
  last (Guard.open_brace :: p') = Some Guard.close_brace ->
  contains Guard.marker_word (Guard.open_brace :: p') = false ->
  i < 10 ->
  forall n items,
    length items <= n -> marks_in 0 i items ->
    exists items',
      replace (flat items) (Guard.open_brace :: p') (Guard.marker i)
      = flat items'
      /\ expand phs items' = expand phs items
      /\ marks_in 0 (S i) items'.
Proof.
  intros Hnth Hlast Hw Hi. set (p := Guard.open_brace :: p') in *.
  induction n as [|n IH]; intros items Hlen Hm.
  - destruct items; [|simpl in Hlen; lia]. exists [].
    split; [by apply replace_nil|]. split; [done|constructor].
  - destruct items as [|[c|j] rest].
    + exists []. split; [by apply replace_nil|]. split; [done|constructor].
    + apply Forall_cons in Hm as [_ Hm]. simpl in Hlen.
      destruct (is_prefix p (flat (Ch c :: rest))) eqn:E.
      * destruct (token_prefix_chars p (Ch c :: rest)) as [rest' Hr];
          try done.
        { constructor; [done|]. eapply marks_in_weaken; [| |exact Hm]; lia. }
        rewrite Hr, flat_app, flat_chars, replace_match by done.
        assert (Hlen' : length rest' <= n).
        { apply (f_equal length) in Hr. rewrite length_app, length_map in Hr.
          simpl in Hr. lia. }
        assert (Hm' : marks_in 0 i rest').
        { assert (marks_in 0 i (Ch c :: rest)) as Hall by by constructor.
          rewrite Hr in Hall. by apply Forall_app in Hall as [_ ?]. }
        destruct (IH rest' Hlen' Hm') as (items' & H1 & H2 & H3).
        exists (Mk i :: items'). split; [|split].
        -- change (flat (Mk i :: items')) with (Guard.marker i ++ flat items').
           by rewrite H1.
        -- change (expand phs (Mk i :: items'))
             with (nth i phs [] ++ expand phs items').
           by rewrite H2, expand_app, expand_chars, Hnth.
        -- constructor; [lia|done].
      * change (flat (Ch c :: rest)) with (c :: flat rest) in *.
        rewrite replace_cons_nomatch by done.
        destruct (IH rest) as (items' & H1 & H2 & H3); [lia|done|].
        exists (Ch c :: items'). split; [|split].
        -- change (flat (Ch c :: items')) with (c :: flat items').
           by rewrite H1.
        -- change (expand phs (Ch c :: ?l)) with (c :: expand phs l).
           by rewrite H2.
        -- by constructor.
    + apply Forall_cons in Hm as [Hj Hm]. simpl in Hlen.
      change (flat (Mk j :: rest)) with (Guard.marker j ++ flat rest).
      unfold p. rewrite replace_skip
        by (apply marker_no_brace; [lia|by left]).
      destruct (IH rest) as (items' & H1 & H2 & H3); [lia|done|].
      exists (Mk j :: items'). split; [|split].
      * change (flat (Mk j :: items')) with (Guard.marker j ++ flat items').
        f_equal. exact H1.
      * change (expand phs (Mk j :: ?l)) with (nth j phs [] ++ expand phs l).
        by rewrite H2.
      * constructor; [lia|done].
Qed.

(** Plain characters that match the letters after the ['P'] of the marker
    word cannot come from a marker, which starts with ['P']. *)
Lemma word_suffix_chars (suf : str) (d : N) :
  forall items,
    Forall (fun c => c <> 80%N) suf ->
    marks_in 0 10 items ->
    is_prefix (suf ++ [d]) (flat items) = true ->
    exists rest, items = map Ch suf ++ rest.
Proof.
  induction suf as [|c suf IH]; intros items Hs Hm Hp; [by exists items|].
  apply Forall_cons in Hs as [Hc Hs].
  destruct items as [|[c'|j] rest].
  - done.
  - change (flat (Ch c' :: rest)) with (c' :: flat rest) in Hp.
    cbn [app is_prefix] in Hp. apply andb_true_iff in Hp as [Hcc Hp].
    apply N.eqb_eq in Hcc as <-. apply Forall_cons in Hm as [_ Hm].
    destruct (IH rest Hs Hm Hp) as [rest' ->]. by exists rest'.
  - exfalso. change (flat (Mk j :: rest)) with (Guard.marker j ++ flat rest) in Hp.
    unfold Guard.marker in Hp. rewrite marker_word_cons in Hp.
    cbn [app is_prefix] in Hp.
    apply andb_true_iff in Hp as [Hcc _]. by apply N.eqb_eq in Hcc.
Qed.

(** No marker starts at a plain character of a guarded text whose expansion
    does not contain the marker word. *)
Lemma marker_not_at_char phs i (c : N) rest :
  i < 10 -> marks_in 0 10 rest ->
  contains Guard.marker_word (expand phs (Ch c :: rest)) = false ->
  is_prefix (Guard.marker i) (flat (Ch c :: rest)) = false.
Proof.
  intros Hi Hm Hw. destruct (is_prefix _ _) eqn:E; [|done]. exfalso.
  rewrite marker_digit, marker_word_cons in E by done.
  change (flat (Ch c :: rest)) with (c :: flat rest) in E.
  cbn [app is_prefix] in E.
  apply andb_true_iff in E as [Hc E]. apply N.eqb_eq in Hc as <-.
  apply word_suffix_chars in E as [rest' ->];
    [|apply marker_word_tail_no_P|done].
  change (expand phs (Ch 80%N :: ?l)) with (80%N :: expand phs l) in Hw.
  rewrite expand_app, expand_chars in Hw.
  change (80%N :: lit "LACEHOLDER" ++ expand phs rest')
    with (Guard.marker_word ++ expand phs rest') in Hw.
  by rewrite contains_prefix in Hw by apply is_prefix_app.
Qed.

Lemma is_prefix_app_same (a x y : str) :
  is_prefix (a ++ x) (a ++ y) = is_prefix x y.
Proof. induction a as [|c a IH]; simpl; [done|]. by rewrite N.eqb_refl. Qed.

(** One step of the loop of [restore_placeholders], on item sequences. *)
Lemma restore_step phs i (p : str) :
  i < 10 ->
  forall items,
    marks_in i 10 items ->
    contains Guard.marker_word (expand phs items) = false ->
    replace (flat items) (Guard.marker i) p = flat (open_mark i p items).
Proof.
  intros Hi. induction items as [|[c|j] rest IH]; intros Hm Hw.
  - apply replace_nil, marker_nonempty.
  - apply Forall_cons in Hm as [_ Hm].
    assert (Hw' : contains Guard.marker_word (expand phs rest) = false).
    { destruct (contains _ (expand phs rest)) eqn:E; [|done].
      by rewrite <- Hw, <- (contains_app_r _ [c] _ E). }
    change (flat (Ch c :: rest)) with (c :: flat rest).
    rewrite replace_cons_nomatch; [|apply marker_nonempty|].
    + change (open_mark i p (Ch c :: rest)) with (Ch c :: open_mark i p rest).
      change (flat (Ch c :: ?l)) with (c :: flat l). by rewrite IH.
    + eapply (marker_not_at_char phs i c rest); try done.
      eapply marks_in_weaken; [| |exact Hm]; lia.
  - apply Forall_cons in Hm as [Hj Hm].
    assert (Hw' : contains Guard.marker_word (expand phs rest) = false).
    { destruct (contains _ (expand phs rest)) eqn:E; [|done].
      by rewrite <- Hw, <- (contains_app_r _ (nth j phs []) _ E). }
    change (flat (Mk j :: rest)) with (Guard.marker j ++ flat rest).
    change (open_mark i p (Mk j :: rest))
      with ((if j =? i then map Ch p else [Mk j]) ++ open_mark i p rest).
    rewrite flat_app. destruct (Nat.eqb_spec j i) as [->|Hne].
    + rewrite replace_match by apply marker_nonempty.
      by rewrite flat_chars, IH.
    + change (flat [Mk j]) with (Guard.marker j ++ []). rewrite app_nil_r.
      rewrite <- IH by done. clear IH.
      rewrite (marker_digit j), (marker_digit i) by lia.
      rewrite marker_word_cons.
      change ((80%N :: lit "LACEHOLDER") ++ [N.of_nat (48 + j)])
        with (80%N :: (lit "LACEHOLDER" ++ [N.of_nat (48 + j)])).
      change ((80%N :: lit "LACEHOLDER") ++ [N.of_nat (48 + i)])
        with (80%N :: (lit "LACEHOLDER" ++ [N.of_nat (48 + i)])).
      change ((80%N :: ?a) ++ ?b) with (80%N :: (a ++ b)).
      rewrite replace_cons_nomatch; [|done|].
      * f_equal. apply replace_skip. apply Forall_app. split.
        -- apply marker_word_tail_no_P.
        -- constructor; [lia|done].
      * cbn [is_prefix]. rewrite N.eqb_refl. cbn [andb].
        rewrite <- app_assoc, is_prefix_app_same.
        cbn [app is_prefix]. apply andb_false_iff. left.
        apply N.eqb_neq. lia.
Qed.

(** *** The two loops *)

Lemma marker_map_from_snoc k done p :
  marker_map_from k (done ++ [p])
  = marker_map_from k done ++ [(Guard.marker (k + length done), p)].
Proof.
  revert k. induction done as [|q done IH]; intros k; simpl.
  - by rewrite Nat.add_0_r.
  - by rewrite IH, Nat.add_succ_r.
Qed.

Lemma marker_map_from_keys k done (m : str) :
  m ∈ Dict.keys (marker_map_from k done) ->
  exists j, k <= j < k + length done /\ m = Guard.marker j.
Proof.
  revert k. induction done as [|q done IH]; intros k; simpl.
  - by intros ?%elem_of_nil.
  - intros [->|H]%elem_of_cons.
    + exists k. split; [lia|done].
    + apply IH in H as (j & Hj & ->). exists j. split; [lia|done].
Qed.

Lemma restore_loop phs :
  length phs <= 10 ->
  forall l done items,
    phs = done ++ l ->
    marks_in (length done) (length phs) items ->
    contains Guard.marker_word (expand phs items) = false ->
    Guard.restore_placeholders (flat items) (marker_map_from (length done) l)
    = expand phs items.
Proof.
  intros Hlen. induction l as [|p l IH]; intros done items Hphs Hm Hw.
  - rewrite app_nil_r in Hphs. subst done.
    change (flat items = expand phs items).
    eapply marks_in_empty. exact Hm.
  - assert (Hi : length done < 10).
    { rewrite Hphs, length_app in Hlen. simpl in Hlen. lia. }
    assert (Hnth : nth (length done) phs [] = p)
      by (rewrite Hphs; apply nth_middle).
    change (Guard.restore_placeholders (flat items)
              (marker_map_from (length done) (p :: l)))
      with (Guard.restore_placeholders
              (replace (flat items) (Guard.marker (length done)) p)
              (marker_map_from (S (length done)) l)).
    assert (Hm10 : marks_in (length done) 10 items)
      by (apply (marks_in_weaken _ _ _ _ _ (le_n _) Hlen Hm)).
    rewrite (restore_step phs (length done) p Hi items Hm10 Hw).
    replace (S (length done)) with (length (done ++ [p]))
      by (rewrite length_app; simpl; lia).
    rewrite <- Hnth at 2. rewrite <- (expand_open_mark phs (length done) items).
    rewrite Hnth. apply IH.
    + by rewrite <- app_assoc.
    + rewrite length_app. simpl. rewrite Nat.add_1_r.
      by apply marks_in_open_mark.
    + by rewrite <- Hnth, expand_open_mark.
Qed.

Lemma protect_loop_spec phs :
  length phs <= 10 ->
  (forall p, p ∈ phs ->
     exists p', p = Guard.open_brace :: p'
                /\ last p = Some Guard.close_brace
                /\ contains Guard.marker_word p = false) ->
  forall l done items,
    phs = done ++ l ->
    marks_in 0 (length done) items ->
    exists items',
      Guard.protect_loop l (length done) (flat items) (marker_map_from 0 done)
      = (flat items', marker_map_from 0 phs)
      /\ expand phs items' = expand phs items
      /\ marks_in 0 (length phs) items'.
Proof.
  intros Hlen Htok. induction l as [|p l IH]; intros done items Hphs Hm.
  - rewrite app_nil_r in Hphs. subst done. by exists items.
  - assert (Hi : length done < 10).
    { rewrite Hphs, length_app in Hlen. simpl in Hlen. lia. }
    assert (Hnth : nth (length done) phs [] = p)
      by (rewrite Hphs; apply nth_middle).
    destruct (Htok p) as (p' & -> & Hlast & Hw).
    { rewrite Hphs. set_solver. }
    destruct (protect_step phs (length done) p' Hnth Hlast Hw Hi
                (length items) items) as (items1 & H1 & H2 & H3); [done..|].
    cbn [Guard.protect_loop]. rewrite H1.
    rewrite set_fresh.
    2:{ intros (j & Hj & Hmj%marker_inj)%marker_map_from_keys. lia. }
    rewrite <- (marker_map_from_snoc 0 done).
    replace (S (length done)) with (length (done ++ [Guard.open_brace :: p']))
      by (rewrite length_app; simpl; lia).
    destruct (IH (done ++ [Guard.open_brace :: p']) items1)
      as (items' & H4 & H5 & H6).
    + by rewrite <- app_assoc.
    + rewrite length_app. simpl. by rewrite Nat.add_1_r.
    + exists items'. split; [done|]. split; [congruence|done].
Qed.

(** *** Tokens *)

Lemma until_close_spec (s b : str) :
  Guard.until_close s = Some b ->
  exists body,
    b = body ++ [Guard.close_brace]
    /\ Forall (fun c => c <> Guard.close_brace) body
    /\ is_prefix b s = true.
Proof.
  revert b. induction s as [|c s IH]; intros b; simpl; [done|].
  destruct (N.eqb_spec c Guard.close_brace) as [->|Hne].
  - intros [= <-]. exists []. split; [done|]. split; [done|].
    apply is_prefix_spec. by exists s.
  - destruct (Guard.until_close s) as [b'|]; [|done]. intros [= <-].
    destruct (IH b' eq_refl) as (body & -> & Hb & Hp).
    exists (c :: body). split; [done|]. split; [by constructor|].
    apply is_prefix_spec in Hp as [r ->]. apply is_prefix_spec. by exists r.
Qed.

(** A match of the pattern is an opening brace, one or more characters
    other than the closing brace, and a closing brace. *)
Lemma match_placeholder_spec (s ph : str) :
  Guard.match_placeholder s = Some ph ->
  exists body,
    ph = Guard.open_brace :: body ++ [Guard.close_brace]
    /\ body <> []
    /\ Forall (fun c => c <> Guard.close_brace) body
    /\ is_prefix ph s = true.
Proof.
  destruct s as [|c s]; simpl; [done|].
  destruct (N.eqb_spec c Guard.open_brace) as [->|Hne]; [|done].
  destruct (Guard.until_close s) as [b|] eqn:E; [|done].
  apply until_close_spec in E as (body & -> & Hb & Hp).
  destruct body as [|b1 body]; [done|].
  apply is_prefix_spec in Hp as [r Hr].
  assert (Hpre : is_prefix (Guard.open_brace
                            :: (b1 :: body) ++ [Guard.close_brace])
                   (Guard.open_brace :: s) = true)
    by (apply is_prefix_spec; exists r; by rewrite Hr).
  apply Forall_cons in Hb as [Hb1 Hb].
  destruct body as [|b2 body]; simpl; intros [= <-].
  - exists [b1]. split; [done|]. split; [done|]. split; [|done].
    by constructor.
  - exists (b1 :: b2 :: body). split; [done|]. split; [done|]. split; [|done].
    by constructor.
Qed.

Lemma findall_go_tokens (s : str) :
  forall skip (ph : str), ph ∈ Guard.findall_go s skip ->
    exists body,
      ph = Guard.open_brace :: body ++ [Guard.close_brace]
      /\ body <> []
      /\ Forall (fun c => c <> Guard.close_brace) body
      /\ contains ph s = true.
Proof.
  induction s as [|c s IH]; intros skip ph Hin.
  - by apply elem_of_nil in Hin.
  - assert (Hrest : forall k, ph ∈ Guard.findall_go s k ->
              exists body,
                ph = Guard.open_brace :: body ++ [Guard.close_brace]
                /\ body <> []
                /\ Forall (fun c => c <> Guard.close_brace) body
                /\ contains ph (c :: s) = true).
    { intros k Hk. destruct (IH k ph Hk) as (body & H1 & H2 & H3 & H4).
      exists body. repeat (split; [done|]).
      by apply (contains_app_r _ [c]). }
    cbn [Guard.findall_go] in Hin. destruct skip as [|k]; [|by eapply Hrest].
    destruct (Guard.match_placeholder (c :: s)) as [ph0|] eqn:E;
      [|by eapply Hrest].
    apply elem_of_cons in Hin as [->|Hin]; [|by eapply Hrest].
    apply match_placeholder_spec in E as (body & H1 & H2 & H3 & H4).
    exists body. repeat (split; [done|]). by apply contains_prefix.
Qed.

Lemma contains_trans (x p s : str) :
  contains x p = true -> contains p s = true -> contains x s = true.
Proof.
  rewrite !contains_spec. intros (a & b & ->) (l1 & l2 & ->).
  exists (l1 ++ a), (b ++ l2). by rewrite <- !app_assoc.
Qed.

(** With 11 tokens the marker of the second token is a prefix of the marker
    of the eleventh, and the round trip is lost. *)
Example eleven_tokens_break_round_trip :
  contains Guard.marker_word text_eleven_tokens = false
  /\ Guard.restore_placeholders (Guard.protect_placeholders text_eleven_tokens).1
       (Guard.protect_placeholders text_eleven_tokens).2
     = lit "{a}{b}{c}{d}{e}{f}{g}{h}{i}{j}{b}0".
Proof. split; reflexivity. Qed.

(** ** Scenarios of the specification *)

(** Scenario 1: one leaf reused, one translated. *)
Example scenario_reuse_and_translate :
  let R := JDict [(lit "title", JStr (lit "Bonjour"));
                  (lit "nav", JDict [(lit "home", JStr (lit "Accueil"))])] in
  (merge prefixing_provider R legacy_tree 0).1
  = JDict [(lit "title", JStr (lit "Hello"));
           (lit "nav", JDict [(lit "home", JStr (lit "EN:Accueil"))])]
  /\ w_stats (merge prefixing_provider R legacy_tree 0).2 = mkStats 1 1 2.
Proof. split; reflexivity. Qed.

(** Scenario 2: structural drift. *)
Example scenario_structural_drift :
  missing_in_en (compare_structures tree_abc tree_ab) = {[ lit "c" ]}
  /\ extra_in_en (compare_structures tree_abc tree_ab) = ∅
  /\ status (make_report tree_abc tree_ab) = issues_detected.
Proof.
  split; [|split].
  - apply (bool_decide_eq_true_1 _). vm_compute. reflexivity.
  - apply (bool_decide_eq_true_1 _). vm_compute. reflexivity.
  - reflexivity.
Qed.

(** * Further properties of the code *)

(** ** [get_nested_value] *)

Lemma get_nested_value_null ks : get_nested_value JNull ks = JNull.
Proof. by destruct ks. Qed.

(** X1. Looking up a concatenated key list is looking up the first part
    and then the second part in the result: a lookup that fails on the way
    yields [None], from which every further lookup yields [None]. *)
Theorem get_nested_value_app (data : json) (ks1 ks2 : list str) :
  get_nested_value data (ks1 ++ ks2)
  = get_nested_value (get_nested_value data ks1) ks2.
Proof.
  revert data. induction ks1 as [|k ks1 IH]; intros data; [done|].
  simpl. destruct data as [| | | | |d];
    try (by rewrite get_nested_value_null).
  destruct (Dict.get d k) as [v|]; [apply IH|].
  by rewrite get_nested_value_null.
Qed.

(** X2. [get_nested_value] returns the node at the key path when the path
    is present in the data, and [None] when a key is missing or a value on
    the way is not a dict. *)
Theorem get_nested_value_node_at (data : json) (ks : list str) :
  match node_at (map Key ks) data with
  | Some v => get_nested_value data ks = v
  | None => get_nested_value data ks = JNull
  end.
Proof.
  revert data. induction ks as [|k ks IH]; intros data; [done|].
  simpl. destruct data as [| | | | |d]; try done.
  destruct (Dict.get d k) as [v|]; [apply IH|done].
Qed.

(** ** Leaves of the merge *)

(** X3. Leaf provenance. In the output of a merge, a leaf that is a number,
    a boolean or null in the reference is that same value; a string leaf is
    the legacy value at the same path when that value is reusable, and
    otherwise a string returned by [translate_text] for the reference
    text. *)
Theorem merge_leaf_provenance {P : Type}
    (translate : P -> str -> P * option str) (R L : json) (p : P)
    (ps : list seg) (v : json) :
  json_wf R = true ->
  node_at ps R = Some v ->
  kind_of v = Leaf ->
  let O := (merge translate R L p).1 in
  match v with
  | JStr s =>
      if reusable (legacy_at ps L)
      then node_at ps O = Some (legacy_at ps L)
      else exists q, node_at ps O
                     = Some (JStr (translate_text translate s q 3).1.1)
  | _ => node_at ps O = Some v
  end.
Proof.
  intros Hwf Hv Hk O.
  destruct (merge_at translate R L p ps v Hwf Hv)
    as (w1 & o & w2 & Hs & HO & _ & _).
  fold O in HO.
  destruct v as [| | |s| |]; try done;
    try (simpl in Hs; by simplify_eq).
  change (sync_structure translate (JStr s) (legacy_at ps L) (map seg_key ps) w1)
    with (sync_leaf translate s (legacy_at ps L) (map seg_key ps) w1) in Hs.
  destruct (reusable (legacy_at ps L)) eqn:Hr.
  - rewrite sync_leaf_reuse in Hs by done. by simplify_eq.
  - rewrite sync_leaf_translate in Hs by done.
    unfold translate_leaf in Hs. cbn [w_prov] in Hs.
    exists (w_prov w1).
    destruct (translate_text translate s (w_prov w1) 3) as [[out q'] evs].
    by simplify_eq.
Qed.

Lemma merge_leaf_provenance_witness :
  json_wf reference_tree = true
  /\ node_at [Key (lit "tags"); Idx 1]
       (merge failing_provider reference_tree legacy_tree 0).1
     = Some (JNum 3).
Proof.
  split; [reflexivity|].
  apply (merge_leaf_provenance failing_provider reference_tree legacy_tree 0
           [Key (lit "tags"); Idx 1] (JNum 3));
    reflexivity.
Defined.

(** X4. Whatever the state it starts from, [sync_structure] never
    decreases a counter of [stats] and only appends to the log of the
    translate branch. *)
Theorem counters_never_decrease {P : Type}
    (translate : P -> str -> P * option str) (R L : json)
    (path_keys : list str) (w : world P) :
  let w' := (sync_structure translate R L path_keys w).2 in
  translated (w_stats w) <= translated (w_stats w')
  /\ reused (w_stats w) <= reused (w_stats w')
  /\ total (w_stats w) <= total (w_stats w')
  /\ exists new, w_log w' = w_log w ++ new.
Proof.
  intros w'. destruct (sync_mono translate R L path_keys w) as [(? & ? & ?) ?].
  done.
Qed.

(** ** The log of the translate branch *)

Lemma log_counts_refl {P} (w : world P) : log_counts w w.
Proof. exists []. by rewrite app_nil_r, Nat.add_0_r. Qed.

Lemma log_counts_trans {P} (a b c : world P) :
  log_counts a b -> log_counts b c -> log_counts a c.
Proof.
  intros (n1 & H1 & H2 & H3) (n2 & H4 & H5 & H6). exists (n1 ++ n2).
  rewrite H4, H1, H5, H2, length_app, app_assoc. split; [done|].
  split; [lia|]. intros [-> ->]%app_eq_nil. by rewrite H6, H3.
Qed.

Section merge_log_counts.
Context {P : Type} (translate : P -> str -> P * option str).

Local Abbreviation sync := (sync_structure translate).
Local Abbreviation world := (world P).

Lemma dict_loop_log_counts rec en pk items :
  Forall (fun kv => forall L pk (w : world), log_counts w (rec kv.2 L pk w).2)
    items ->
  forall result w,
    log_counts w (sync_dict_loop rec en pk items result w).2.
Proof.
  induction 1 as [|[k v] items Hv _ IH]; intros result w; simpl.
  - apply log_counts_refl.
  - specialize (Hv (legacy_child en k) (pk ++ [k]) w). simpl in Hv.
    destruct (rec v _ _ w) as [o w1]. simpl in Hv.
    eapply log_counts_trans; [exact Hv|apply IH].
Qed.

Lemma list_loop_log_counts rec en pk l :
  Forall (fun v => forall L pk (w : world), log_counts w (rec v L pk w).2) l ->
  forall i result w,
    log_counts w (sync_list_loop rec en pk l i result w).2.
Proof.
  induction 1 as [|v l Hv _ IH]; intros i result w; simpl.
  - apply log_counts_refl.
  - specialize (Hv (legacy_item en i)
                  (pk ++ [lit "[" ++ str_of_nat i ++ lit "]"]) w).
    simpl in Hv. destruct (rec v _ _ w) as [o w1]. simpl in Hv.
    eapply log_counts_trans; [exact Hv|apply IH].
Qed.

Lemma sync_log_counts R :
  forall L pk (w : world), log_counts w (sync R L pk w).2.
Proof.
  induction R as [| | |s|l IH|d IH] using json_ind; intros L pk w;
    try apply log_counts_refl.
  - change (sync (JStr s) L pk w) with (sync_leaf translate s L pk w).
    destruct (reusable L) eqn:Hr.
    + rewrite sync_leaf_reuse by done. exists []. simpl.
      by rewrite app_nil_r, Nat.add_0_r.
    + rewrite sync_leaf_translate by done.
      destruct (translate_leaf translate s pk _) as [o w2] eqn:E.
      apply translate_leaf_spec in E
        as (out & e0 & _ & Hlog & _ & Ht & _).
      exists [e0]. simpl in *. rewrite Hlog, Ht. split; [done|]. split; [done|].
      done.
  - pose proof (list_loop_log_counts sync L pk l IH 0 [] w) as H. simpl in *.
    by destruct (sync_list_loop _ _ _ _ _ _ _).
  - pose proof (dict_loop_log_counts sync L pk d IH [] w) as H. simpl in *.
    by destruct (sync_dict_loop _ _ _ _ _ _).
Qed.

(** X5. At the end of a merge [translated] is the number of runs of the
    translate branch, and when the translate branch was never run the
    provider is in the state it started in. *)
Theorem translated_counts_runs (R L : json) (p : P) :
  let w' := (merge translate R L p).2 in
  translated (w_stats w') = length (w_log w')
  /\ (w_log w' = [] -> w_prov w' = p).
Proof.
  intros w'. destruct (sync_log_counts R L [] (mkWorld (mkStats 0 0 0) p []))
    as (new & H1 & H2 & H3).
  simpl in H1, H2, H3. subst w'. unfold merge. rewrite H1, H2.
  split; [done|]. intros ->. by apply H3.
Qed.

(** X6. When every string leaf of the reference has a reusable legacy
    value, the merge never enters the translate branch: the log is empty,
    the provider is untouched, [translated] is zero and [reused] equals
    [total], the number of string leaves. *)
Theorem full_legacy_needs_no_provider (R L : json) (p : P) :
  json_wf R = true ->
  (forall ps s, node_at ps R = Some (JStr s) ->
                reusable (legacy_at ps L) = true) ->
  let w' := (merge translate R L p).2 in
  w_log w' = [] /\ w_prov w' = p
  /\ translated (w_stats w') = 0
  /\ reused (w_stats w') = total (w_stats w')
  /\ total (w_stats w') = count_strings R.
Proof.
  intros Hwf Hall w'.
  assert (Hlog : w_log w' = []).
  { destruct (w_log w') as [|e log] eqn:E; [done|]. exfalso.
    assert (He : e ∈ w_log (merge translate R L p).2)
      by (fold w'; rewrite E; left).
    apply merge_log_origin in He; [|done].
    apply origin_facts in He as (ps & s & out & HR & Hr & _).
    rewrite (Hall ps s HR) in Hr. done. }
  destruct (sync_log_counts R L [] (mkWorld (mkStats 0 0 0) p []))
    as (new & H1 & H2 & H3).
  pose proof (sync_stats translate R L [] (mkWorld (mkStats 0 0 0) p []))
    as [H4 H5].
  simpl in H1, H2, H3, H4, H5. subst w'. unfold merge in *.
  rewrite Hlog in H1. subst new. simpl in H2.
  split; [done|]. split; [by apply H3|]. split; [done|]. lia.
Qed.

End merge_log_counts.

Lemma full_legacy_needs_no_provider_witness :
  json_wf reference_tree = true
  /\ w_log (merge failing_provider reference_tree full_legacy_tree 0).2 = [].
Proof.
  split; [reflexivity|].
  apply (full_legacy_needs_no_provider failing_provider reference_tree
           full_legacy_tree 0); [reflexivity|].
  intros ps s Hps.
  destruct ps as [|[k|i] ps]; [done| |done].
  simpl in Hps.
  destruct (str_eqb (lit "title") k) eqn:E1.
  { apply str_eqb_true in E1 as <-. by destruct ps as [|[?|?] ?]. }
  destruct (str_eqb (lit "nav") k) eqn:E2.
  { apply str_eqb_true in E2 as <-.
    destruct ps as [|[k2|?] ps]; [done| |done]. simpl in Hps.
    destruct (str_eqb (lit "home") k2) eqn:E3; [|done].
    apply str_eqb_true in E3 as <-. by destruct ps as [|[?|?] ?]. }
  destruct (str_eqb (lit "tags") k) eqn:E4; [|done].
  apply str_eqb_true in E4 as <-.
  destruct ps as [|[?|i] ps]; [done|done|].
  destruct i as [|[|i]]; [by destruct ps as [|[?|?] ?]|by destruct ps as [|[?|?] ?]|done].
Defined.

Lemma prefix_same_length {A} (a b x : list A) :
  a `prefix_of` x -> b `prefix_of` x -> length a = length b -> a = b.
Proof.
  intros [ka ->] [kb Hb] Hlen. by apply app_inj_1 in Hb as [? _].
Qed.

Section merge_log_paths.
Context {P : Type} (translate : P -> str -> P * option str).

Local Abbreviation sync := (sync_structure translate).
Local Abbreviation world := (world P).

Lemma dict_chain_paths en pk items (w : world) outs w' :
  dict_chain translate en pk items w outs w' ->
  NoDup (Dict.keys items) ->
  Forall (fun kv => json_wf kv.2 = true) items ->
  Forall (fun kv => forall L pk (w : world), json_wf kv.2 = true ->
            exists new,
              w_log (sync kv.2 L pk w).2 = w_log w ++ new
              /\ NoDup (map lr_path new)
              /\ Forall (fun e => pk `prefix_of` lr_path e) new) items ->
  exists new,
    w_log w' = w_log w ++ new
    /\ NoDup (map lr_path new)
    /\ Forall (fun e => exists k, k ∈ Dict.keys items
                          /\ (pk ++ [k]) `prefix_of` lr_path e) new.
Proof.
  induction 1 as [w|k v rest w o w1 outs w' Hv Hc IH]; intros Hnd Hwf HQ.
  - exists []. rewrite app_nil_r. split; [done|]. split; constructor.
  - apply NoDup_cons in Hnd as [Hk Hnd].
    apply Forall_cons in Hwf as [Hwv Hwf].
    apply Forall_cons in HQ as [HQv HQ].
    destruct (HQv (legacy_child en k) (pk ++ [k]) w Hwv)
      as (new1 & Hl1 & Hn1 & Hp1).
    simpl in Hl1. rewrite Hv in Hl1. simpl in Hl1.
    destruct (IH Hnd Hwf HQ) as (new2 & Hl2 & Hn2 & Hp2).
    exists (new1 ++ new2). rewrite Hl2, Hl1, app_assoc. split; [done|].
    rewrite Forall_forall in Hp1, Hp2. split.
    + rewrite map_app. apply NoDup_app. split; [done|]. split; [|done].
      intros x (e1 & -> & He1)%list_elem_of_fmap (e2 & Hx & He2)%list_elem_of_fmap.
      destruct (Hp2 e2 He2) as (k' & Hk' & Hpre). rewrite <- Hx in Hpre.
      pose proof (prefix_same_length _ _ _ (Hp1 e1 He1) Hpre) as Heq.
      rewrite !length_app in Heq. specialize (Heq eq_refl).
      apply app_inv_head in Heq. injection Heq as ->. done.
    + apply Forall_forall. intros e [He|He]%elem_of_app.
      * exists k. split; [left|by apply Hp1].
      * destruct (Hp2 e He) as (k' & Hk' & Hpre). exists k'. split; [by right|done].
Qed.

Lemma list_chain_paths en pk i l (w : world) outs w' :
  list_chain translate en pk i l w outs w' ->
  Forall (fun v => json_wf v = true) l ->
  Forall (fun v => forall L pk (w : world), json_wf v = true ->
            exists new,
              w_log (sync v L pk w).2 = w_log w ++ new
              /\ NoDup (map lr_path new)
              /\ Forall (fun e => pk `prefix_of` lr_path e) new) l ->
  exists new,
    w_log w' = w_log w ++ new
    /\ NoDup (map lr_path new)
    /\ Forall (fun e => exists j, i <= j
                 /\ (pk ++ [lit "[" ++ str_of_nat j ++ lit "]"])
                      `prefix_of` lr_path e) new.
Proof.
  induction 1 as [i w|i v rest w o w1 outs w' Hv Hc IH]; intros Hwf HQ.
  - exists []. rewrite app_nil_r. split; [done|]. split; constructor.
  - apply Forall_cons in Hwf as [Hwv Hwf].
    apply Forall_cons in HQ as [HQv HQ].
    destruct (HQv (legacy_item en i)
                (pk ++ [lit "[" ++ str_of_nat i ++ lit "]"]) w Hwv)
      as (new1 & Hl1 & Hn1 & Hp1).
    rewrite Hv in Hl1. simpl in Hl1.
    destruct (IH Hwf HQ) as (new2 & Hl2 & Hn2 & Hp2).
    exists (new1 ++ new2). rewrite Hl2, Hl1, app_assoc. split; [done|].
    rewrite Forall_forall in Hp1, Hp2. split.
    + rewrite map_app. apply NoDup_app. split; [done|]. split; [|done].
      intros x (e1 & -> & He1)%list_elem_of_fmap (e2 & Hx & He2)%list_elem_of_fmap.
      destruct (Hp2 e2 He2) as (j & Hj & Hpre). rewrite <- Hx in Hpre.
      pose proof (prefix_same_length _ _ _ (Hp1 e1 He1) Hpre) as Heq.
      rewrite !length_app in Heq. specialize (Heq eq_refl).
      apply app_inv_head in Heq. injection Heq as Heq.
      apply app_inv_tail, str_of_nat_inj in Heq. lia.
    + apply Forall_forall. intros e [He|He]%elem_of_app.
      * exists i. split; [done|by apply Hp1].
      * destruct (Hp2 e He) as (j & Hj & Hpre). exists j. split; [lia|done].
Qed.

Lemma sync_log_paths R :
  forall L pk (w : world), json_wf R = true ->
    exists new,
      w_log (sync R L pk w).2 = w_log w ++ new
      /\ NoDup (map lr_path new)
      /\ Forall (fun e => pk `prefix_of` lr_path e) new.
Proof.
  induction R as [| | |s|l IH|d IH] using json_ind; intros L pk w Hwf;
    try (exists []; rewrite app_nil_r; split; [done|]; split; constructor).
  - change (sync (JStr s) L pk w) with (sync_leaf translate s L pk w).
    destruct (reusable L) eqn:Hr.
    + rewrite sync_leaf_reuse by done. exists []. rewrite app_nil_r.
      split; [done|]. split; constructor.
    + rewrite sync_leaf_translate by done.
      destruct (translate_leaf translate s pk _) as [o w2] eqn:E.
      apply translate_leaf_spec in E as (out & e0 & _ & Hlog & Hp & _).
      exists [e0]. split; [done|]. split.
      * apply NoDup_singleton.
      * constructor; [by rewrite Hp|constructor].
  - apply json_wf_list in Hwf.
    destruct (sync_list translate L pk l w) as (outs & w' & -> & Hc).
    destruct (list_chain_paths _ _ _ _ _ _ _ Hc Hwf IH)
      as (new & H1 & H2 & H3).
    exists new. split; [done|]. split; [done|].
    eapply Forall_impl; [exact H3|]. intros e (j & _ & Hpre).
    etrans; [|exact Hpre]. by apply prefix_app_r.
  - apply json_wf_dict in Hwf as [Hnd Hwf].
    destruct (sync_dict translate L pk d w Hnd) as (outs & w' & -> & Hc).
    destruct (dict_chain_paths _ _ _ _ _ _ Hc Hnd Hwf IH)
      as (new & H1 & H2 & H3).
    exists new. split; [done|]. split; [done|].
    eapply Forall_impl; [exact H3|]. intros e (k & _ & Hpre).
    etrans; [|exact Hpre]. by apply prefix_app_r.
Qed.

(** X7. No leaf is translated twice: the runs of the translate branch
    logged by a merge have pairwise different paths. *)
Theorem no_leaf_translated_twice (R L : json) (p : P) :
  json_wf R = true ->
  NoDup (map lr_path (w_log (merge translate R L p).2)).
Proof.
  intros Hwf.
  destruct (sync_log_paths R L [] (mkWorld (mkStats 0 0 0) p []) Hwf)
    as (new & H1 & H2 & _).
  unfold merge. by rewrite H1.
Qed.

End merge_log_paths.

Lemma no_leaf_translated_twice_witness :
  json_wf reference_tree = true
  /\ NoDup (map lr_path
              (w_log (merge failing_provider reference_tree legacy_tree 0).2)).
Proof.
  split; [reflexivity|].
  apply (no_leaf_translated_twice failing_provider reference_tree legacy_tree 0).
  reflexivity.
Defined.

(** ** The retry loop *)

Lemma calls_failed_attempts k protected :
  calls (failed_attempts k protected) = k.
Proof. induction k as [|k IH]; [done|]. unfold calls in *. simpl. by rewrite IH. Qed.

Lemma slept_failed_attempts k protected :
  slept (failed_attempts k protected) = 500 * k.
Proof. induction k as [|k IH]; [done|]. simpl slept. rewrite IH. lia. Qed.

Lemma slept_app evs1 evs2 : slept (evs1 ++ evs2) = slept evs1 + slept evs2.
Proof.
  induction evs1 as [|[| |ms|] evs1 IH]; simpl; try done. rewrite IH. lia.
Qed.

Section retry.
Context {P : Type} (translate : P -> str -> P * option str).

Lemma translate_loop_shape text protected ph_map retry :
  forall p,
    match translate_loop translate text protected ph_map retry p with
    | (res, _, evs) =>
        (exists k out,
            k < retry
            /\ evs = failed_attempts k protected
                     ++ [EvCall protected (Some out)]
            /\ res = Guard.restore_placeholders out ph_map)
        \/ (exists r,
               retry = S r
               /\ evs = failed_attempts r protected
                        ++ [EvCall protected None; EvFail (take 40 text)]
               /\ res = text)
        \/ (retry = 0 /\ evs = [] /\ res = text)
    end.
Proof.
  induction retry as [|r IH]; intros p; simpl.
  - by right; right.
  - destruct (translate p protected) as [p1 [out|]].
    + left. exists 0, out. split; [lia|done].
    + destruct r as [|r'].
      * right. left. by exists 0.
      * specialize (IH p1).
        destruct (translate_loop translate text protected ph_map (S r') p1)
          as [[res1 p2] evs1].
        destruct IH as [(k & out & Hk & -> & ->)|[(r0 & Hr & -> & ->)|(? & _)]];
          [| |done].
        -- left. exists (S k), out. split; [lia|done].
        -- right. left. exists (S r0). split; [lia|done].
Qed.

Lemma translate_text_shape (text : str) (p : P) (retry : nat) :
  match translate_text translate text p retry with
  | (res, _, evs) =>
      if blank text then res = text /\ evs = []
      else
        let protected := (Guard.protect_placeholders text).1 in
        let ph_map := (Guard.protect_placeholders text).2 in
        (exists k out,
            k < retry
            /\ evs = failed_attempts k protected
                     ++ [EvCall protected (Some out)]
            /\ res = Guard.restore_placeholders out ph_map)
        \/ (exists r,
               retry = S r
               /\ evs = failed_attempts r protected
                        ++ [EvCall protected None; EvFail (take 40 text)]
               /\ res = text)
        \/ (retry = 0 /\ evs = [] /\ res = text)
  end.
Proof.
  unfold translate_text, blank. destruct (negb (truthy (strip text))); [done|].
  destruct (Guard.protect_placeholders text) as [protected ph_map].
  apply translate_loop_shape.
Qed.

(** X8. [translate_text] returns a blank text at once. Otherwise it calls
    the provider on the guarded text until a call succeeds, pausing 0.5 s
    after each failed call that is not the last allowed one; it returns the
    restored answer of the first successful call, or, when all [retry]
    calls fail, prints the failure line and returns the text it was
    given; with [retry = 0] it returns the text without any call. *)
Theorem translate_text_retries (text : str) (p : P) (retry : nat) :
  match translate_text translate text p retry with
  | (res, _, evs) =>
      if blank text then res = text /\ evs = []
      else
        let protected := (Guard.protect_placeholders text).1 in
        let ph_map := (Guard.protect_placeholders text).2 in
        (exists k out,
            k < retry
            /\ evs = failed_attempts k protected
                     ++ [EvCall protected (Some out)]
            /\ res = Guard.restore_placeholders out ph_map)
        \/ (exists r,
               retry = S r
               /\ evs = failed_attempts r protected
                        ++ [EvCall protected None; EvFail (take 40 text)]
               /\ res = text)
        \/ (retry = 0 /\ evs = [] /\ res = text)
  end.
Proof. apply translate_text_shape. Qed.

Lemma translate_text_pacing text p retry :
  slept (translate_text translate text p retry).2
  = 500 * (calls (translate_text translate text p retry).2 - 1).
Proof.
  pose proof (translate_text_shape text p retry) as H.
  destruct (translate_text translate text p retry) as [[res p'] evs].
  cbn [snd]. destruct (blank text).
  - by destruct H as [_ ->].
  - destruct H as [(k & out & _ & -> & _)|[(r & _ & -> & _)|(_ & -> & _)]];
      [| |done];
      rewrite slept_app, calls_app, slept_failed_attempts, calls_failed_attempts;
      unfold calls; simpl; lia.
Qed.

Lemma translate_leaf_events s pk (w : world P) o w2 :
  translate_leaf translate s pk w = (o, w2) ->
  exists e progress,
    w_log w2 = w_log w ++ [e]
    /\ lr_events e
       = progress ++ (translate_text translate s (w_prov w) 3).2
         ++ [EvSleep 300]
    /\ calls progress = 0 /\ slept progress = 0.
Proof.
  unfold translate_leaf.
  destruct (translate_text translate s (w_prov w) 3) as [[out p'] evs].
  intros [= <- <-]. eexists _, _. cbn [w_log lr_events snd].
  split; [done|]. split; [done|]. by destruct (_ && _).
Qed.

(** X9. Pacing. Every run of the translate branch logged by a merge ends
    with the 0.3 s pause, also when the leaf is blank and the provider is
    never called; the time it sleeps is 0.3 s plus 0.5 s for each provider
    call after the first, at most 1.3 s. *)
Theorem translate_branch_pacing (R L : json) (p : P) (e : leaf_run) :
  json_wf R = true ->
  e ∈ w_log (merge translate R L p).2 ->
  last (lr_events e) = Some (EvSleep 300)
  /\ slept (lr_events e) = 300 + 500 * (calls (lr_events e) - 1)
  /\ slept (lr_events e) <= 1300.
Proof.
  intros Hwf He. apply merge_log_origin in He; [|done].
  destruct He as (ps & s & w1 & o & w2 & _ & _ & Ht & Hlog & _).
  apply translate_leaf_events in Ht as (e0 & progress & Hlog0 & Hev & Hc & Hs).
  rewrite Hlog in Hlog0. apply app_inj_tail in Hlog0 as [_ ->].
  pose proof (translate_text_pacing s (w_prov w1) 3) as Hp.
  destruct (translate_text translate s (w_prov w1) 3) as [[out p'] evs] eqn:E.
  apply translate_text_spec in E as [Hle _]. cbn [snd] in *.
  rewrite Hev, !slept_app, !calls_app, Hc, Hs, Hp.
  change (calls [EvSleep 300]) with 0. change (slept [EvSleep 300]) with 300.
  split; [|split; lia].
  by rewrite app_assoc, last_snoc.
Qed.

End retry.

Lemma translate_branch_pacing_witness :
  json_wf reference_tree = true
  /\ mkRun [lit "nav"; lit "home"]
       [EvCall (lit "Accueil") None; EvSleep 500;
        EvCall (lit "Accueil") None; EvSleep 500;
        EvCall (lit "Accueil") None; EvFail (lit "Accueil"); EvSleep 300]
     ∈ w_log (merge failing_provider reference_tree legacy_tree 0).2
  /\ slept [EvCall (lit "Accueil") None; EvSleep 500;
            EvCall (lit "Accueil") None; EvSleep 500;
            EvCall (lit "Accueil") None; EvFail (lit "Accueil"); EvSleep 300]
     <= 1300.
Proof.
  split; [reflexivity|]. split; [left|].
  apply (translate_branch_pacing failing_provider reference_tree legacy_tree 0
           (mkRun [lit "nav"; lit "home"]
              [EvCall (lit "Accueil") None; EvSleep 500;
               EvCall (lit "Accueil") None; EvSleep 500;
               EvCall (lit "Accueil") None; EvFail (lit "Accueil");
               EvSleep 300]));
    [reflexivity|left].
Defined.

(** ** More on the placeholder guard *)

Lemma replace_absent (s old new : str) :
  contains old s = false -> replace s old new = s.
Proof.
  destruct old as [|h old'].
  - by destruct s.
  - induction s as [|c s IH]; intros H; [done|].
    cbn [contains] in H. apply orb_false_elim in H as [Hp Hc].
    rewrite replace_cons_nomatch by done. by rewrite IH.
Qed.

(** X10. A text in which no marker of the map occurs is left unchanged by
    [restore_placeholders]: when the provider drops or alters a marker, the
    token it stood for is lost without notice. *)
Theorem restore_without_markers (text : str) (placeholder_map : list (str * str)) :
  (forall marker ph, (marker, ph) ∈ placeholder_map ->
                     contains marker text = false) ->
  Guard.restore_placeholders text placeholder_map = text.
Proof.
  induction placeholder_map as [|[m ph] rest IH]; intros H; [done|].
  change (Guard.restore_placeholders text ((m, ph) :: rest))
    with (Guard.restore_placeholders (replace text m ph) rest).
  rewrite replace_absent by (apply (H m ph); left).
  apply IH. intros m' ph' Hin. apply (H m' ph'). by right.
Qed.

Lemma restore_without_markers_witness :
  Guard.restore_placeholders (lit "Welcome to")
    [(lit "PLACEHOLDER0", lit "{name}"); (lit "PLACEHOLDER1", lit "{place}")]
  = lit "Welcome to".
Proof.
  apply (restore_without_markers (lit "Welcome to")
           [(lit "PLACEHOLDER0", lit "{name}");
            (lit "PLACEHOLDER1", lit "{place}")]).
  intros m ph Hin.
  apply elem_of_cons in Hin as [[= -> ->]|Hin]; [reflexivity|].
  apply elem_of_cons in Hin as [[= -> ->]|Hin]; [reflexivity|].
  by apply elem_of_nil in Hin.
Defined.

Lemma protect_loop_map l :
  forall done protected,
    (Guard.protect_loop l (length done) protected (marker_map_from 0 done)).2
    = marker_map_from 0 (done ++ l).
Proof.
  induction l as [|ph l IH]; intros done protected.
  - by rewrite app_nil_r.
  - cbn [Guard.protect_loop]. rewrite set_fresh.
    2:{ intros (j & Hj & Hmj%marker_inj)%marker_map_from_keys. lia. }
    rewrite <- (marker_map_from_snoc 0 done).
    replace (S (length done)) with (length (done ++ [ph]))
      by (rewrite length_app; simpl; lia).
    rewrite IH. by rewrite <- app_assoc.
Qed.

Lemma marker_map_from_nodup k l : NoDup (Dict.keys (marker_map_from k l)).
Proof.
  revert k. induction l as [|ph l IH]; intros k; simpl; [constructor|].
  apply NoDup_cons. split; [|apply IH].
  intros (j & Hj & Hmj%marker_inj)%marker_map_from_keys. lia.
Qed.

Lemma marker_map_from_elem k l i (ph : str) :
  l !! i = Some ph -> (Guard.marker (k + i), ph) ∈ marker_map_from k l.
Proof.
  revert k i. induction l as [|x l IH]; intros k [|i] H; simplify_eq/=.
  - rewrite Nat.add_0_r. left.
  - right. rewrite Nat.add_succ_r. by apply (IH (S k)).
Qed.

Lemma marker_map_from_length k l : length (marker_map_from k l) = length l.
Proof. revert k. induction l as [|x l IH]; intros k; simpl; [done|by rewrite IH]. Qed.

(** X11. For every text, the map returned by [protect_placeholders] has
    one entry per token found, in the order of the tokens, the token number
    [i] under the key [PLACEHOLDERi]; its keys are pairwise different, so
    looking up the marker of a token gives back that token. *)
Theorem placeholder_map_lists_tokens (text : str) :
  let ph_map := (Guard.protect_placeholders text).2 in
  ph_map = marker_map_from 0 (Guard.findall text)
  /\ length ph_map = length (Guard.findall text)
  /\ NoDup (Dict.keys ph_map)
  /\ (forall i ph, Guard.findall text !! i = Some ph ->
        Dict.get ph_map (Guard.marker i) = Some ph).
Proof.
  intros ph_map.
  assert (H : ph_map = marker_map_from 0 (Guard.findall text))
    by apply (protect_loop_map (Guard.findall text) [] text).
  rewrite H. split; [done|]. split; [apply marker_map_from_length|].
  split; [apply marker_map_from_nodup|].
  intros i ph Hi. apply get_in_nodup; [apply marker_map_from_nodup|].
  by apply (marker_map_from_elem 0).
Qed.

Lemma until_close_none (s : str) :
  Guard.close_brace ∉ s -> Guard.until_close s = None.
Proof.
  induction s as [|c s IH]; [done|]. intros [Hc Hs]%not_elem_of_cons. simpl.
  destruct (N.eqb_spec c Guard.close_brace) as [->|_]; [done|].
  by rewrite IH.
Qed.

Lemma findall_go_no_braces (s : str) :
  Guard.open_brace ∉ s \/ Guard.close_brace ∉ s ->
  forall skip, Guard.findall_go s skip = [].
Proof.
  induction s as [|c s IH]; intros H skip; [done|].
  assert (Hs : Guard.open_brace ∉ s \/ Guard.close_brace ∉ s).
  { destruct H as [H|H]; apply not_elem_of_cons in H as [_ H]; tauto. }
  cbn [Guard.findall_go]. destruct skip as [|k]; [|by apply IH].
  assert (Hm : Guard.match_placeholder (c :: s) = None).
  { simpl. destruct (N.eqb_spec c Guard.open_brace) as [->|_]; [|done].
    destruct H as [H|H]; apply not_elem_of_cons in H as [Hc H]; [done|].
    by rewrite until_close_none. }
  rewrite Hm. by apply IH.
Qed.

(** X12. A text without an opening brace, or without a closing brace, has
    no token: it is its own guarded text, the placeholder map is empty and
    restoring with that map changes nothing. *)
Theorem guard_without_braces (text : str) :
  Guard.open_brace ∉ text \/ Guard.close_brace ∉ text ->
  Guard.findall text = []
  /\ Guard.protect_placeholders text = (text, [])
  /\ forall out, Guard.restore_placeholders out
                   (Guard.protect_placeholders text).2 = out.
Proof.
  intros H.
  assert (Hf : Guard.findall text = []) by (by apply findall_go_no_braces).
  unfold Guard.protect_placeholders. rewrite Hf. done.
Qed.

Lemma guard_without_braces_witness :
  (Guard.open_brace ∉ lit "Accueil}" \/ Guard.close_brace ∉ lit "Accueil}")
  /\ Guard.protect_placeholders (lit "Accueil}") = (lit "Accueil}", []).
Proof.
  assert (H : Guard.open_brace ∉ lit "Accueil}"
              \/ Guard.close_brace ∉ lit "Accueil}").
  { left. apply (bool_decide_eq_false_1 _). vm_compute. reflexivity. }
  split; [exact H|].
  apply (guard_without_braces (lit "Accueil}") H).
Defined.

Lemma guard_round_trip (text : str) :
  contains Guard.marker_word text = false ->
  length (Guard.findall text) <= 10 ->
  Guard.restore_placeholders (Guard.protect_placeholders text).1
    (Guard.protect_placeholders text).2 = text.
Proof.
  intros Hw Hlen.
  assert (Htok : forall p : str, p ∈ Guard.findall text ->
            exists p', p = Guard.open_brace :: p'
                       /\ last p = Some Guard.close_brace
                       /\ contains Guard.marker_word p = false).
  { intros p Hp. apply findall_go_tokens in Hp as (body & -> & _ & _ & Hc).
    exists (body ++ [Guard.close_brace]). split; [done|]. split.
    - change (Guard.open_brace :: body ++ [Guard.close_brace])
        with ((Guard.open_brace :: body) ++ [Guard.close_brace]).
      apply last_snoc.
    - apply not_true_is_false. intros E.
      by rewrite (contains_trans _ _ _ E Hc) in Hw. }
  destruct (protect_loop_spec (Guard.findall text) Hlen Htok
              (Guard.findall text) [] (map Ch text) eq_refl)
    as (items & Hp & He & Hm); [apply marks_in_chars|].
  rewrite flat_chars, expand_chars in *.
  assert (Hp' : Guard.protect_placeholders text
                = (flat items, marker_map_from 0 (Guard.findall text)))
    by exact Hp.
  rewrite Hp'. cbn [fst snd]. rewrite <- He at 2.
  apply (restore_loop (Guard.findall text) Hlen (Guard.findall text) []);
    [done|done|by rewrite He].
Qed.

(** X13. With a provider that returns the text it is given,
    [translate_text] returns its argument unchanged, for every text that
    does not contain the word [PLACEHOLDER] and has at most 10 tokens, and
    for every number of allowed attempts. *)
Theorem translate_text_identity_provider {P : Type}
    (translate : P -> str -> P * option str) (text : str) (p : P)
    (retry : nat) :
  (forall q x, (translate q x).2 = Some x) ->
  contains Guard.marker_word text = false ->
  length (Guard.findall text) <= 10 ->
  (translate_text translate text p retry).1.1 = text.
Proof.
  intros Hid Hw Hlen. unfold translate_text.
  destruct (negb (truthy (strip text))); [done|].
  pose proof (guard_round_trip text Hw Hlen) as Hrt.
  destruct (Guard.protect_placeholders text) as [protected ph_map].
  cbn [fst snd] in Hrt. destruct retry as [|r]; [done|].
  simpl. specialize (Hid p protected).
  destruct (translate p protected) as [p1 [out|]]; simpl in Hid; [|done].
  injection Hid as ->. done.
Qed.

Lemma translate_text_identity_provider_witness :
  (forall q x, (echo_provider q x).2 = Some x)
  /\ contains Guard.marker_word text_welcome = false
  /\ length (Guard.findall text_welcome) <= 10
  /\ (translate_text echo_provider text_welcome 0 3).1.1 = text_welcome.
Proof.
  split; [reflexivity|]. split; [reflexivity|]. split; [vm_compute; lia|].
  apply (translate_text_identity_provider echo_provider text_welcome 0 3);
    [reflexivity|reflexivity|vm_compute; lia].
Defined.

(** ** The final check of the merge script *)

Lemma same_shape_count_keys a :
  forall t, same_shape a t = true -> count_keys t = count_keys a.
Proof.
  induction a as [| | | |la IH|da IH] using json_ind; intros t Hs;
    try (by destruct t).
  - destruct t as [| | | |lb|]; try done. simpl in *. revert lb Hs.
    induction IH as [|va la Hva _ IHl]; intros [|vb lb] Hs; simpl in *;
      try done.
    apply andb_true_iff in Hs as [Hv Hr].
    by rewrite (Hva _ Hv), (IHl _ Hr).
  - destruct t as [| | | | |db]; try done. simpl in *. revert db Hs.
    induction IH as [|[ka va] da Hva _ IHd]; intros [|[kb vb] db] Hs;
      simpl in *; try done.
    rewrite !andb_true_iff in Hs. destruct Hs as [[Hk Hv] Hr].
    by rewrite (same_shape_container _ _ Hv), (Hva _ Hv), (IHd _ Hr).
Qed.

Lemma count_strings_le_keys a : count_strings a <= count_keys a.
Proof.
  induction a as [| | | |la IH|da IH] using json_ind; simpl; try lia.
  - induction IH as [|va la Hva _ IHl]; simpl; lia.
  - induction IH as [|[ka va] da Hva _ IHd]; simpl in *; [lia|].
    destruct va; simpl in *; lia.
Qed.

(** X14. The final check of [main] always finds the synchronisation
    perfect: the output of the merge has as many values as the reference,
    whatever the legacy tree and the provider; and [total] never exceeds
    that number. *)
Theorem final_check_is_perfect {P : Type}
    (translate : P -> str -> P * option str) (R L : json) (p : P) :
  json_wf R = true ->
  count_keys (merge translate R L p).1 = count_keys R
  /\ final_check R (merge translate R L p).1 = Parfaite
  /\ total (w_stats (merge translate R L p).2) <= count_keys R.
Proof.
  intros Hwf.
  assert (H : count_keys (merge translate R L p).1 = count_keys R)
    by (apply same_shape_count_keys; by apply sync_shape).
  split; [done|]. split.
  - unfold final_check. rewrite H. by rewrite Nat.eqb_refl.
  - pose proof (sync_stats translate R L [] (mkWorld (mkStats 0 0 0) p []))
      as [Ht _].
    pose proof (count_strings_le_keys R). unfold merge. simpl in Ht. lia.
Qed.

Lemma final_check_is_perfect_witness :
  json_wf reference_tree = true
  /\ final_check reference_tree
       (merge failing_provider reference_tree legacy_tree 0).1 = Parfaite.
Proof.
  split; [reflexivity|].
  apply (final_check_is_perfect failing_provider reference_tree legacy_tree 0).
  reflexivity.
Defined.

(** ** More on the validator *)

(** X15. The three sets of [compare_structures] split the key paths of the
    two trees, and the counts of the report add up: the number of key
    paths of each tree is the number of common paths plus the number of
    paths listed as missing, respectively as extra. *)
Theorem report_counts_add_up (fr_data en_data : json) :
  let c := compare_structures fr_data en_data in
  let r := make_report fr_data en_data in
  common c ∪ missing_in_en c = get_all_key_paths fr_data []
  /\ common c ∪ extra_in_en c = get_all_key_paths en_data []
  /\ common c ## missing_in_en c /\ common c ## extra_in_en c
  /\ missing_in_en c ## extra_in_en c
  /\ fr_keys_count r = common_keys r + length (report_missing r)
  /\ en_keys_count r = common_keys r + length (report_extra r).
Proof.
  intros c r. subst c r. unfold make_report, compare_structures. simpl.
  set (A := get_all_key_paths fr_data []).
  set (B := get_all_key_paths en_data []).
  assert (H1 : A ∩ B ∪ A ∖ B = A).
  { apply set_eq. intros x.
    rewrite elem_of_union, elem_of_intersection, elem_of_difference.
    destruct (decide (x ∈ B)); tauto. }
  assert (H2 : A ∩ B ∪ B ∖ A = B).
  { apply set_eq. intros x.
    rewrite elem_of_union, elem_of_intersection, elem_of_difference.
    destruct (decide (x ∈ A)); tauto. }
  assert (D1 : A ∩ B ## A ∖ B) by set_solver.
  assert (D2 : A ∩ B ## B ∖ A) by set_solver.
  repeat (split; [done|]). split; [set_solver|].
  change (length (elements ?X)) with (size X).
  rewrite <- !size_union by done. by rewrite H1, H2.
Qed.

Lemma same_shape_report A B :
  same_shape A B = true ->
  status (make_report A B) = synchronized
  /\ report_missing (make_report A B) = []
  /\ report_extra (make_report A B) = []
  /\ en_keys_count (make_report A B) = fr_keys_count (make_report A B).
Proof.
  intros Hs. pose proof (same_shape_key_paths A B [] Hs) as Hk.
  unfold make_report, compare_structures, status_of, set_falsy. simpl.
  rewrite Hk, !difference_diag_L, elements_empty.
  by rewrite bool_decide_eq_true_2.
Qed.

(** X16. Two trees of the same shape (same kinds, same keys in the same
    order, same sequence lengths) are reported as synchronized, with no
    missing and no extra path, whatever their leaves hold. *)
Theorem same_shape_is_synchronized (A B : json) :
  same_shape A B = true ->
  status (make_report A B) = synchronized
  /\ report_missing (make_report A B) = []
  /\ report_extra (make_report A B) = []
  /\ en_keys_count (make_report A B) = fr_keys_count (make_report A B).
Proof. apply same_shape_report. Qed.

Lemma same_shape_is_synchronized_witness :
  same_shape reference_tree reference_tree_twin = true
  /\ status (make_report reference_tree reference_tree_twin) = synchronized.
Proof.
  split; [reflexivity|].
  apply (same_shape_is_synchronized reference_tree reference_tree_twin).
  reflexivity.
Defined.

(** X17. The validator accepts what the merge produces: the report on a
    reference tree and the output of its merge with any legacy tree and any
    provider is [synchronized], with empty lists of missing and extra
    paths. *)
Theorem merge_output_is_synchronized {P : Type}
    (translate : P -> str -> P * option str) (R L : json) (p : P) :
  json_wf R = true ->
  let r := make_report R (merge translate R L p).1 in
  status r = synchronized /\ report_missing r = [] /\ report_extra r = []
  /\ en_keys_count r = fr_keys_count r.
Proof. intros Hwf. apply same_shape_report. by apply sync_shape. Qed.

Lemma merge_output_is_synchronized_witness :
  json_wf reference_tree = true
  /\ status (make_report reference_tree
               (merge failing_provider reference_tree legacy_tree 0).1)
     = synchronized.
Proof.
  split; [reflexivity|].
  apply (merge_output_is_synchronized failing_provider reference_tree
           legacy_tree 0).
  reflexivity.
Defined.

(** X18. [verify_values] only walks through dicts: every warning it
    returns, from any starting path, is about a string leaf reached by
    mapping keys alone that is present and equal in both trees and longer
    than 3 characters; nothing inside or below a list is ever compared. *)
Theorem verify_values_walks_dicts_only (A B : json) (path m : str) :
  json_wf A = true ->
  m ∈ verify_values A B path ->
  exists ks s,
    node_at (map Key ks) A = Some (JStr s)
    /\ node_at (map Key ks) B = Some (JStr s)
    /\ 3 < length s
    /\ has_invariant_literal s = false
    /\ m = issue_line (render path (map Key ks)) s.
Proof. intros Hwf Hm. by apply verify_values_sound. Qed.

Lemma verify_values_walks_dicts_only_witness :
  json_wf tree_bonjour = true
  /\ issue_line (lit "msg") (lit "Bonjour")
     ∈ verify_values tree_bonjour tree_bonjour []
  /\ exists ks s,
       node_at (map Key ks) tree_bonjour = Some (JStr s)
       /\ node_at (map Key ks) tree_bonjour = Some (JStr s)
       /\ 3 < length s
       /\ has_invariant_literal s = false
       /\ issue_line (lit "msg") (lit "Bonjour")
          = issue_line (render [] (map Key ks)) s.
Proof.
  split; [reflexivity|]. split; [left|].
  apply (verify_values_walks_dicts_only tree_bonjour tree_bonjour []
           (issue_line (lit "msg") (lit "Bonjour")));
    [reflexivity|left].
Defined.

(** X19. The check is symmetric: comparing [A] with [B] and [B] with [A]
    gives the same warnings, up to their order. *)
Theorem verify_values_symmetric (A B : json) (path m : str) :
  json_wf A = true -> json_wf B = true ->
  m ∈ verify_values A B path <-> m ∈ verify_values B A path.
Proof.
  intros HA HB. split; intros Hm.
  - apply verify_values_sound in Hm
      as (ks & s & H1 & H2 & H3 & H4 & ->); [|done].
    by apply verify_values_complete.
  - apply verify_values_sound in Hm
      as (ks & s & H1 & H2 & H3 & H4 & ->); [|done].
    by apply verify_values_complete.
Qed.

Lemma verify_values_symmetric_witness :
  json_wf tree_bonjour = true /\ json_wf tree_bonjour = true
  /\ (issue_line (lit "msg") (lit "Bonjour")
      ∈ verify_values tree_bonjour tree_bonjour []
      <-> issue_line (lit "msg") (lit "Bonjour")
          ∈ verify_values tree_bonjour tree_bonjour []).
Proof.
  split; [reflexivity|]. split; [reflexivity|].
  apply (verify_values_symmetric tree_bonjour tree_bonjour []
           (issue_line (lit "msg") (lit "Bonjour")));
    reflexivity.
Defined.

(** ** The merge and the validator together *)

Lemma translate_loop_all_fail {P : Type}
    (translate : P -> str -> P * option str) text protected ph_map retry :
  (forall q x, (translate q x).2 = None) ->
  forall p, (translate_loop translate text protected ph_map retry p).1.1 = text.
Proof.
  intros Hf. induction retry as [|r IH]; intros p; [done|]. simpl.
  specialize (Hf p protected).
  destruct (translate p protected) as [p1 [out|]]; simpl in Hf; [done|].
  destruct r as [|r']; [done|]. specialize (IH p1).
  by destruct (translate_loop translate text protected ph_map (S r') p1)
    as [[res p2] evs].
Qed.

(** X20. Fallbacks are visible to the validator. When the provider fails
    on every call, a string leaf of the reference that is reached by
    mapping keys alone, has no reusable legacy value, is longer than 3
    characters and contains none of the built-in literals is copied to the
    output and flagged by [verify_values] on the reference and the
    output. *)
Theorem fallback_leaves_are_flagged {P : Type}
    (translate : P -> str -> P * option str) (R L : json) (p : P)
    (ks : list str) (s : str) :
  (forall q x, (translate q x).2 = None) ->
  json_wf R = true ->
  node_at (map Key ks) R = Some (JStr s) ->
  reusable (legacy_at (map Key ks) L) = false ->
  3 < length s ->
  has_invariant_literal s = false ->
  node_at (map Key ks) (merge translate R L p).1 = Some (JStr s)
  /\ issue_line (render [] (map Key ks)) s
     ∈ verify_values R (merge translate R L p).1 [].
Proof.
  intros Hf Hwf HR Hr Hlen Hlit.
  assert (HO : node_at (map Key ks) (merge translate R L p).1 = Some (JStr s)).
  { destruct (merge_at translate R L p (map Key ks) _ Hwf HR)
      as (w1 & o & w2 & Hs & HO & _ & _).
    change (sync_structure translate (JStr s) (legacy_at (map Key ks) L)
              (map seg_key (map Key ks)) w1)
      with (sync_leaf translate s (legacy_at (map Key ks) L)
              (map seg_key (map Key ks)) w1) in Hs.
    rewrite sync_leaf_translate in Hs by done.
    unfold translate_leaf, translate_text in Hs. cbn [w_prov] in Hs.
    destruct (negb (truthy (strip s))); [by simplify_eq|].
    destruct (Guard.protect_placeholders s) as [protected ph_map].
    pose proof (translate_loop_all_fail translate s protected ph_map 3 Hf
                  (w_prov w1)) as Hres.
    destruct (translate_loop translate s protected ph_map 3 (w_prov w1))
      as [[res p'] evs].
    simpl in Hres. by simplify_eq. }
  split; [done|]. by apply verify_values_complete.
Qed.

Lemma fallback_leaves_are_flagged_witness :
  (forall q x, (failing_provider q x).2 = None)
  /\ json_wf reference_tree = true
  /\ issue_line (lit "nav.home") (lit "Accueil")
     ∈ verify_values reference_tree
         (merge failing_provider reference_tree legacy_tree 0).1 [].
Proof.
  split; [reflexivity|]. split; [reflexivity|].
  apply (fallback_leaves_are_flagged failing_provider reference_tree
           legacy_tree 0 [lit "nav"; lit "home"] (lit "Accueil"));
    try reflexivity.
  vm_compute. lia.
Defined.

(** ** What the merge reads of the legacy tree *)

Section legacy_ext.
Context {P : Type} (translate : P -> str -> P * option str).

Local Abbreviation sync := (sync_structure translate).
Local Abbreviation world := (world P).

Lemma sync_leaf_agree s l l' pk (w : world) :
  legacy_agree l l' ->
  sync_leaf translate s l pk w = sync_leaf translate s l' pk w.
Proof.
  unfold legacy_agree, sync_leaf. destruct (reusable l) eqn:E.
  - intros <-. by rewrite E.
  - by intros ->.
Qed.

Lemma dict_loop_ext rec en en' pk items :
  Forall (fun kv => forall pk (w : world),
            rec kv.2 (legacy_child en kv.1) pk w
            = rec kv.2 (legacy_child en' kv.1) pk w) items ->
  forall result w,
    sync_dict_loop rec en pk items result w
    = sync_dict_loop rec en' pk items result w.
Proof.
  induction 1 as [|[k v] items Hv _ IH]; intros result w; simpl; [done|].
  simpl in Hv. rewrite Hv. destruct (rec v _ _ w) as [o w1]. apply IH.
Qed.

Lemma list_loop_ext rec en en' pk l :
  forall i,
    (forall j v, l !! j = Some v -> forall pk (w : world),
        rec v (legacy_item en (i + j)) pk w
        = rec v (legacy_item en' (i + j)) pk w) ->
    forall result w,
      sync_list_loop rec en pk l i result w
      = sync_list_loop rec en' pk l i result w.
Proof.
  induction l as [|v l IH]; intros i H result w; simpl; [done|].
  pose proof (H 0 v eq_refl) as H0. rewrite Nat.add_0_r in H0.
  rewrite H0. destruct (rec v _ _ w) as [o w1]. apply IH.
  intros j x Hj pk' w'. replace (S i + j) with (i + S j) by lia.
  by apply (H (S j)).
Qed.

Lemma sync_legacy_ext R :
  forall L L' pk (w : world),
    json_wf R = true ->
    (forall ps s, node_at ps R = Some (JStr s) ->
                  legacy_agree (legacy_at ps L) (legacy_at ps L')) ->
    sync R L pk w = sync R L' pk w.
Proof.
  induction R as [| | |s|l IH|d IH] using json_ind; intros L L' pk w Hwf H;
    try done.
  - change (sync_leaf translate s L pk w = sync_leaf translate s L' pk w).
    apply sync_leaf_agree. by apply (H [] s).
  - apply json_wf_list in Hwf. simpl.
    rewrite (list_loop_ext sync L L' pk l 0); [done|].
    intros j v Hj pk' w'. rewrite Forall_forall in IH, Hwf.
    apply list_elem_of_lookup_2 in Hj as Hin.
    apply (IH v Hin); [by apply Hwf|].
    intros ps s Hps. apply (H (Idx j :: ps) s). simpl. by rewrite Hj.
  - apply json_wf_dict in Hwf as [Hnd Hwf]. simpl.
    rewrite (dict_loop_ext sync L L' pk d); [done|].
    rewrite Forall_forall in IH, Hwf. apply Forall_forall.
    intros [k v] Hin pk' w'. simpl.
    apply (IH _ Hin); [by apply (Hwf _ Hin)|].
    intros ps s Hps. apply (H (Key k :: ps) s). simpl.
    by rewrite (get_in_nodup d k v).
Qed.

(** X21. The merge reads the legacy tree only at the paths of the string
    leaves of the reference, and only to see whether the value there is a
    reusable string: two legacy trees that agree on this give the same
    output, the same counters, the same provider calls and the same log.
    Keys that only the legacy tree has are ignored, and a missing key, a
    null, a number, a container or a blank string all mean "translate". *)
Theorem merge_reads_legacy_at_string_leaves (R L L' : json) (p : P) :
  json_wf R = true ->
  (forall ps s, node_at ps R = Some (JStr s) ->
                legacy_agree (legacy_at ps L) (legacy_at ps L')) ->
  merge translate R L p = merge translate R L' p.
Proof. intros Hwf H. by apply sync_legacy_ext. Qed.

End legacy_ext.

Lemma merge_reads_legacy_at_string_leaves_witness :
  json_wf tree_bonjour = true
  /\ merge failing_provider tree_bonjour useless_legacy_tree 0
     = merge failing_provider tree_bonjour JNull 0.
Proof.
  split; [reflexivity|].
  apply (merge_reads_legacy_at_string_leaves failing_provider tree_bonjour
           useless_legacy_tree JNull 0); [reflexivity|].
  intros ps s Hps. unfold legacy_agree. rewrite legacy_at_null.
  destruct ps as [|[k|i] ps]; [done| |done]. simpl in Hps.
  destruct (str_eqb (lit "msg") k) eqn:E; [|done].
  apply str_eqb_true in E as <-.
  destruct ps as [|[?|?] ?]; [reflexivity|done|done].
Defined.

(** * The counters, leaf by leaf *)

Lemma filter_map_length {A B} (f : B -> bool) (g : A -> B) (l : list A) :
  length (List.filter f (map g l)) = length (List.filter (fun x => f (g x)) l).
Proof.
  induction l as [|x l IH]; [done|]. simpl. destruct (f (g x)); simpl; lia.
Qed.

Lemma filter_app_length {A} (f : A -> bool) (l1 l2 : list A) :
  length (List.filter f (l1 ++ l2))
  = length (List.filter f l1) + length (List.filter f l2).
Proof. by rewrite List.filter_app, length_app. Qed.

(** In a list without duplicates, a member that passes the filter counts
    for one, on top of the other members that pass it. *)
Lemma filter_count_one (f : list seg -> bool) (ps : list seg) l :
  NoDup l -> ps ∈ l -> f ps = true ->
  length (List.filter f l) = S (length (List.filter f (other_paths ps l))).
Proof.
  unfold other_paths. induction 1 as [|x l Hx Hnd IH]; intros Hin Hf.
  - by apply elem_of_nil in Hin.
  - apply elem_of_cons in Hin as [<-|Hin].
    + simpl. rewrite Hf, bool_decide_eq_true_2 by done. simpl. f_equal.
      f_equal. f_equal. symmetry. apply List.forallb_filter_id.
      apply forallb_forall. intros q Hq%list_elem_of_In.
      apply negb_true_iff, bool_decide_eq_false. by intros ->.
    + simpl. rewrite bool_decide_eq_false_2 by (by intros ->). simpl.
      destruct (f x); simpl; rewrite IH by done; done.
Qed.

Lemma elem_of_string_paths_dict d (ps : list seg) :
  ps ∈ string_paths_dict string_paths d
  <-> exists k v qs, (k, v) ∈ d /\ qs ∈ string_paths v /\ ps = Key k :: qs.
Proof.
  induction d as [|[k v] d IH]; simpl.
  - split; [by intros ?%elem_of_nil|].
    intros (k & v & qs & H & _). by apply elem_of_nil in H.
  - rewrite elem_of_app, IH, list_elem_of_fmap. split.
    + intros [(qs & -> & Hq)|(k' & v' & qs & Hin & Hq & ->)].
      * exists k, v, qs. split; [left|done].
      * exists k', v', qs. split; [by right|done].
    + intros (k' & v' & qs & Hin & Hq & ->).
      apply elem_of_cons in Hin as [[= -> ->]|Hin].
      * left. by exists qs.
      * right. by exists k', v', qs.
Qed.

Lemma elem_of_string_paths_list l i0 (ps : list seg) :
  ps ∈ string_paths_list string_paths l i0
  <-> exists j v qs, l !! j = Some v /\ qs ∈ string_paths v
        /\ ps = Idx (i0 + j) :: qs.
Proof.
  revert i0. induction l as [|x l IH]; intros i0; simpl.
  - split; [by intros ?%elem_of_nil|]. by intros (j & v & qs & H & _).
  - rewrite elem_of_app, IH, list_elem_of_fmap. split.
    + intros [(qs & -> & Hq)|(j & v & qs & Hj & Hq & ->)].
      * exists 0, x, qs. by rewrite Nat.add_0_r.
      * exists (S j), v, qs. by rewrite Nat.add_succ_r.
    + intros ([|j] & v & qs & Hj & Hq & ->); simpl in Hj.
      * injection Hj as ->. left. exists qs. by rewrite Nat.add_0_r.
      * right. exists j, v, qs. by rewrite Nat.add_succ_r.
Qed.

(** [string_paths] lists the paths of the string leaves. *)
Lemma string_paths_spec R :
  forall ps, json_wf R = true ->
    ps ∈ string_paths R <-> exists s, node_at ps R = Some (JStr s).
Proof.
  induction R as [| | |s|l IH|d IH] using json_ind; intros ps Hwf;
    try (simpl; split; [by intros ?%elem_of_nil|];
         intros [x Hx]; destruct ps as [|[?|?] ?]; done).
  - simpl. rewrite list_elem_of_singleton. split.
    + intros ->. by exists s.
    + intros [x Hx]. by destruct ps as [|[?|?] ?].
  - apply json_wf_list in Hwf. simpl string_paths.
    rewrite elem_of_string_paths_list. rewrite Forall_forall in IH, Hwf. split.
    + intros (j & v & qs & Hj & Hq & ->).
      apply list_elem_of_lookup_2 in Hj as Hin.
      apply (IH v Hin) in Hq as [s Hs]; [|by apply Hwf].
      exists s. simpl. by rewrite Hj.
    + intros [s Hs]. destruct ps as [|[k|j] qs]; simpl in Hs; [done|done|].
      destruct (l !! j) as [v|] eqn:Hj; [|done].
      apply list_elem_of_lookup_2 in Hj as Hin.
      exists j, v, qs. split; [done|]. split; [|done].
      apply (IH v Hin); [by apply Hwf|]. by exists s.
  - apply json_wf_dict in Hwf as [Hnd Hwf]. simpl string_paths.
    rewrite elem_of_string_paths_dict. rewrite Forall_forall in IH, Hwf. split.
    + intros (k & v & qs & Hin & Hq & ->).
      apply (IH _ Hin) in Hq as [s Hs]; [|by apply (Hwf _ Hin)].
      exists s. simpl. by rewrite (get_in_nodup d k v).
    + intros [s Hs]. destruct ps as [|[k|j] qs]; simpl in Hs; [done| |done].
      destruct (Dict.get d k) as [v|] eqn:Hg; [|done].
      apply get_some_in in Hg as Hin.
      exists k, v, qs. split; [done|]. split; [|done].
      apply (IH _ Hin); [by apply (Hwf _ Hin)|]. by exists s.
Qed.

(** No path is listed twice. *)
Lemma string_paths_nodup R : json_wf R = true -> NoDup (string_paths R).
Proof.
  induction R as [| | |s|l IH|d IH] using json_ind; intros Hwf;
    try (simpl; constructor).
  - apply not_elem_of_nil.
  - constructor.
  - apply json_wf_list in Hwf. simpl. generalize 0.
    induction IH as [|v l Hv _ IHl]; intros i; simpl; [constructor|].
    apply Forall_cons in Hwf as [Hwv Hwf].
    apply NoDup_app. split; [|split].
    + apply (NoDup_fmap_2 _). by apply Hv.
    + intros ps (qs & -> & _)%list_elem_of_fmap
        (j & x & qs' & _ & _ & [= Hj _])%elem_of_string_paths_list. lia.
    + by apply IHl.
  - apply json_wf_dict in Hwf as [Hnd Hwf]. simpl.
    induction IH as [|[k v] d Hv _ IHd]; simpl; [constructor|].
    apply Forall_cons in Hwf as [Hwv Hwf]. simpl in Hnd.
    apply NoDup_cons in Hnd as [Hk Hnd].
    apply NoDup_app. split; [|split].
    + apply (NoDup_fmap_2 _). by apply Hv.
    + intros ps (qs & -> & _)%list_elem_of_fmap
        (k' & x & qs' & Hin & _ & [= <- _])%elem_of_string_paths_dict.
      apply Hk. apply list_elem_of_fmap. by exists (k, x).
    + by apply IHd.
Qed.

Section merge_counts.
Context {P : Type} (translate : P -> str -> P * option str).

Local Abbreviation sync := (sync_structure translate).
Local Abbreviation world := (world P).

Lemma dict_loop_counts rec en pk items :
  Forall (fun kv => forall L pk (w : world),
            let w' := (rec kv.2 L pk w).2 in
            reused (w_stats w')
            = reused (w_stats w)
              + length (List.filter (reusable_at L) (string_paths kv.2))
            /\ translated (w_stats w')
               = translated (w_stats w)
                 + length (List.filter (fun ps => negb (reusable_at L ps))
                             (string_paths kv.2))) items ->
  forall result (w : world),
    let w' := (sync_dict_loop rec en pk items result w).2 in
    reused (w_stats w')
    = reused (w_stats w)
      + length (List.filter (reusable_at en)
                  (string_paths_dict string_paths items))
    /\ translated (w_stats w')
       = translated (w_stats w)
         + length (List.filter (fun ps => negb (reusable_at en ps))
                     (string_paths_dict string_paths items)).
Proof.
  induction 1 as [|[k v] items Hv _ IH]; intros result w; simpl.
  - lia.
  - specialize (Hv (legacy_child en k) (pk ++ [k]) w). simpl in Hv.
    destruct (rec v _ _ w) as [o w1]. simpl in Hv.
    specialize (IH (Dict.set result k o) w1). simpl in IH.
    rewrite !filter_app_length, !filter_map_length.
    unfold reusable_at in *. simpl. lia.
Qed.

Lemma list_loop_counts rec en pk l :
  Forall (fun v => forall L pk (w : world),
            let w' := (rec v L pk w).2 in
            reused (w_stats w')
            = reused (w_stats w)
              + length (List.filter (reusable_at L) (string_paths v))
            /\ translated (w_stats w')
               = translated (w_stats w)
                 + length (List.filter (fun ps => negb (reusable_at L ps))
                             (string_paths v))) l ->
  forall i result (w : world),
    let w' := (sync_list_loop rec en pk l i result w).2 in
    reused (w_stats w')
    = reused (w_stats w)
      + length (List.filter (reusable_at en)
                  (string_paths_list string_paths l i))
    /\ translated (w_stats w')
       = translated (w_stats w)
         + length (List.filter (fun ps => negb (reusable_at en ps))
                     (string_paths_list string_paths l i)).
Proof.
  induction 1 as [|v l Hv _ IH]; intros i result w; simpl.
  - lia.
  - specialize (Hv (legacy_item en i)
                  (pk ++ [lit "[" ++ str_of_nat i ++ lit "]"]) w).
    simpl in Hv. destruct (rec v _ _ w) as [o w1]. simpl in Hv.
    specialize (IH (S i) (result ++ [o]) w1). simpl in IH.
    rewrite !filter_app_length, !filter_map_length.
    unfold reusable_at in *. simpl. lia.
Qed.

(** Each string leaf of the reference adds one to [reused] when the legacy
    value at its path is reusable, and one to [translated] when it is
    not. *)
Lemma sync_counts R :
  forall L pk (w : world),
    let w' := (sync R L pk w).2 in
    reused (w_stats w')
    = reused (w_stats w)
      + length (List.filter (reusable_at L) (string_paths R))
    /\ translated (w_stats w')
       = translated (w_stats w)
         + length (List.filter (fun ps => negb (reusable_at L ps))
                     (string_paths R)).
Proof.
  induction R as [| | |s|l IH|d IH] using json_ind; intros L pk w;
    try (simpl; lia).
  - change (sync (JStr s) L pk w) with (sync_leaf translate s L pk w).
    cbn [string_paths List.filter]. unfold reusable_at. cbn [legacy_at].
    destruct (reusable L) eqn:Hr.
    + rewrite sync_leaf_reuse by done. simpl. lia.
    + rewrite sync_leaf_translate by done.
      destruct (translate_leaf translate s pk _) as [o w2] eqn:E.
      apply translate_leaf_spec in E
        as (out & e0 & _ & _ & _ & H1 & H2 & _).
      simpl in *. lia.
  - pose proof (list_loop_counts sync L pk l IH 0 [] w) as H. simpl in *.
    by destruct (sync_list_loop _ _ _ _ _ _ _).
  - pose proof (dict_loop_counts sync L pk d IH [] w) as H. simpl in *.
    by destruct (sync_dict_loop _ _ _ _ _ _).
Qed.

Lemma merge_counts R L p :
  reused (w_stats (merge translate R L p).2)
  = length (List.filter (reusable_at L) (string_paths R))
  /\ translated (w_stats (merge translate R L p).2)
     = length (List.filter (fun ps => negb (reusable_at L ps))
                 (string_paths R)).
Proof. apply (sync_counts R L [] (mkWorld (mkStats 0 0 0) p [])). Qed.

End merge_counts.

(** A member that does not pass the filter does not count. *)
Lemma filter_count_zero (f : list seg -> bool) (ps : list seg) l :
  f ps = false ->
  length (List.filter f l) = length (List.filter f (other_paths ps l)).
Proof.
  unfold other_paths. intros Hf. induction l as [|x l IH]; [done|]. simpl.
  destruct (decide (x = ps)) as [->|Hne].
  - by rewrite Hf, bool_decide_eq_true_2.
  - rewrite bool_decide_eq_false_2 by done. simpl.
    destruct (f x); simpl; by rewrite IH.
Qed.

(** C3. Reuse precedence. When the reference has a string leaf at a path
    and the legacy tree has, at the same path, a string that is not empty
    after trimming, the output has the legacy string at that path and no
    run of the translate branch is ever logged for that path. The leaf is
    counted once in [reused]: at the end of the merge [reused] is the
    number of string leaves of the reference with a reusable legacy value,
    that is one for this leaf plus the number of the other such leaves,
    and [translated] counts other leaves only. The visit of the leaf
    itself adds one to [reused] and touches neither [translated], nor the
    provider, nor the log. *)
Theorem reuse_precedence {P : Type} (translate : P -> str -> P * option str)
    (R L : json) (p : P) (ps : list seg) (r l : str) :
  json_wf R = true ->
  node_at ps R = Some (JStr r) ->
  node_at ps L = Some (JStr l) ->
  strip l <> [] ->
  let O := (merge translate R L p).1 in
  let w' := (merge translate R L p).2 in
  node_at ps O = Some (JStr l)
  /\ (forall e, e ∈ w_log w' -> lr_path e <> map seg_key ps)
  /\ (forall qs, qs ∈ string_paths R
                 <-> exists s, node_at qs R = Some (JStr s))
  /\ NoDup (string_paths R)
  /\ reused (w_stats w')
     = length (List.filter (reusable_at L) (string_paths R))
  /\ reused (w_stats w')
     = S (length (List.filter (reusable_at L)
                    (other_paths ps (string_paths R))))
  /\ translated (w_stats w')
     = length (List.filter (fun qs => negb (reusable_at L qs))
                 (other_paths ps (string_paths R)))
  /\ exists w1 w2 : world P,
       sync_structure translate (JStr r) (JStr l) (map seg_key ps) w1
       = (JStr l, w2)
       /\ world_le (mkWorld (mkStats 0 0 0) p []) w1
       /\ world_le w2 w'
       /\ reused (w_stats w2) = reused (w_stats w1) + 1
       /\ translated (w_stats w2) = translated (w_stats w1)
       /\ w_prov w2 = w_prov w1 /\ w_log w2 = w_log w1.
Proof.
  intros Hwf HR HL Hl O w'. subst O w'.
  apply node_at_legacy in HL as Hleg.
  assert (Hre : reusable_at L ps = true).
  { unfold reusable_at. rewrite Hleg. by apply truthy_nonempty. }
  destruct (merge_at translate R L p ps _ Hwf HR)
    as (w1 & o & w2 & Hs & HO & H1 & H2).
  rewrite Hleg in Hs.
  assert (Hs' := Hs).
  change (sync_structure translate (JStr r) (JStr l) (map seg_key ps) w1)
    with (sync_leaf translate r (JStr l) (map seg_key ps) w1) in Hs'.
  rewrite sync_leaf_reuse in Hs'
    by (unfold reusable_at in Hre; by rewrite <- Hleg).
  injection Hs' as <- <-.
  destruct (merge_counts translate R L p) as [Hreu Htr].
  assert (Hin : ps ∈ string_paths R)
    by (apply string_paths_spec; [done|by exists r]).
  pose proof (string_paths_nodup R Hwf) as Hnd.
  split; [done|]. split; [|split; [|split; [|split; [|split; [|split]]]]].
  - intros e He Hp. apply merge_log_origin in He; [|done].
    apply origin_facts in He as (ps' & s & out & HR' & Hr' & Hp' & _).
    rewrite Hp in Hp'. simpl in Hp'.
    apply seg_keys_inj with (R := R) in Hp'; [|by rewrite HR|by rewrite HR'].
    subst ps'. unfold reusable_at in Hre. congruence.
  - intros qs. by apply string_paths_spec.
  - done.
  - done.
  - rewrite Hreu. by apply filter_count_one.
  - rewrite Htr. apply filter_count_zero. by rewrite Hre.
  - eexists w1, _. split; [exact Hs|]. split; [done|]. split; [done|]. done.
Qed.

Lemma reuse_precedence_witness :
  json_wf tree_two_leaves = true
  /\ node_at [Key (lit "b")] tree_two_leaves = Some (JStr (lit "Deux"))
  /\ node_at [Key (lit "b")] legacy_two_leaves = Some (JStr (lit "Two"))
  /\ strip (lit "Two") <> []
  /\ reused (w_stats (merge failing_provider tree_two_leaves
                        legacy_two_leaves 0).2) = 2
  /\ node_at [Key (lit "b")]
       (merge failing_provider tree_two_leaves legacy_two_leaves 0).1
     = Some (JStr (lit "Two"))
  /\ reused (w_stats (merge failing_provider tree_two_leaves
                        legacy_two_leaves 0).2)
     = S (length (List.filter (reusable_at legacy_two_leaves)
                    (other_paths [Key (lit "b")]
                       (string_paths tree_two_leaves)))).
Proof.
  split; [reflexivity|]. split; [reflexivity|]. split; [reflexivity|].
  split; [vm_compute; discriminate|]. split; [reflexivity|].
  pose proof (reuse_precedence failing_provider tree_two_leaves
                legacy_two_leaves 0 [Key (lit "b")] (lit "Deux") (lit "Two")
                eq_refl eq_refl eq_refl) as H.
  destruct H as (H1 & _ & _ & _ & _ & H2 & _); [vm_compute; discriminate|].
  split; [exact H1|exact H2].
Defined.

(** C10. A blank string leaf of the reference (empty or white space only)
    whose legacy counterpart is not reusable is copied to the output
    unchanged; the translate branch is run for it without any call of the
    provider. The leaf is counted once in [translated] and not in
    [reused]: at the end of the merge [translated] is one for this leaf
    plus the number of the other string leaves without a reusable legacy
    value, and [reused] is the number of string leaves with a reusable
    legacy value, which are all other leaves. At the end of every merge
    [total] is the sum of [reused] and [translated]. *)
Theorem blank_leaf_counts_as_translated {P : Type}
    (translate : P -> str -> P * option str) (R L : json) (p : P) :
  json_wf R = true ->
  let O := (merge translate R L p).1 in
  let w' := (merge translate R L p).2 in
  (forall ps s,
      node_at ps R = Some (JStr s) -> blank s = true ->
      reusable (legacy_at ps L) = false ->
      node_at ps O = Some (JStr s)
      /\ (forall e, e ∈ w_log w' -> lr_path e = map seg_key ps ->
            calls (lr_events e) = 0)
      /\ (exists e, e ∈ w_log w' /\ lr_path e = map seg_key ps
                    /\ calls (lr_events e) = 0)
      /\ translated (w_stats w')
         = S (length (List.filter (fun qs => negb (reusable_at L qs))
                        (other_paths ps (string_paths R))))
      /\ reused (w_stats w')
         = length (List.filter (reusable_at L)
                     (other_paths ps (string_paths R)))
      /\ exists w1 w2 : world P,
           sync_structure translate (JStr s) (legacy_at ps L)
             (map seg_key ps) w1 = (JStr s, w2)
           /\ world_le (mkWorld (mkStats 0 0 0) p []) w1 /\ world_le w2 w'
           /\ translated (w_stats w2) = translated (w_stats w1) + 1
           /\ reused (w_stats w2) = reused (w_stats w1)
           /\ total (w_stats w2) = total (w_stats w1) + 1
           /\ w_prov w2 = w_prov w1)
  /\ (forall qs, qs ∈ string_paths R
                 <-> exists s, node_at qs R = Some (JStr s))
  /\ NoDup (string_paths R)
  /\ translated (w_stats w')
     = length (List.filter (fun qs => negb (reusable_at L qs))
                 (string_paths R))
  /\ reused (w_stats w')
     = length (List.filter (reusable_at L) (string_paths R))
  /\ total (w_stats w') = reused (w_stats w') + translated (w_stats w').
Proof.
  intros Hwf O w'. subst O w'.
  destruct (merge_counts translate R L p) as [Hreu Htr].
  pose proof (string_paths_nodup R Hwf) as Hnd.
  split; [|split; [|split; [|split; [|split]]]]; try done.
  - intros ps s HR Hb Hr.
    destruct (merge_at translate R L p ps _ Hwf HR)
      as (w1 & o & w2 & Hs & HO & H1 & H2).
    assert (Hs' := Hs).
    change (sync_structure translate (JStr s) (legacy_at ps L)
              (map seg_key ps) w1)
      with (sync_leaf translate s (legacy_at ps L) (map seg_key ps) w1) in Hs'.
    rewrite sync_leaf_translate in Hs' by done.
    apply translate_leaf_spec in Hs'
      as (out & e & -> & Hlog & Hp & Ht & Hre & Hto & _ & _ & Hbl).
    destruct (Hbl Hb) as (-> & Hc & Hpr). simpl in *.
    assert (Hin : ps ∈ string_paths R)
      by (apply string_paths_spec; [done|by exists s]).
    split; [done|]. split; [|split; [|split; [|split]]].
    + intros e' He' Hp'. apply merge_log_origin in He'; [|done].
      apply origin_facts in He'
        as (ps' & s' & out' & HR' & _ & Hp'' & _ & _ & _ & Hb').
      rewrite Hp' in Hp''. simpl in Hp''.
      apply seg_keys_inj with (R := R) in Hp'';
        [|by rewrite HR|by rewrite HR'].
      subst ps'. rewrite HR in HR'. injection HR' as <-.
      by destruct (Hb' Hb).
    + exists e. split; [|done]. destruct H2 as [_ [k Hk]].
      rewrite Hk, Hlog. apply elem_of_app. left. apply elem_of_app. right.
      left.
    + rewrite Htr. apply filter_count_one; [done|done|].
      unfold reusable_at. by rewrite Hr.
    + rewrite Hreu. apply filter_count_zero. unfold reusable_at. by rewrite Hr.
    + exists w1, w2. split; [done|]. split; [done|]. split; [done|]. done.
  - intros qs. by apply string_paths_spec.
  - pose proof (sync_stats translate R L [] (mkWorld (mkStats 0 0 0) p []))
      as [H1 H2]. unfold merge. simpl in *. lia.
Qed.

Lemma blank_leaf_counts_as_translated_witness :
  json_wf tree_two_blank_leaves = true
  /\ w_stats (merge prefixing_provider tree_two_blank_leaves JNull 0).2
     = mkStats 2 0 2
  /\ node_at [Key (lit "b")]
       (merge prefixing_provider tree_two_blank_leaves JNull 0).1
     = Some (JStr (lit "  "))
  /\ translated (w_stats (merge prefixing_provider tree_two_blank_leaves
                            JNull 0).2)
     = S (length (List.filter (fun qs => negb (reusable_at JNull qs))
                    (other_paths [Key (lit "b")]
                       (string_paths tree_two_blank_leaves)))).
Proof.
  split; [reflexivity|]. split; [reflexivity|].
  pose proof (blank_leaf_counts_as_translated prefixing_provider
                tree_two_blank_leaves JNull 0 eq_refl) as [H _].
  destruct (H [Key (lit "b")] (lit "  ") eq_refl eq_refl eq_refl)
    as (H1 & _ & _ & H2 & _).
  split; [exact H1|exact H2].
Defined.

(** ** The run of the translate branch for one leaf *)

Lemma NoDup_fmap_eq {A B : Type} (f : A -> B) (l : list A) x y :
  NoDup (map f l) -> x ∈ l -> y ∈ l -> f x = f y -> x = y.
Proof.
  induction l as [|a l IH]; simpl; intros Hnd Hx Hy Hf.
  - by apply elem_of_nil in Hx.
  - apply NoDup_cons in Hnd as [Hna Hnd].
    apply elem_of_cons in Hx as [->|Hx]; apply elem_of_cons in Hy as [->|Hy].
    + done.
    + exfalso. apply Hna. rewrite Hf. change (f y ∈ f <$> l).
      apply list_elem_of_fmap. by exists y.
    + exfalso. apply Hna. rewrite <- Hf. change (f x ∈ f <$> l).
      apply list_elem_of_fmap. by exists x.
    + by apply IH.
Qed.

Lemma success_failed_attempts k protected :
  Forall (fun ev => is_success ev = false) (failed_attempts k protected).
Proof. induction k as [|k IH]; simpl; by repeat constructor. Qed.

Lemma progress_line_calls evs :
  progress_line evs ->
  calls evs = 0 /\ Forall (fun ev => is_success ev = false) evs
  /\ forall a r, EvCall a r ∉ evs.
Proof.
  intros [->|(a & b & ->)].
  - split; [done|]. split; [constructor|]. intros a r H.
    by apply elem_of_nil in H.
  - split; [done|]. split; [by repeat constructor|]. intros a' r H.
    apply list_elem_of_singleton in H. discriminate.
Qed.

Section leaf_runs.
Context {P : Type} (translate : P -> str -> P * option str).

(** Every call event of the retry loop is a call of the provider on the
    guarded text, with the answer the provider gave. *)
Lemma translate_loop_genuine text protected ph_map retry :
  forall p a r,
    EvCall a r ∈ (translate_loop translate text protected ph_map retry p).2 ->
    a = protected /\ exists q, (translate q a).2 = r.
Proof.
  induction retry as [|n IH]; intros p a r; simpl.
  - intros H. by apply elem_of_nil in H.
  - destruct (translate p protected) as [p1 [out|]] eqn:E; simpl.
    + intros H. apply list_elem_of_singleton in H. injection H as -> ->.
      split; [done|]. exists p. by rewrite E.
    + destruct n as [|n'].
      * simpl. intros H. apply elem_of_cons in H as [H|H].
        -- injection H as -> ->. split; [done|]. exists p. by rewrite E.
        -- apply list_elem_of_singleton in H. discriminate.
      * specialize (IH p1 a r).
        destruct (translate_loop translate text protected ph_map (S n') p1)
          as [[res p2] evs]. simpl in *.
        intros H. apply elem_of_cons in H as [H|H].
        -- injection H as -> ->. split; [done|]. exists p. by rewrite E.
        -- apply elem_of_cons in H as [H|H]; [discriminate|]. by apply IH.
Qed.

Lemma translate_text_genuine text p retry a r :
  EvCall a r ∈ (translate_text translate text p retry).2 ->
  a = (Guard.protect_placeholders text).1 /\ exists q, (translate q a).2 = r.
Proof.
  unfold translate_text. destruct (negb (truthy (strip text))).
  - simpl. intros H. by apply elem_of_nil in H.
  - destruct (Guard.protect_placeholders text) as [protected ph_map].
    apply translate_loop_genuine.
Qed.

Lemma translate_text_run text p :
  text_run text (translate_text translate text p 3).1.1
    (translate_text translate text p 3).2.
Proof.
  pose proof (translate_text_shape translate text p 3) as H.
  unfold text_run, exhausted_run.
  destruct (translate_text translate text p 3) as [[res p'] evs].
  cbn [fst snd]. destruct (blank text); [done|]. cbn zeta in H.
  destruct H as [(k & out & Hk & -> & ->)|[(n & Hn & -> & ->)|(? & _)]];
    [| |done].
  - left. by exists k, out.
  - right. by injection Hn as <-.
Qed.

(** The log entry of the translate branch and the output leaf. *)
Lemma translate_leaf_run s pk (w : world P) o w2 :
  translate_leaf translate s pk w = (o, w2) ->
  exists out e progress evs,
    o = JStr out
    /\ w_log w2 = w_log w ++ [e] /\ lr_path e = pk
    /\ lr_events e = progress ++ evs ++ [EvSleep 300]
    /\ progress_line progress
    /\ text_run s out evs
    /\ (forall a r, EvCall a r ∈ evs ->
          a = (Guard.protect_placeholders s).1
          /\ exists q, (translate q a).2 = r).
Proof.
  unfold translate_leaf.
  pose proof (translate_text_run s (w_prov w)) as Hrun.
  pose proof (translate_text_genuine s (w_prov w) 3) as Hgen.
  destruct (translate_text translate s (w_prov w) 3) as [[out p'] evs].
  cbn [fst snd] in *.
  intros [= <- <-]. eexists out, _, _, evs. cbn [w_log lr_events lr_path].
  split; [done|]. split; [done|]. split; [done|]. split; [done|].
  split; [|split; [done|]].
  - destruct (_ && _); [right; by eexists _, _|by left].
  - intros a r. apply Hgen.
Qed.

(** What a run says of the number of calls and of the failure line. *)
Lemma run_facts (s out : str) progress evs events :
  events = progress ++ evs ++ [EvSleep 300] ->
  progress_line progress ->
  text_run s out evs ->
  calls events = calls evs
  /\ calls events <= 3
  /\ (if blank s then calls events = 0 else 1 <= calls events)
  /\ (Forall (fun ev => is_success ev = false) events ->
      out = s
      /\ (blank s = false ->
          evs = exhausted_run s /\ calls events = 3
          /\ EvFail (take 40 s) ∈ events)).
Proof.
  intros -> Hp Hrun. apply progress_line_calls in Hp as (Hc & _ & _).
  rewrite !calls_app, Hc. change (calls [EvSleep 300]) with 0.
  rewrite Nat.add_0_l, Nat.add_0_r. split; [done|].
  unfold text_run in Hrun. destruct (blank s).
  - destruct Hrun as [-> ->]. split; [unfold calls; simpl; lia|].
    split; [done|]. by intros _.
  - destruct Hrun as [(k & res & Hk & -> & ->)|[-> ->]].
    + rewrite calls_app, calls_failed_attempts.
      change (calls [EvCall _ (Some res)]) with 1.
      split; [lia|]. split; [lia|]. intros Hall.
      apply Forall_app in Hall as [_ Hall].
      apply Forall_app in Hall as [Hall _].
      apply Forall_app in Hall as [_ Hall].
      apply Forall_cons in Hall as [Hall _]. done.
    + unfold exhausted_run. rewrite calls_app, calls_failed_attempts.
      split; [unfold calls; simpl; lia|]. split; [unfold calls; simpl; lia|].
      intros _. split; [done|]. intros _. split; [done|].
      split; [unfold calls; simpl; lia|].
      apply elem_of_app. right. apply elem_of_app. left.
      apply elem_of_app. right. right. left.
Qed.

(** With a provider that fails on every call no event is a success. *)
Lemma run_all_fail progress evs :
  (forall q x, (translate q x).2 = None) ->
  progress_line progress ->
  (forall a r, EvCall a r ∈ evs -> exists q, (translate q a).2 = r) ->
  Forall (fun ev => is_success ev = false) (progress ++ evs ++ [EvSleep 300]).
Proof.
  intros Hf Hp Hgen. apply progress_line_calls in Hp as (_ & Hp & _).
  apply Forall_app. split; [done|]. apply Forall_app. split.
  - apply Forall_forall. intros [| a [res|] | |] Hev; try done.
    destruct (Hgen _ _ Hev) as (q & Hq). by rewrite Hf in Hq.
  - by repeat constructor.
Qed.

(** The run behind a log entry of the translate branch. *)
Lemma origin_run R L O pk e :
  leaf_origin translate R L O pk e ->
  exists ps s out progress evs,
    node_at ps R = Some (JStr s)
    /\ reusable (legacy_at ps L) = false
    /\ lr_path e = pk ++ map seg_key ps
    /\ node_at ps O = Some (JStr out)
    /\ lr_events e = progress ++ evs ++ [EvSleep 300]
    /\ progress_line progress
    /\ text_run s out evs
    /\ (forall a r, EvCall a r ∈ evs ->
          a = (Guard.protect_placeholders s).1
          /\ exists q, (translate q a).2 = r).
Proof.
  intros (ps & s & w1 & o & w2 & HR & Hr & Ht & Hlog & HO).
  apply translate_leaf_run in Ht
    as (out & e0 & progress & evs & -> & Hlog0 & Hp & Hev & Hpl & Hrun & Hgen).
  rewrite Hlog in Hlog0. apply app_inj_tail in Hlog0 as [_ ->].
  by exists ps, s, out, progress, evs.
Qed.

End leaf_runs.

(** C5. Provider exhaustion. A string leaf of the reference without a
    reusable legacy value has exactly one run of the translate branch in
    the log. The run is the progress line if any, the events of
    [translate_text] and the 0.3 s pause. Every call event of the run is
    a call of the provider on the guarded text; there are at most 3, none
    for a blank leaf and at least one otherwise. For a leaf that is not
    blank either one of the three attempts succeeds, or the events are
    three failed calls with a pause after the first two followed by the
    failure line, and the output leaf is the reference text. In
    particular, when no call of the run succeeds, and so whenever the
    provider fails on every call, the output leaf is the reference text
    and a leaf that is not blank gets 3 calls and the failure line. The
    same holds of every entry of the log. For any [retry],
    [translate_text] calls the provider at most [retry] times. Whatever
    the provider does, the merge returns, counts every string leaf
    ([translated] the leaves without a reusable legacy value, [reused]
    the others) and the output has all the paths of the reference. *)
Theorem provider_exhaustion {P : Type}
    (translate : P -> str -> P * option str) (R L : json) (p : P)
    (ps : list seg) (s : str) :
  json_wf R = true ->
  node_at ps R = Some (JStr s) ->
  reusable (legacy_at ps L) = false ->
  let O := (merge translate R L p).1 in
  let w' := (merge translate R L p).2 in
  (exists e progress evs out,
      e ∈ w_log w' /\ lr_path e = map seg_key ps
      /\ (forall e', e' ∈ w_log w' -> lr_path e' = map seg_key ps -> e' = e)
      /\ node_at ps O = Some (JStr out)
      /\ lr_events e = progress ++ evs ++ [EvSleep 300]
      /\ progress_line progress
      /\ text_run s out evs
      /\ (forall a r, EvCall a r ∈ lr_events e ->
            a = (Guard.protect_placeholders s).1
            /\ exists q, (translate q a).2 = r)
      /\ calls (lr_events e) <= 3
      /\ (if blank s then calls (lr_events e) = 0
          else 1 <= calls (lr_events e))
      /\ (Forall (fun ev => is_success ev = false) (lr_events e) ->
          out = s
          /\ (blank s = false ->
              evs = exhausted_run s /\ calls (lr_events e) = 3
              /\ EvFail (take 40 s) ∈ lr_events e))
      /\ ((forall q x, (translate q x).2 = None) ->
          out = s
          /\ (blank s = false ->
              evs = exhausted_run s /\ calls (lr_events e) = 3
              /\ EvFail (take 40 s) ∈ lr_events e)))
  /\ (forall e, e ∈ w_log w' ->
        calls (lr_events e) <= 3
        /\ exists qs t,
             node_at qs R = Some (JStr t)
             /\ reusable (legacy_at qs L) = false
             /\ lr_path e = map seg_key qs
             /\ (blank t = false -> 1 <= calls (lr_events e))
             /\ (Forall (fun ev => is_success ev = false) (lr_events e) ->
                 node_at qs O = Some (JStr t)
                 /\ (blank t = false ->
                     calls (lr_events e) = 3
                     /\ EvFail (take 40 t) ∈ lr_events e)))
  /\ (forall text q retry,
        calls (translate_text translate text q retry).2 <= retry)
  /\ total (w_stats w') = count_strings R
  /\ translated (w_stats w') + reused (w_stats w') = count_strings R
  /\ translated (w_stats w')
     = length (List.filter (fun qs => negb (reusable_at L qs))
                 (string_paths R))
  /\ reused (w_stats w')
     = length (List.filter (reusable_at L) (string_paths R))
  /\ (forall qs, kind_of <$> node_at qs O = kind_of <$> node_at qs R).
Proof.
  intros Hwf HR Hr O w'. subst O w'.
  destruct (merge_counts translate R L p) as [Hreu Htr].
  split; [|split; [|split; [|split; [|split; [|split; [|split]]]]]];
    try done.
  - destruct (merge_at translate R L p ps _ Hwf HR)
      as (w1 & o & w2 & Hs & HO & H1 & H2).
    change (sync_structure translate (JStr s) (legacy_at ps L)
              (map seg_key ps) w1)
      with (sync_leaf translate s (legacy_at ps L) (map seg_key ps) w1) in Hs.
    rewrite sync_leaf_translate in Hs by done.
    apply translate_leaf_run in Hs
      as (out & e & progress & evs & -> & Hlog & Hp & Hev & Hpl & Hrun & Hgen).
    simpl in Hlog.
    assert (He : e ∈ w_log (merge translate R L p).2).
    { destruct H2 as [_ [k Hk]]. rewrite Hk, Hlog.
      apply elem_of_app. left. apply elem_of_app. right. left. }
    destruct (run_facts s out progress evs _ Hev Hpl Hrun)
      as (Hce & Hc3 & Hc1 & Hfail).
    exists e, progress, evs, out.
    split; [done|]. split; [done|]. split; [|split; [done|]].
    { intros e' He' Hp'.
      destruct (sync_log_paths translate R L [] (mkWorld (mkStats 0 0 0) p [])
                  Hwf) as (new & Hnew & Hnd & _).
      simpl in Hnew. unfold merge in He, He'. rewrite Hnew in He, He'.
      apply (NoDup_fmap_eq lr_path new); [done|done|done|congruence]. }
    split; [done|]. split; [done|]. split; [done|].
    split; [|split; [done|]; split; [done|]; split; [done|]].
    + intros a r Hin. rewrite Hev in Hin.
      apply progress_line_calls in Hpl as (_ & _ & Hno).
      apply elem_of_app in Hin as [Hin|Hin]; [by apply Hno in Hin|].
      apply elem_of_app in Hin as [Hin|Hin]; [by apply Hgen|].
      apply list_elem_of_singleton in Hin. discriminate.
    + intros Hall. apply Hfail. rewrite Hev.
      apply (run_all_fail translate); [done|done|].
      intros a r Hin. by destruct (Hgen a r Hin).
  - intros e He. apply merge_log_origin in He; [|done].
    apply (origin_run translate) in He
      as (qs & t & out & progress & evs & HRq & Hrq & Hp & HO & Hev & Hpl
          & Hrun & _).
    destruct (run_facts t out progress evs _ Hev Hpl Hrun)
      as (Hce & Hc3 & Hc1 & Hfail).
    split; [done|]. exists qs, t.
    split; [done|]. split; [done|]. split; [done|]. split.
    + intros Hb. by rewrite Hb in Hc1.
    + intros Hall. destruct (Hfail Hall) as [-> Hx]. split; [done|].
      intros Hb. by destruct (Hx Hb) as (_ & ? & ?).
  - intros text q retry.
    destruct (translate_text translate text q retry) as [[res q'] evs] eqn:E.
    by apply translate_text_spec in E as [? _].
  - pose proof (sync_stats translate R L [] (mkWorld (mkStats 0 0 0) p []))
      as [H _]. done.
  - pose proof (sync_stats translate R L [] (mkWorld (mkStats 0 0 0) p []))
      as [_ H]. done.
  - intros qs. apply same_shape_node_at. by apply sync_shape.
Qed.

Lemma provider_exhaustion_witness :
  json_wf reference_tree = true
  /\ node_at [Key (lit "nav"); Key (lit "home")] reference_tree
     = Some (JStr (lit "Accueil"))
  /\ reusable (legacy_at [Key (lit "nav"); Key (lit "home")] legacy_tree)
     = false
  /\ exists e,
       e ∈ w_log (merge failing_provider reference_tree legacy_tree 0).2
       /\ lr_path e = [lit "nav"; lit "home"]
       /\ calls (lr_events e) = 3
       /\ EvFail (take 40 (lit "Accueil")) ∈ lr_events e
       /\ node_at [Key (lit "nav"); Key (lit "home")]
            (merge failing_provider reference_tree legacy_tree 0).1
          = Some (JStr (lit "Accueil")).
Proof.
  split; [reflexivity|]. split; [reflexivity|]. split; [reflexivity|].
  pose proof (provider_exhaustion failing_provider reference_tree legacy_tree
                0 [Key (lit "nav"); Key (lit "home")] (lit "Accueil")
                eq_refl eq_refl eq_refl) as [H _].
  destruct H as (e & progress & evs & out & He & Hp & _ & HO & _ & _ & _ & _
                 & _ & _ & _ & Hfail).
  destruct (Hfail (fun q x => eq_refl)) as [-> Hx].
  destruct (Hx eq_refl) as (_ & Hc & Hin).
  exists e. split; [exact He|]. split; [exact Hp|]. split; [exact Hc|].
  split; [exact Hin|exact HO].
Defined.

(** ** What the guard extracts *)











(** ** What the guard replaces *)
















(** *** Tokens inside tokens *)












